(** * The search engine of bazaar (src/bz-search-engine.c)

    A shallow embedding of the query path of [BzSearchEngine]: the scoring
    function [test_strings], the bias table built by [biases_changed], the
    shard worker [query_sub_task_fiber], the coordinator [query_task_fiber]
    and the public entry point [bz_search_engine_query].  The file under
    src/ holds two revisions of the engine one after the other; the
    embedding follows the first, the one with [biases_changed] and the
    linear and exponential boost functions.

    Around the engine, the development embeds what feeds it: the entry
    groups of src/bz-entry-group.c ([bz_entry_group_add] and the handlers
    of an entry's notifications), the group filter of
    src/bz-application.c ([validate_group_for_ui]), whose verdicts, as
    the filter list model keeps them, decide which groups the engine
    searches, and the two comparison functions that
    order what the backend delivers ([cmp_rref] of
    src/bz-flatpak-instance.c and [cmp_entry]).

    Conventions of the embedding.
    - A C string holding valid UTF-8 is the list of its code points; the
      terminating NUL is the end of the list.  A pointer into a string is the
      suffix that starts at it, so [g_utf8_next_char] is the tail and two
      pointers into one string compare by the lengths of their suffixes.
    - [double] arithmetic, the regular-expression engine of GLib and the
      Unicode case tables are interfaces of the program's environment; they
      are type classes here and the functions are written over them.
    - [guint] and [gsize] counters are integers; where the source computes
      with unsigned wrap-around the modulus is written out.  The [int]
      counters and priorities of the groups and of the blocklists are
      integers: the embedding is exact as long as they stay within the
      bounds of [int], which the source does not check. *)

From Stdlib Require Import Ascii String.
From Stdlib Require Import ZArith List Bool Lia QArith Qround.
From Stdlib Require Import Permutation Sorted.
Import ListNotations.

Local Open Scope Z_scope.

(* ------------------------------------------------------------------ *)
(** ** Strings of GLib *)

Definition gunichar := Z.

(** A NUL-terminated UTF-8 string, as the list of its code points. *)
Definition cstr := list gunichar.

Definition g_utf8_get_char (p : cstr) : gunichar :=
  match p with
  | [] => 0
  | c :: _ => c
  end.

Definition g_utf8_next_char (p : cstr) : cstr := tl p.

(** [p < e] for two pointers into the same string. *)
Definition ptr_lt (p e : cstr) : bool := (length e <? length p)%nat.

Fixpoint cstr_eqb (a b : cstr) : bool :=
  match a, b with
  | [], [] => true
  | x :: a', y :: b' => (x =? y) && cstr_eqb a' b'
  | _, _ => false
  end.

(** [g_strcmp0 (a, b) == 0] on two non-NULL strings. *)
Definition g_strcmp0_is0 (a b : cstr) : bool := cstr_eqb a b.

(** [tolower] of the C library on one code unit: only ASCII letters fold,
    and the units of a multi-byte sequence are left alone. *)
Definition c_tolower (c : gunichar) : gunichar :=
  if (65 <=? c) && (c <=? 90) then c + 32 else c.

(** [strcasecmp (a, b) == 0]. *)
Definition strcasecmp_is0 (a b : cstr) : bool :=
  cstr_eqb (map c_tolower a) (map c_tolower b).

(** [g_strjoinv (sep, terms)]. *)
Fixpoint g_strjoinv (sep : cstr) (terms : list cstr) : cstr :=
  match terms with
  | [] => []
  | [t] => t
  | t :: rest => t ++ sep ++ g_strjoinv sep rest
  end.

(** The code points of an ASCII literal. *)
Definition utf8 (s : string) : cstr :=
  map (fun a => Z.of_N (N_of_ascii a)) (list_ascii_of_string s).

(* ------------------------------------------------------------------ *)
(** ** Unicode general categories

    [g_unichar_type] of GLib; the search engine only ever asks whether a
    character is a space separator (category Zs).  Control characters, the
    line separator and the paragraph separator are told apart because they
    are white space that is not in Zs; every other category is
    [G_UNICODE_OTHER]. *)

Inductive GUnicodeType :=
| G_UNICODE_CONTROL
| G_UNICODE_SPACE_SEPARATOR
| G_UNICODE_LINE_SEPARATOR
| G_UNICODE_PARAGRAPH_SEPARATOR
| G_UNICODE_OTHER.

Definition GUnicodeType_eqb (a b : GUnicodeType) : bool :=
  match a, b with
  | G_UNICODE_CONTROL, G_UNICODE_CONTROL
  | G_UNICODE_SPACE_SEPARATOR, G_UNICODE_SPACE_SEPARATOR
  | G_UNICODE_LINE_SEPARATOR, G_UNICODE_LINE_SEPARATOR
  | G_UNICODE_PARAGRAPH_SEPARATOR, G_UNICODE_PARAGRAPH_SEPARATOR
  | G_UNICODE_OTHER, G_UNICODE_OTHER => true
  | _, _ => false
  end.

Definition in_range (lo hi c : Z) : bool := (lo <=? c) && (c <=? hi).

Definition g_unichar_type (c : gunichar) : GUnicodeType :=
  if in_range 0 31 c || in_range 127 159 c then G_UNICODE_CONTROL
  else if (c =? 32) || (c =? 160) || (c =? 5760) || in_range 8192 8202 c
          || (c =? 8239) || (c =? 8287) || (c =? 12288)
       then G_UNICODE_SPACE_SEPARATOR
  else if c =? 8232 then G_UNICODE_LINE_SEPARATOR
  else if c =? 8233 then G_UNICODE_PARAGRAPH_SEPARATOR
  else G_UNICODE_OTHER.

(** The White_Space property of Unicode ([g_unichar_isspace] plus the
    separators): what a reader calls Unicode whitespace. *)
Definition unicode_white_space (c : gunichar) : bool :=
  in_range 9 13 c || (c =? 133)
  || GUnicodeType_eqb (g_unichar_type c) G_UNICODE_SPACE_SEPARATOR
  || (c =? 8232) || (c =? 8233).

(** The case tables of GLib. *)
Class Unicode := {
  g_unichar_tolower : gunichar -> gunichar
}.

(* ------------------------------------------------------------------ *)
(** ** Arithmetic on [double]

    The operations the engine uses on [double], as an interface.  The
    program runs on IEEE 754 binary64; the functions below are written
    over any implementation, and what a proof needs of the arithmetic is
    stated where it is needed ([double_order], [double_null]). *)

Class Double := {
  double : Type;
  (** a decimal literal of the source *)
  d_lit : Q -> double;
  (** the conversion [(double) n] of an integer *)
  d_of_int : Z -> double;
  d_add : double -> double -> double;
  d_sub : double -> double -> double;
  d_mul : double -> double -> double;
  d_div : double -> double -> double;
  (** [pow] of the C library *)
  d_pow : double -> double -> double;
  (** [a < b]; the source's [a > b] is [d_lt b a] *)
  d_lt : double -> double -> bool
}.

Declare Scope double_scope.
Delimit Scope double_scope with D.
Infix "+" := d_add : double_scope.
Infix "-" := d_sub : double_scope.
Infix "*" := d_mul : double_scope.
Infix "/" := d_div : double_scope.
Infix "<?" := d_lt : double_scope.

Definition G_MAXINT : Z := 2147483647.
Definition gsize_modulus : Z := 2 ^ 64.

Section Scoring.
Context {U : Unicode} {DBL : Double}.

(* ------------------------------------------------------------------ *)
(** ** Tokens *)

Definition utf8_char_class (s : cstr) : GUnicodeType :=
  g_unichar_type (g_utf8_get_char s).

(** The loop of [utf8_skip_to_next_of_class]: [p] walks the string, [s] is
    the caller's pointer (moved to the first character outside the class),
    [skipped] tells whether such a character was seen and [read_utf8] counts
    them.  Returns the end pointer, the moved [s] and the count. *)
Fixpoint skip_loop (class : GUnicodeType) (p s : cstr) (skipped : bool)
  (read_utf8 : Z) : cstr * cstr * Z :=
  match p with
  | [] =>
      (* "return the end of the string if nothing was found":
         *s + strlen ( *s) *)
      ([], s, read_utf8)
  | _ :: p' =>
      if GUnicodeType_eqb (utf8_char_class p) class
      then if skipped then (p, s, read_utf8)
           else skip_loop class p' s skipped read_utf8
      else skip_loop class p' (if skipped then s else p) true (read_utf8 + 1)
  end.

Definition utf8_skip_to_next_of_class (s : cstr) (class : GUnicodeType)
  : cstr * cstr * Z :=
  skip_loop class s s false 0.

(** One iteration of [UTF8_FOREACH_TOKEN_FORWARDS]: the token runs from
    [tok_start] to [tok_end] and [tok_utf8_len] is what the skip counted. *)
Record token := {
  tok_start : cstr;
  tok_end : cstr;
  tok_utf8_len : Z
}.

(** The iterations of [UTF8_FOREACH_TOKEN_FORWARDS (start, end, s, &len)],
    in order.  Every iteration moves [start] to a strictly shorter suffix,
    so [S (length s)] rounds are enough. *)
Fixpoint tokens_from (fuel : nat) (start : cstr) : list token :=
  match fuel with
  | O => []
  | S fuel' =>
      let '(end_, start', len) :=
        utf8_skip_to_next_of_class start G_UNICODE_SPACE_SEPARATOR in
      match start' with
      | [] => []
      | _ :: _ =>
          {| tok_start := start'; tok_end := end_; tok_utf8_len := len |}
          :: tokens_from fuel' end_
      end
  end.

Definition UTF8_FOREACH_TOKEN_FORWARDS (s : cstr) : list token :=
  tokens_from (S (length s)) s.

(* ------------------------------------------------------------------ *)
(** ** The scoring function *)

(** The innermost loop of [test_strings]: walk the query token from
    [query_ptr] up to [query_tok_end], comparing lowered characters with the
    field read at [against_check_ptr].  Returns the final [match]. *)
Fixpoint compare_from (query_ptr query_tok_end against_check_ptr : cstr)
  : bool :=
  match query_ptr with
  | [] => true
  | _ :: query_ptr' =>
      if ptr_lt query_ptr query_tok_end then
        if g_unichar_tolower (g_utf8_get_char against_check_ptr)
           =? g_unichar_tolower (g_utf8_get_char query_ptr)
        then compare_from query_ptr' query_tok_end
               (g_utf8_next_char against_check_ptr)
        else false
      else true
  end.

(** The loop over the start offsets inside one field token; returns the
    value of [match] when the loop is left. *)
Fixpoint scan_from (q : token) (against_ptr against_tok_end : cstr)
  (against_tok_utf8_len consumed : Z) : bool :=
  match against_ptr with
  | [] => false
  | _ :: against_ptr' =>
      if ptr_lt against_ptr against_tok_end then
        if tok_utf8_len q
           >? (against_tok_utf8_len - consumed) mod gsize_modulus
        then false
        else if compare_from (tok_start q) (tok_end q) against_ptr
        then true
        else scan_from q against_ptr' against_tok_end
               against_tok_utf8_len ((consumed + 1) mod gsize_modulus)
      else false
  end.

Definition token_matches (q a : token) : bool :=
  scan_from q (tok_start a) (tok_end a) (tok_utf8_len a) 0.

(** The body of the loop over the field tokens, for one query token:
    the state is [(score, query_token_has_match)].  The length is only
    compared with [accept_min_size] once that bound is known to be
    positive, so the comparison of a [gsize] with a [gssize] is one of
    numbers. *)
Definition against_step (accept_min_size : Z) (q : token)
  (st : double * bool) (a : token) : double * bool :=
  if (accept_min_size >? 0) && (tok_utf8_len a <? accept_min_size)
  then st
  else if token_matches q a
  then (fst st
        + d_of_int ((tok_utf8_len q * tok_utf8_len q) mod gsize_modulus)
          / d_of_int (tok_utf8_len a),
        true)%D
  else st.

Fixpoint query_loop (accept_min_size : Z) (against_tokens : list token)
  (qs : list token) (score : double) : double :=
  match qs with
  | [] => score
  | q :: qs' =>
      let '(score', query_token_has_match) :=
        fold_left (against_step accept_min_size q) against_tokens
          (score, false) in
      if query_token_has_match
      then query_loop accept_min_size against_tokens qs' score'
      else d_lit 0
  end.

Definition test_strings (query against : cstr) (accept_min_size : Z)
  : double :=
  query_loop accept_min_size (UTF8_FOREACH_TOKEN_FORWARDS against)
    (UTF8_FOREACH_TOKEN_FORWARDS query) (d_lit 0).

End Scoring.

(* ------------------------------------------------------------------ *)
(** ** The regular expressions of GLib *)

Class RegexEngine := {
  GRegex : Type;
  (** [g_regex_new (pattern, G_REGEX_OPTIMIZE, G_REGEX_MATCH_DEFAULT, &err)]:
      [None] is the NULL returned when the pattern does not compile. *)
  g_regex_new : cstr -> option GRegex;
  (** [g_regex_match (regex, string, G_REGEX_MATCH_DEFAULT, NULL)]: whether
      the pattern is found somewhere in the string. *)
  g_regex_match : GRegex -> cstr -> bool;
  (** [g_regex_replace (regex, string, -1, 0, replacement,
      G_REGEX_MATCH_DEFAULT, NULL)]: every match replaced, or NULL. *)
  g_regex_replace : GRegex -> cstr -> cstr -> option cstr
}.

(* ------------------------------------------------------------------ *)
(** ** Collaborators: entry groups, bias specifications, results *)

(** The fields of a [BzEntryGroup] that the engine reads (under the group's
    lock); a NULL string is [None]. *)
Record BzEntryGroup := {
  id : option cstr;
  title : option cstr;
  developer : option cstr;
  description : option cstr;
  search_tokens : option cstr;
  searchable : bool
}.

Section Engine.
Context {U : Unicode} {DBL : Double} {RE : RegexEngine}.

(** A bias as configured ([BzSearchBias]); the two functions carry
    (slope, y-intercept) and (factor, y-intercept). *)
Record BzSearchBias := {
  bias_regex : option cstr;
  bias_convert_to : option cstr;
  bias_boost_appids : option (list cstr);
  bias_linear_boost : option (double * double);
  bias_exponential_boost : option (double * double)
}.

Definition LINEAR : Z := 0.
Definition EXPONENTIAL : Z := 1.

(** [BiasData].  The anonymous union overlays [linear_boost.slope] with
    [exponential_boost.factor] and the two [y_intercept]s; [boost] is the
    hash table used as a set of identifiers. *)
Record BiasData := {
  invalid : bool;
  regex : option GRegex;
  convert_to : option cstr;
  boost : option (list cstr);
  boost_kind : Z;
  slope_or_factor : double;
  y_intercept : double
}.

(** [bias_data_new ()], generated by [BZ_DEFINE_DATA] of bz-util.h: a
    zero-filled record.  [biases_changed] relies on it: an entry that is
    kept never writes [invalid], a placeholder writes nothing else. *)
Definition bias_data_new : BiasData := {|
  invalid := false;
  regex := None;
  convert_to := None;
  boost := None;
  boost_kind := 0;
  slope_or_factor := d_lit 0;
  y_intercept := d_lit 0
|}.

Record Score := {
  idx : nat;
  val : double
}.

(** [BzSearchResult]; [sr_score] is [None] until
    [bz_search_result_set_score] is called. *)
Record BzSearchResult := {
  sr_group : option BzEntryGroup;
  sr_original_index : nat;
  sr_score : option double
}.

Record BzFinishedSearchQuery := {
  interpreted_query : cstr;
  results : list BzSearchResult;
  n_results : nat
}.

(** What the future returned by [bz_search_engine_query] comes to:
    an error, a finished query, or no defined behaviour at all (a read
    through a NULL or dangling pointer). *)
Inductive Outcome :=
| Rejected
| Resolved (finished : BzFinishedSearchQuery)
| Undefined.

Record BzSearchEngine := {
  model : option (list BzEntryGroup);
  biases : option (list BzSearchBias);
  biases_mirror : list BiasData
}.

(* ------------------------------------------------------------------ *)
(** ** The bias table *)

(** The entry stored by the [SKIP] macro. *)
Definition SKIP : BiasData := {|
  invalid := true;
  regex := regex bias_data_new;
  convert_to := convert_to bias_data_new;
  boost := boost bias_data_new;
  boost_kind := boost_kind bias_data_new;
  slope_or_factor := slope_or_factor bias_data_new;
  y_intercept := y_intercept bias_data_new
|}.

Definition is_nil {A} (l : list A) : bool :=
  match l with
  | [] => true
  | _ :: _ => false
  end.

Definition is_null {A} (o : option A) : bool :=
  match o with
  | None => true
  | Some _ => false
  end.

(** The first test of the loop body: "Bias is incomplete!". *)
Definition bias_incomplete (bias : BzSearchBias) : bool :=
  is_null (bias_regex bias)
  || (is_null (bias_convert_to bias)
      && (is_null (bias_boost_appids bias)
          || (is_null (bias_linear_boost bias)
              && is_null (bias_exponential_boost bias)))).

(** The second test: "Search bias can only have one boost function!". *)
Definition bias_two_functions (bias : BzSearchBias) : bool :=
  negb (is_null (bias_linear_boost bias))
  && negb (is_null (bias_exponential_boost bias)).

(** The hash table filled from a non-empty identifier list. *)
Definition make_boost (boost_appids : option (list cstr))
  : option (list cstr) :=
  match boost_appids with
  | None => None
  | Some appids => if (0 <? length appids)%nat then Some appids else None
  end.

(** One round of the loop of [biases_changed]: the entry inserted for the
    specification [bias]. *)
Definition bias_entry (bias : BzSearchBias) : BiasData :=
  if bias_incomplete bias then SKIP
  else if bias_two_functions bias then SKIP
  else
    match bias_regex bias with
    | None => SKIP
    | Some regex_string =>
        match g_regex_new regex_string with
        | None => SKIP
        | Some compiled =>
            let data := {|
              invalid := invalid bias_data_new;
              regex := Some compiled;
              convert_to := bias_convert_to bias;
              boost := make_boost (bias_boost_appids bias);
              boost_kind := boost_kind bias_data_new;
              slope_or_factor := slope_or_factor bias_data_new;
              y_intercept := y_intercept bias_data_new
            |} in
            let data :=
              match bias_linear_boost bias with
              | Some (slope, y) => {|
                  invalid := invalid data;
                  regex := regex data;
                  convert_to := convert_to data;
                  boost := boost data;
                  boost_kind := LINEAR;
                  slope_or_factor := slope;
                  y_intercept := y
                |}
              | None => data
              end in
            match bias_exponential_boost bias with
            | Some (factor, y) => {|
                invalid := invalid data;
                regex := regex data;
                convert_to := convert_to data;
                boost := boost data;
                boost_kind := EXPONENTIAL;
                slope_or_factor := factor;
                y_intercept := y
              |}
            | None => data
            end
        end
    end.

(** [g_ptr_array_remove_range]; a range outside the array is refused. *)
Definition g_ptr_array_remove_range {A} (array : list A) (index len : nat)
  : list A :=
  if (index + len <=? length array)%nat
  then firstn index array ++ skipn (index + len) array
  else array.

(** [g_ptr_array_insert]; an index past the end is refused. *)
Definition g_ptr_array_insert {A} (array : list A) (index : nat) (data : A)
  : list A :=
  if (index <=? length array)%nat
  then firstn index array ++ data :: skipn index array
  else array.

(** The rounds [i, i + 1, ..., i + count - 1] of the loop of
    [biases_changed].  A missing item is a NULL object: its getters return
    NULL and the entry is skipped as incomplete. *)
Fixpoint biases_changed_loop (list_model : list BzSearchBias)
  (position i count : nat) (mirror : list BiasData) : list BiasData :=
  match count with
  | O => mirror
  | S count' =>
      let entry :=
        match nth_error list_model (position + i) with
        | None => SKIP
        | Some bias => bias_entry bias
        end in
      biases_changed_loop list_model position (S i) count'
        (g_ptr_array_insert mirror (position + i) entry)
  end.

Definition biases_changed (mirror : list BiasData)
  (position removed added : nat) (list_model : list BzSearchBias)
  : list BiasData :=
  let mirror :=
    if (0 <? removed)%nat
    then g_ptr_array_remove_range mirror position removed
    else mirror in
  biases_changed_loop list_model position 0 added mirror.

Definition bz_search_engine_set_biases (self : BzSearchEngine)
  (new_biases : option (list BzSearchBias)) : BzSearchEngine :=
  match new_biases with
  | None =>
      {| model := model self; biases := None; biases_mirror := [] |}
  | Some list_model =>
      {| model := model self;
         biases := Some list_model;
         biases_mirror :=
           biases_changed [] 0 0 (length list_model) list_model |}
  end.

Definition bz_search_engine_set_model (self : BzSearchEngine)
  (new_model : option (list BzEntryGroup)) : BzSearchEngine :=
  {| model := new_model;
     biases := biases self;
     biases_mirror := biases_mirror self |}.

(* ------------------------------------------------------------------ *)
(** ** The shard worker *)

Definition EVALUATE_STRING (query_utf8 : cstr) (s : option cstr)
  (accept_min_size : Z) : double :=
  match s with
  | Some s' => test_strings query_utf8 s' accept_min_size
  | None => d_lit 0
  end.

(** The test guarding [score = (double) G_MAXINT]. *)
Definition exact_match (query_utf8 : cstr) (group : BzEntryGroup) : bool :=
  match id group with
  | Some id' => g_strcmp0_is0 query_utf8 id'
  | None => false
  end
  || match title group with
     | Some title' => strcasecmp_is0 query_utf8 title'
     | None => false
     end.

(** The four [score += ...] statements of the [else] branch. *)
Definition weighted_score (query_utf8 : cstr) (group : BzEntryGroup)
  : double :=
  let score := d_lit 0 in
  let score :=
    (score + EVALUATE_STRING query_utf8 (title group) 2 * d_lit 2)%D in
  let score :=
    (score + EVALUATE_STRING query_utf8 (developer group) 2 * d_lit 1)%D in
  let score :=
    (score + EVALUATE_STRING query_utf8 (description group) 3 * d_lit 1)%D in
  (score + EVALUATE_STRING query_utf8 (search_tokens group) (-1)
           * d_lit (3 # 2))%D.

(** The score of a group before the biases are applied. *)
Definition initial_score (query_utf8 : cstr) (group : BzEntryGroup)
  : double :=
  if exact_match query_utf8 group then d_of_int G_MAXINT
  else weighted_score query_utf8 group.

Definition g_hash_table_contains (table : list cstr) (key : cstr) : bool :=
  existsb (cstr_eqb key) table.

(** The [switch] on [bias->boost_kind]. *)
Definition boost_switch (bias : BiasData) (score : double) : double :=
  if boost_kind bias =? LINEAR
  then (slope_or_factor bias * score + y_intercept bias)%D
  else if boost_kind bias =? EXPONENTIAL
  then (d_pow (slope_or_factor bias) score + y_intercept bias)%D
  else score.

(** The loop over [active_biases] for one group.  Looking a NULL
    identifier up in a hash table of strings hashes through NULL: that
    leaves defined behaviour, and is [None] here. *)
Fixpoint boost_loop (id_ : option cstr) (active_biases : list BiasData)
  (score : double) : option double :=
  match active_biases with
  | [] => Some score
  | bias :: rest =>
      match boost bias with
      | None => boost_loop id_ rest score
      | Some table =>
          match id_ with
          | None => None
          | Some key =>
              if g_hash_table_contains table key
              then boost_loop id_ rest (boost_switch bias score)
              else boost_loop id_ rest score
          end
      end
  end.

(** The score of a searchable group after the biases. *)
Definition final_score (query_utf8 : cstr) (active_biases : list BiasData)
  (group : BzEntryGroup) : option double :=
  boost_loop (id group) active_biases (initial_score query_utf8 group).

(** The rounds [i .. i + count - 1] of the loop of
    [query_sub_task_fiber], appending to [scores_out]. *)
Fixpoint sub_task_loop (shallow_mirror : list BzEntryGroup)
  (query_utf8 : cstr) (threshold : double) (active_biases : list BiasData)
  (work_offset i count : nat) (scores_out : list Score)
  : option (list Score) :=
  match count with
  | O => Some scores_out
  | S count' =>
      match nth_error shallow_mirror (work_offset + i) with
      | None => None
      | Some group =>
          if negb (searchable group)
          then sub_task_loop shallow_mirror query_utf8 threshold
                 active_biases work_offset (S i) count' scores_out
          else
            match final_score query_utf8 active_biases group with
            | None => None
            | Some score =>
                sub_task_loop shallow_mirror query_utf8 threshold
                  active_biases work_offset (S i) count'
                  (if (threshold <? score)%D
                   then scores_out
                        ++ [{| idx := (work_offset + i)%nat; val := score |}]
                   else scores_out)
            end
      end
  end.

Record QuerySubTaskData := {
  sub_query_utf8 : cstr;
  sub_shallow_mirror : list BzEntryGroup;
  sub_threshold : double;
  work_offset : nat;
  work_length : nat;
  sub_active_biases : list BiasData
}.

Definition query_sub_task_fiber (data : QuerySubTaskData)
  : option (list Score) :=
  sub_task_loop (sub_shallow_mirror data) (sub_query_utf8 data)
    (sub_threshold data) (sub_active_biases data)
    (work_offset data) 0 (work_length data) [].

(* ------------------------------------------------------------------ *)
(** ** Sorting the scores *)

Definition cmp_scores (a b : Score) : Z :=
  if (val b - val a <? d_lit 0)%D then -1 else 1.

(** The merge loop of a merge sort: the head of the first run is taken
    when the comparison is not positive. *)
Fixpoint merge_runs {A} (cmp : A -> A -> Z) (b1 : list A)
  : list A -> list A :=
  fix merge_with (b2 : list A) : list A :=
    match b1, b2 with
    | [], _ => b2
    | _, [] => b1
    | x :: b1', y :: b2' =>
        if cmp x y <=? 0
        then x :: merge_runs cmp b1' b2
        else y :: merge_with b2'
    end.

(** [g_array_sort] of GLib sorts with the library's own merge sort
    ([msort_with_tmp] of gqsort.c): split at [n / 2], sort both halves,
    merge.  [depth] bounds the recursion; the length of the array is
    enough. *)
Fixpoint msort_with_tmp {A} (depth : nat) (cmp : A -> A -> Z) (b : list A)
  : list A :=
  match depth with
  | O => b
  | S depth' =>
      let n := length b in
      if (n <=? 1)%nat then b
      else
        let n1 := (n / 2)%nat in
        merge_runs cmp
          (msort_with_tmp depth' cmp (firstn n1 b))
          (msort_with_tmp depth' cmp (skipn n1 b))
  end.

Definition g_array_sort {A} (array : list A) (cmp : A -> A -> Z) : list A :=
  msort_with_tmp (length array) cmp array.

(* ------------------------------------------------------------------ *)
(** ** The coordinator *)

Definition MIN (a b : nat) : nat := if (a <? b)%nat then a else b.
Definition MAX (a b : nat) : nat := if (b <? a)%nat then a else b.

(** One round of the loop over the bias table: the state is the working
    query string and the active biases collected so far. *)
Definition bias_round (st : cstr * list BiasData) (bias : BiasData)
  : cstr * list BiasData :=
  let '(query_utf8, active_biases) := st in
  if invalid bias then st
  else
    match regex bias with
    | None => st
    | Some compiled =>
        if negb (g_regex_match compiled query_utf8) then st
        else
          let query_utf8 :=
            match convert_to bias with
            | Some replacement =>
                match g_regex_replace compiled query_utf8 replacement with
                | Some tmp => tmp
                | None => query_utf8
                end
            | None => query_utf8
            end in
          (query_utf8, active_biases ++ [bias])
    end.

Definition collect_biases (query_utf8 : cstr) (table : list BiasData)
  : cstr * list BiasData :=
  fold_left bias_round table (query_utf8, []).

Definition n_sub_tasks_of (len num_processors : nat) : nat :=
  MAX 1 (MIN (len / 512) num_processors).

(** The data handed to sub task [i]. *)
Definition sub_task_data (query_utf8 : cstr)
  (shallow_mirror : list BzEntryGroup) (active_biases : list BiasData)
  (n_sub_tasks scores_per_task i : nat) : QuerySubTaskData :=
  {| sub_query_utf8 := query_utf8;
     sub_shallow_mirror := shallow_mirror;
     sub_threshold := d_lit 1;
     work_offset := (i * scores_per_task)%nat;
     work_length :=
       if (n_sub_tasks - 1 <=? i)%nat
       then (scores_per_task + length shallow_mirror mod n_sub_tasks)%nat
       else scores_per_task;
     sub_active_biases := active_biases |}.

(** The loop that gathers the values of the sub futures into [scores]. *)
Fixpoint gather (sub_futures : list (option (list Score)))
  (scores : list Score) : option (list Score) :=
  match sub_futures with
  | [] => Some scores
  | None :: _ => None
  | Some scores_out :: rest => gather rest (scores ++ scores_out)
  end.

(** The loop that wraps the sorted scores into results. *)
Fixpoint wrap_results (shallow_mirror : list BzEntryGroup)
  (scores : list Score) : list BzSearchResult :=
  match scores with
  | [] => []
  | score :: rest =>
      {| sr_group := nth_error shallow_mirror (idx score);
         sr_original_index := idx score;
         sr_score := Some (val score) |}
      :: wrap_results shallow_mirror rest
  end.

Record QueryTaskData := {
  terms : list cstr;
  snapshot : list BzEntryGroup;
  task_biases : list BiasData
}.

(** [query_task_fiber]; [num_processors] is [g_get_num_processors ()].
    The sub tasks never return an error, so the branch that forwards one
    is not taken. *)
Definition query_task_fiber (num_processors : nat) (data : QueryTaskData)
  : Outcome :=
  let shallow_mirror := snapshot data in
  let query_utf8 := g_strjoinv (utf8 " ") (terms data) in
  let n_sub_tasks := n_sub_tasks_of (length shallow_mirror) num_processors in
  let scores_per_task := (length shallow_mirror / n_sub_tasks)%nat in
  let '(query_utf8, active_biases) :=
    collect_biases query_utf8 (task_biases data) in
  let sub_futures :=
    map (fun i =>
           query_sub_task_fiber
             (sub_task_data query_utf8 shallow_mirror active_biases
                n_sub_tasks scores_per_task i))
        (seq 0 n_sub_tasks) in
  match gather sub_futures [] with
  | None => Undefined
  | Some scores =>
      let scores := g_array_sort scores cmp_scores in
      let results := wrap_results shallow_mirror scores in
      Resolved {| interpreted_query := query_utf8;
                  results := results;
                  n_results := length results |}
  end.

(* ------------------------------------------------------------------ *)
(** ** The public operation *)

(** The loop of the first branch: one result per group, carrying the group
    and its index and no score. *)
Fixpoint unranked_results (groups : list BzEntryGroup) (i : nat)
  : list BzSearchResult :=
  match groups with
  | [] => []
  | group :: rest =>
      {| sr_group := Some group; sr_original_index := i; sr_score := None |}
      :: unranked_results rest (S i)
  end.

Definition groups_of (list_model : option (list BzEntryGroup))
  : list BzEntryGroup :=
  match list_model with
  | Some groups => groups
  | None => []
  end.

(** [bz_search_engine_query (self, terms)].  [terms] is the NULL-terminated
    array; an empty list stands for a NULL array or a NULL first element,
    which [dex_return_error_if_fail] turns into an error. *)
Definition bz_search_engine_query (num_processors : nat)
  (self : BzSearchEngine) (terms_ : list cstr) : Outcome :=
  match terms_ with
  | [] => Rejected
  | first :: _ =>
      let n_groups := length (groups_of (model self)) in
      if is_null (model self) || (n_groups =? 0)%nat
         || (g_utf8_get_char first =? 0)
      then
        let results := unranked_results (groups_of (model self)) 0 in
        Resolved {| interpreted_query := [];
                    results := results;
                    n_results := n_groups |}
      else
        query_task_fiber num_processors
          {| terms := terms_;
             snapshot := groups_of (model self);
             task_biases := biases_mirror self |}
  end.

End Engine.

(* ------------------------------------------------------------------ *)
(** ** Instances used to run the program on concrete inputs *)

(** Exact rational arithmetic.  [pow] has no rational value in general;
    the instance raises to the integral part of the exponent, and no
    example below goes through it. *)
Definition Qltb (a b : Q) : bool :=
  match Qcompare a b with
  | Lt => true
  | _ => false
  end.

#[export] Instance rational : Double := {|
  double := Q;
  d_lit := fun q => q;
  d_of_int := inject_Z;
  d_add := Qplus;
  d_sub := Qminus;
  d_mul := Qmult;
  d_div := Qdiv;
  d_pow := fun b e => Qpower b (Qfloor e);
  d_lt := Qltb
|}.

(** The case table restricted to ASCII. *)
#[export] Instance ascii_case : Unicode := {|
  g_unichar_tolower := c_tolower
|}.

(** A small regular-expression engine: a pattern made of letters, digits
    and spaces is the literal it spells, searched for anywhere in the
    subject as GLib does; every other pattern is refused (GLib refuses some
    of them, an unbalanced parenthesis for one).  The examples stay inside
    this fragment. *)
Definition literal_char (c : gunichar) : bool :=
  in_range 48 57 c || in_range 65 90 c || in_range 97 122 c || (c =? 32).

Fixpoint prefixb (lit s : cstr) : bool :=
  match lit, s with
  | [], _ => true
  | x :: lit', y :: s' => (x =? y) && prefixb lit' s'
  | _ :: _, [] => false
  end.

Fixpoint literal_search (lit s : cstr) : bool :=
  prefixb lit s
  || match s with
     | [] => false
     | _ :: s' => literal_search lit s'
     end.

Fixpoint literal_replace (fuel : nat) (lit replacement s : cstr) : cstr :=
  match fuel with
  | O => s
  | S fuel' =>
      match s with
      | [] => []
      | c :: s' =>
          if prefixb lit s
          then replacement
               ++ literal_replace fuel' lit replacement (skipn (length lit) s)
          else c :: literal_replace fuel' lit replacement s'
      end
  end.

#[export] Instance literal_engine : RegexEngine := {|
  GRegex := cstr;
  g_regex_new := fun pattern =>
    if forallb literal_char pattern && negb (is_nil pattern)
    then Some pattern else None;
  g_regex_match := literal_search;
  g_regex_replace := fun lit s replacement =>
    Some (literal_replace (length s) lit replacement s)
|}.

(** For a literal, matching the whole subject is being equal to it. *)
Definition literal_matches_whole (lit s : cstr) : bool := cstr_eqb lit s.

(* ------------------------------------------------------------------ *)
(** ** The properties, in the words of the specification *)

Section Properties.
Context {U : Unicode} {DBL : Double} {RE : RegexEngine}.

(** The tokens of a string: its maximal runs of characters that are not
    separators; [cur] is the run being read. *)
Fixpoint split_tokens (is_sep : gunichar -> bool) (s cur : cstr)
  : list cstr :=
  match s with
  | [] => if is_nil cur then [] else [cur]
  | c :: s' =>
      if is_sep c
      then if is_nil cur then split_tokens is_sep s' []
           else cur :: split_tokens is_sep s' []
      else split_tokens is_sep s' (cur ++ [c])
  end.

Definition is_space_separator (c : gunichar) : bool :=
  GUnicodeType_eqb (g_unichar_type c) G_UNICODE_SPACE_SEPARATOR.

Definition not_separator (c : gunichar) : bool :=
  negb (is_space_separator c).

Fixpoint take_while (f : gunichar -> bool) (s : cstr) : cstr :=
  match s with
  | [] => []
  | c :: s' => if f c then c :: take_while f s' else []
  end.

Fixpoint drop_while (f : gunichar -> bool) (s : cstr) : cstr :=
  match s with
  | [] => []
  | c :: s' => if f c then drop_while f s' else s
  end.

(** The token that the macro makes of the run [w] followed by [rest]. *)
Definition proper_token (w rest : cstr) : token :=
  {| tok_start := w ++ rest;
     tok_end := rest;
     tok_utf8_len := Z.of_nat (length w) |}.

(** The runs of a string, each with what follows it. *)
Fixpoint segments (fuel : nat) (s : cstr) : list (cstr * cstr) :=
  match fuel with
  | O => []
  | S fuel' =>
      match drop_while is_space_separator s with
      | [] => []
      | c :: s1 =>
          let w := take_while not_separator (c :: s1) in
          let rest := drop_while not_separator (c :: s1) in
          (w, rest) :: segments fuel' rest
      end
  end.

(** Equality of two runs of characters up to case, code point by code
    point. *)
Fixpoint ci_eqb (a b : cstr) : bool :=
  match a, b with
  | [], [] => true
  | x :: a', y :: b' =>
      (g_unichar_tolower x =? g_unichar_tolower y) && ci_eqb a' b'
  | _, _ => false
  end.

(** [q] occurs in [a], up to case, at some offset. *)
Definition occurs_ci (q a : cstr) : bool :=
  existsb (fun k => ci_eqb q (firstn (length q) (skipn k a)))
    (seq 0 (S (length a))).

Definition long_enough (accept_min_size : Z) (a : cstr) : bool :=
  negb ((accept_min_size >? 0) && (Z.of_nat (length a) <? accept_min_size)).

(** The field tokens that a query token matches. *)
Definition matching_tokens (accept_min_size : Z) (q : cstr)
  (field_tokens : list cstr) : list cstr :=
  filter (fun a => long_enough accept_min_size a && occurs_ci q a)
    field_tokens.

Definition token_credit (q a : cstr) : double :=
  (d_of_int (Z.of_nat (length q) * Z.of_nat (length q))
   / d_of_int (Z.of_nat (length a)))%D.

(** The score as the specification words it, for a given notion of
    separator: the credits of all matching pairs added up in scanning
    order, or 0 when some query token matches nothing. *)
Definition score_spec (is_sep : gunichar -> bool) (query field : cstr)
  (accept_min_size : Z) : double :=
  let query_tokens := split_tokens is_sep query [] in
  let field_tokens := split_tokens is_sep field [] in
  if forallb
       (fun q =>
          negb (is_nil (matching_tokens accept_min_size q field_tokens)))
       query_tokens
  then
    fold_left d_add
      (flat_map
         (fun q =>
            map (token_credit q)
              (matching_tokens accept_min_size q field_tokens))
         query_tokens)
      (d_lit 0)
  else d_lit 0.

(** A string that does not end in a space separator. *)
Definition no_trailing_separator (s : cstr) : Prop :=
  forall s' c, s = s' ++ [c] -> is_space_separator c = false.

(** A bias is activated by a working query string when it is not a
    placeholder and its pattern is found in the string. *)
Definition activated (bias : BiasData) (query_utf8 : cstr) : bool :=
  negb (invalid bias)
  && match regex bias with
     | Some compiled => g_regex_match compiled query_utf8
     | None => false
     end.

(** The working query string after an activated bias. *)
Definition rewritten (bias : BiasData) (query_utf8 : cstr) : cstr :=
  match regex bias, convert_to bias with
  | Some compiled, Some replacement =>
      match g_regex_replace compiled query_utf8 replacement with
      | Some tmp => tmp
      | None => query_utf8
      end
  | _, _ => query_utf8
  end.

(** The coordinator's pass over the bias table, as a relation: from the
    working query string [q], reading [table] in order leaves the string
    [q'] and collects [active]. *)
Inductive examined : cstr -> list BiasData -> cstr -> list BiasData -> Prop :=
| examined_end q :
    examined q [] q []
| examined_pass q bias table q' active :
    activated bias q = false ->
    examined q table q' active ->
    examined q (bias :: table) q' active
| examined_collect q bias table q' active :
    activated bias q = true ->
    examined (rewritten bias q) table q' active ->
    examined q (bias :: table) q' (bias :: active).

(** The identifier is in the boost set of the bias. *)
Definition boosts (bias : BiasData) (key : cstr) : bool :=
  match boost bias with
  | Some table => g_hash_table_contains table key
  | None => false
  end.

(** The entry that [biases_changed] stores for position [k] of the bias
    list. *)
Definition entry_at (list_model : list BzSearchBias) (k : nat) : BiasData :=
  match nth_error list_model k with
  | None => SKIP
  | Some bias => bias_entry bias
  end.

(** A specification that [biases_changed] refuses. *)
Definition usable_boost (bias : BzSearchBias) : bool :=
  negb (is_null (bias_boost_appids bias))
  && (negb (is_null (bias_linear_boost bias))
      || negb (is_null (bias_exponential_boost bias))).

Definition compiles (bias : BzSearchBias) : bool :=
  match bias_regex bias with
  | Some regex_string => negb (is_null (g_regex_new regex_string))
  | None => false
  end.

Definition refused (bias : BzSearchBias) : bool :=
  is_null (bias_regex bias)
  || negb (compiles bias)
  || (is_null (bias_convert_to bias) && negb (usable_boost bias))
  || (negb (is_null (bias_linear_boost bias))
      && negb (is_null (bias_exponential_boost bias))).

(** The first branch of [bz_search_engine_query] is taken. *)
Definition trivial_path (self : BzSearchEngine) (first : cstr) : bool :=
  is_null (model self)
  || is_nil (groups_of (model self))
  || is_nil first.

(** The result set of the first branch. *)
Definition every_candidate (self : BzSearchEngine) : BzFinishedSearchQuery :=
  {| interpreted_query := [];
     results := unranked_results (groups_of (model self)) 0;
     n_results := length (groups_of (model self)) |}.

(** Whether candidate [i] of the snapshot is emitted by its shard. *)
Definition passes (query_utf8 : cstr) (active_biases : list BiasData)
  (shallow_mirror : list BzEntryGroup) (i : nat) : bool :=
  match nth_error shallow_mirror i with
  | Some group =>
      searchable group
      && match final_score query_utf8 active_biases group with
         | Some score => (d_lit 1 <? score)%D
         | None => false
         end
  | None => false
  end.

(** What a shard appends for candidate [j] when nothing undefined
    happens. *)
Definition emit (query_utf8 : cstr) (active_biases : list BiasData)
  (shallow_mirror : list BzEntryGroup) (j : nat) : list Score :=
  match nth_error shallow_mirror j with
  | Some group =>
      if searchable group
      then match final_score query_utf8 active_biases group with
           | Some score =>
               if (d_lit 1 <? score)%D
               then [{| idx := j; val := score |}]
               else []
           | None => []
           end
      else []
  | None => []
  end.

(** No searchable candidate is looked up in a boost set without having an
    identifier. *)
Definition scores_defined (query_utf8 : cstr) (active_biases : list BiasData)
  (shallow_mirror : list BzEntryGroup) : Prop :=
  forall group,
    In group shallow_mirror -> searchable group = true ->
    final_score query_utf8 active_biases group <> None.

(** A string of C holds no NUL. *)
Definition c_string (s : cstr) : Prop := ~ In 0 s.

(** A result carries candidate [sr_original_index] of the snapshot and
    its score after the biases. *)
Definition result_of_candidate (query_utf8 : cstr)
  (active_biases : list BiasData) (shallow_mirror : list BzEntryGroup)
  (r : BzSearchResult) : Prop :=
  exists group,
    nth_error shallow_mirror (sr_original_index r) = Some group
    /\ sr_group r = Some group
    /\ sr_score r = final_score query_utf8 active_biases group.

(** [r1] may stand before [r2] in a descending ranking. *)
Definition not_below (r1 r2 : BzSearchResult) : Prop :=
  match sr_score r1, sr_score r2 with
  | Some s1, Some s2 => (s1 <? s2)%D = false
  | _, _ => False
  end.

(** What the ranking needs of [<] on [double]: the sign of a difference
    is the comparison of its operands, and [<] is a strict weak order on
    the values above the threshold (among which there is no NaN). *)
Record double_order : Prop := {
  d_sub_lt : forall a b : double, (a - b <? d_lit 0)%D = (a <? b)%D;
  d_lt_asym : forall a b : double, (a <? b)%D = true -> (b <? a)%D = false;
  d_lt_negtrans : forall a b c : double,
      (d_lit 1 <? a)%D = true -> (d_lit 1 <? b)%D = true ->
      (d_lit 1 <? c)%D = true ->
      (a <? b)%D = false -> (b <? c)%D = false -> (a <? c)%D = false
}.

(** What an empty query needs of the arithmetic: the values that are
    zero (or not a number) are closed under the operations of the score
    and stay below the threshold. *)
Record double_null (null : double -> Prop) : Prop := {
  null_zero : null (d_lit 0);
  null_div : forall x : double, null (d_of_int 0 / x)%D;
  null_add : forall x y : double, null x -> null y -> null (x + y)%D;
  null_mul : forall x y : double, null x -> null (x * y)%D;
  null_below : forall x : double, null x -> (d_lit 1 <? x)%D = false
}.

End Properties.

(* ------------------------------------------------------------------ *)
(** ** Sample data *)

Module Sample.

Definition app (app_id app_title tokens : string) : BzEntryGroup :=
  {| id := Some (utf8 app_id);
     title := Some (utf8 app_title);
     developer := None;
     description := None;
     search_tokens := Some (utf8 tokens);
     searchable := true |}.

Definition firefox : BzEntryGroup :=
  app "org.mozilla.firefox" "Firefox" "web browser".

Definition epiphany : BzEntryGroup :=
  app "org.gnome.Epiphany" "Web" "web browser gnome".

Definition nautilus : BzEntryGroup :=
  app "org.gnome.Nautilus" "Files" "file manager".

Definition catalog : list BzEntryGroup := [firefox; epiphany; nautilus].

(** "foo", a tab, "bar". *)
Definition tabbed_field : cstr := utf8 "foo" ++ [9] ++ utf8 "bar".

(** A boost for Firefox on every query that contains "fire":
    score := 2 * score + 1. *)
Definition fire_bias : BzSearchBias :=
  {| bias_regex := Some (utf8 "fire");
     bias_convert_to := None;
     bias_boost_appids := Some [utf8 "org.mozilla.firefox"];
     bias_linear_boost := Some (2 # 1, 1 # 1)%Q;
     bias_exponential_boost := None |}.

(** A rewrite of "browser" into "web". *)
Definition browser_bias : BzSearchBias :=
  {| bias_regex := Some (utf8 "browser");
     bias_convert_to := Some (utf8 "web");
     bias_boost_appids := None;
     bias_linear_boost := None;
     bias_exponential_boost := None |}.

(** Refused: the pattern does not compile. *)
Definition broken_bias : BzSearchBias :=
  {| bias_regex := Some (utf8 "(");
     bias_convert_to := Some (utf8 "web");
     bias_boost_appids := None;
     bias_linear_boost := None;
     bias_exponential_boost := None |}.

(** Refused: two boost functions. *)
Definition double_bias : BzSearchBias :=
  {| bias_regex := Some (utf8 "fire");
     bias_convert_to := None;
     bias_boost_appids := Some [utf8 "org.mozilla.firefox"];
     bias_linear_boost := Some (2 # 1, 1 # 1)%Q;
     bias_exponential_boost := Some (2 # 1, 0 # 1)%Q |}.

(** Firefox gets the score 5 on every query that contains a space. *)
Definition space_bias : BzSearchBias :=
  {| bias_regex := Some (utf8 " ");
     bias_convert_to := None;
     bias_boost_appids := Some [utf8 "org.mozilla.firefox"];
     bias_linear_boost := Some (0 # 1, 5 # 1)%Q;
     bias_exponential_boost := None |}.

(** Epiphany is promoted on every query that contains "firefox". *)
Definition promote_bias : BzSearchBias :=
  {| bias_regex := Some (utf8 "firefox");
     bias_convert_to := None;
     bias_boost_appids := Some [utf8 "org.gnome.Epiphany"];
     bias_linear_boost := Some (0 # 1, 10000000000 # 1)%Q;
     bias_exponential_boost := None |}.


Definition engine (specs : list BzSearchBias) : BzSearchEngine :=
  bz_search_engine_set_biases
    {| model := Some catalog; biases := None; biases_mirror := [] |}
    (Some specs).

End Sample.

(* ------------------------------------------------------------------ *)
(** ** Further properties of the engine *)

Section EngineProperties.
Context {U : Unicode} {DBL : Double} {RE : RegexEngine}.

(** One pass over the candidates [indices] of the snapshot, as the shards
    make it between them: the scores that are appended, or [None] when a
    candidate is reached whose score is not defined. *)
Fixpoint scan_candidates (query_utf8 : cstr) (active_biases : list BiasData)
  (shallow_mirror : list BzEntryGroup) (indices : list nat)
  : option (list Score) :=
  match indices with
  | [] => Some []
  | j :: rest =>
      match nth_error shallow_mirror j with
      | None => None
      | Some group =>
          if searchable group
          then
            match final_score query_utf8 active_biases group with
            | None => None
            | Some score =>
                option_map
                  (app (if (d_lit 1 <? score)%D
                        then [{| idx := j; val := score |}]
                        else []))
                  (scan_candidates query_utf8 active_biases shallow_mirror
                     rest)
            end
          else scan_candidates query_utf8 active_biases shallow_mirror rest
      end
  end.

(** The finished query that the coordinator makes of the gathered
    scores. *)
Definition finish (query_utf8 : cstr) (shallow_mirror : list BzEntryGroup)
  (scores : list Score) : BzFinishedSearchQuery :=
  {| interpreted_query := query_utf8;
     results := wrap_results shallow_mirror (g_array_sort scores cmp_scores);
     n_results :=
       length (wrap_results shallow_mirror (g_array_sort scores cmp_scores))
  |}.

(** [r1] may stand before [r2] in the ranking: its score is greater, or
    neither score is smaller and it comes later in the snapshot. *)
Definition ranks_before (r1 r2 : BzSearchResult) : Prop :=
  match sr_score r1, sr_score r2 with
  | Some s1, Some s2 =>
      (s2 <? s1)%D = true
      \/ ((s1 <? s2)%D = false
          /\ (sr_original_index r2 < sr_original_index r1)%nat)
  | _, _ => False
  end.

(** The same on scores. *)
Definition score_before (a b : Score) : Prop :=
  (val b <? val a)%D = true
  \/ ((val a <? val b)%D = false /\ (idx b < idx a)%nat).

End EngineProperties.

(* ------------------------------------------------------------------ *)
(** ** Further properties of the scoring function *)

Section ScoringProperties.
Context {U : Unicode} {DBL : Double}.

(** The token of a recoded string: the pointers move to the recoded
    string, the count stays. *)
Definition recode_token (h : gunichar -> gunichar) (t : token) : token :=
  {| tok_start := map h (tok_start t);
     tok_end := map h (tok_end t);
     tok_utf8_len := tok_utf8_len t |}.

(** A recoding of the characters that keeps what the scoring function
    looks at: whether a character is a space separator, and its
    lower-case form. *)
Definition keeps_class_and_case (h : gunichar -> gunichar) : Prop :=
  forall c,
    is_space_separator (h c) = is_space_separator c
    /\ g_unichar_tolower (h c) = g_unichar_tolower c.

(** Lowering never identifies a space separator with another
    character. *)
Definition case_keeps_separators : Prop :=
  forall a b,
    is_space_separator a = true -> is_space_separator b = false ->
    g_unichar_tolower b <> g_unichar_tolower a.

End ScoringProperties.

(* ------------------------------------------------------------------ *)
(** * Entry groups (src/bz-entry-group.c)

    The groups that the engine searches are built from entries by
    [bz_entry_group_add] and kept up to date by the handlers
    [installed_changed] and [holding_changed]. *)

(** The kinds of entries that the application tells apart. *)
Inductive BzEntryKind :=
| BZ_ENTRY_KIND_APPLICATION
| BZ_ENTRY_KIND_RUNTIME
| BZ_ENTRY_KIND_ADDON.

(** What the getters of [BzEntry] return for an entry at the time of a
    call; a NULL string is [None]. *)
Record BzEntry := {
  bz_entry_is_of_kinds : BzEntryKind -> bool;
  bz_entry_get_id : option cstr;
  bz_entry_get_unique_id : option cstr;
  bz_entry_get_installed_version : option cstr;
  bz_entry_get_eol : option cstr;
  bz_entry_get_title : option cstr;
  bz_entry_get_developer : option cstr;
  bz_entry_get_description : option cstr;
  bz_entry_get_search_tokens : option cstr;
  bz_entry_get_is_foss : bool;
  bz_entry_get_is_flathub : bool;
  bz_entry_is_verified : bool;
  bz_entry_is_searchable : bool;
  bz_entry_calc_usefulness : Z;
  bz_entry_is_installed : bool;
  bz_entry_is_holding : bool;
  (** [BZ_IS_FLATPAK_ENTRY (entry)
      && bz_flatpak_entry_is_installed_ref (entry)] *)
  bz_flatpak_entry_is_installed_ref : bool
}.

(** [struct _BzEntryGroup].  The fields [id], [title], [developer],
    [description], [search_tokens] and [searchable], which the search
    engine reads, are the record [BzEntryGroup]; the two string lists are
    the lists of their strings; the counters are [int]s.  The icons, the
    accent colours, the repository string, the sizes, the add-on count,
    the donation URL, the categories, the two [updatable] counters and the
    futures are left out: nothing below reads them. *)
Record _BzEntryGroup := {
  engine_fields : BzEntryGroup;
  unique_ids : list cstr;
  installed_versions : list cstr;
  is_floss : bool;
  is_flathub : bool;
  is_verified : bool;
  eol : option cstr;
  max_usefulness : Z;
  installable : Z;
  removable : Z;
  installable_available : Z;
  removable_available : Z;
  read_only : bool
}.

(** [gtk_string_list_find]: the first position of the string, [None] for
    [G_MAXUINT]. *)
Fixpoint gtk_string_list_find (self : list cstr) (s : cstr) : option nat :=
  match self with
  | [] => None
  | x :: rest =>
      if cstr_eqb x s then Some 0%nat
      else option_map S (gtk_string_list_find rest s)
  end.

(** [gtk_string_list_splice]; a range outside the list is refused. *)
Definition gtk_string_list_splice (self : list cstr)
  (position n_removals : nat) (additions : list cstr) : list cstr :=
  if (position + n_removals <=? length self)%nat
  then firstn position self ++ additions
       ++ skipn (position + n_removals) self
  else self.

(** [gtk_string_list_remove] is a splice that removes one string. *)
Definition gtk_string_list_remove (self : list cstr) (position : nat)
  : list cstr :=
  gtk_string_list_splice self position 1 [].

Definition gtk_string_list_append (self : list cstr) (s : cstr) : list cstr :=
  self ++ [s].

(** [g_strcmp0 (a, b) == 0], NULL included. *)
Definition g_strcmp0_null (a b : option cstr) : bool :=
  match a, b with
  | None, None => true
  | Some a', Some b' => g_strcmp0_is0 a' b'
  | _, _ => false
  end.

(** The instance that [g_object_new] hands out, zero-filled, after
    [bz_entry_group_init]. *)
Definition bz_entry_group_init : _BzEntryGroup := {|
  engine_fields := {| id := None;
                      title := None;
                      developer := None;
                      description := None;
                      search_tokens := None;
                      searchable := false |};
  unique_ids := [];
  installed_versions := [];
  is_floss := false;
  is_flathub := false;
  is_verified := false;
  eol := None;
  max_usefulness := -1;
  installable := 0;
  removable := 0;
  installable_available := 0;
  removable_available := 0;
  read_only := false
|}.

(** [if (x != NULL) group->x = g_strdup (x)], and the same after
    [g_clear_pointer]. *)
Definition replace_string (new old : option cstr) : option cstr :=
  if is_null new then old else new.

(** [if (x != NULL && self->x == NULL) self->x = g_strdup (x)]. *)
Definition fill_string (new old : option cstr) : option cstr :=
  if negb (is_null new) && is_null old then new else old.

Definition bz_entry_group_new_for_single_entry (entry : BzEntry)
  : _BzEntryGroup :=
  let group := bz_entry_group_init in
  let fields := engine_fields group in
  {| engine_fields :=
       {| id := replace_string (bz_entry_get_id entry) (id fields);
          title := replace_string (bz_entry_get_title entry) (title fields);
          developer :=
            replace_string (bz_entry_get_developer entry) (developer fields);
          description :=
            replace_string (bz_entry_get_description entry)
              (description fields);
          search_tokens :=
            replace_string (bz_entry_get_search_tokens entry)
              (search_tokens fields);
          searchable := searchable fields |};
     unique_ids :=
       match bz_entry_get_unique_id entry with
       | Some unique_id =>
           gtk_string_list_append (unique_ids group) unique_id
       | None => unique_ids group
       end;
     installed_versions := installed_versions group;
     is_floss := bz_entry_get_is_foss entry;
     is_flathub := bz_entry_get_is_flathub entry;
     is_verified := bz_entry_is_verified entry;
     eol := replace_string (bz_entry_get_eol entry) (eol group);
     max_usefulness := max_usefulness group;
     installable := installable group;
     removable := removable group;
     installable_available := installable_available group;
     removable_available := removable_available group;
     read_only := read_only group |}.

Definition bz_entry_group_get_installable (self : _BzEntryGroup) : Z :=
  if read_only self then 0 else installable self.

Definition bz_entry_group_get_removable (self : _BzEntryGroup) : Z :=
  if read_only self then 0 else removable self.

(** [version != NULL ? version : ""]. *)
Definition or_empty (version : option cstr) : cstr :=
  match version with
  | Some version' => version'
  | None => []
  end.

(** [bz_entry_group_add (self, entry, runtime, ignore_eol)];
    [application_id] is what [g_application_get_application_id] returns
    for the default application.  An entry without a unique id is handed
    to the string list functions as NULL, which they are not specified
    for: [None]. *)
Definition bz_entry_group_add (application_id : option cstr)
  (self : _BzEntryGroup) (entry : BzEntry) (runtime : option BzEntry)
  (ignore_eol : bool) : option _BzEntryGroup :=
  match bz_entry_get_unique_id entry with
  | None => None
  | Some unique_id =>
      let fields := engine_fields self in
      let id_ :=
        if is_null (id fields) then bz_entry_get_id entry else id fields in
      let read_only_ :=
        if is_null (id fields) then g_strcmp0_null id_ application_id
        else read_only self in
      let installed_version :=
        or_empty (bz_entry_get_installed_version entry) in
      let eol_ :=
        if ignore_eol then eol self
        else
          let found :=
            match bz_entry_get_eol entry, runtime with
            | None, Some runtime' => bz_entry_get_eol runtime'
            | found, _ => found
            end in
          replace_string found (eol self) in
      let usefulness := bz_entry_calc_usefulness entry in
      let existing := gtk_string_list_find (unique_ids self) unique_id in
      let better := usefulness >=? max_usefulness self in
      let merge := if better then replace_string else fill_string in
      let place (strings : list cstr) (s : cstr) :=
        if better
        then
          gtk_string_list_splice
            match existing with
            | Some position => gtk_string_list_remove strings position
            | None => strings
            end 0 0 [s]
        else
          match existing with
          | Some _ => strings
          | None => gtk_string_list_append strings s
          end in
      let fresh := is_null existing in
      let installed := bz_entry_is_installed entry in
      let available := negb (bz_entry_is_holding entry) in
      let ref := bz_flatpak_entry_is_installed_ref entry in
      Some
        {| engine_fields :=
             {| id := id_;
                title := merge (bz_entry_get_title entry) (title fields);
                developer :=
                  merge (bz_entry_get_developer entry) (developer fields);
                description :=
                  merge (bz_entry_get_description entry)
                    (description fields);
                search_tokens :=
                  merge (bz_entry_get_search_tokens entry)
                    (search_tokens fields);
                searchable :=
                  if bz_entry_is_searchable entry
                     && negb (searchable fields)
                  then true
                  else searchable fields |};
           unique_ids := place (unique_ids self) unique_id;
           installed_versions :=
             place (installed_versions self) installed_version;
           is_floss :=
             if better then bz_entry_get_is_foss entry else is_floss self;
           is_flathub :=
             if better then bz_entry_get_is_flathub entry
             else is_flathub self;
           is_verified :=
             if better then bz_entry_is_verified entry else is_verified self;
           eol := eol_;
           max_usefulness :=
             if better then usefulness else max_usefulness self;
           installable :=
             if fresh && negb installed && negb ref
             then installable self + 1
             else installable self;
           removable :=
             if fresh && installed then removable self + 1
             else removable self;
           installable_available :=
             if fresh && negb installed && negb ref && available
             then installable_available self + 1
             else installable_available self;
           removable_available :=
             if fresh && installed && available
             then removable_available self + 1
             else removable_available self;
           read_only := read_only_ |}
  end.

(** The handler of [notify::installed]; [entry] is the entry after the
    change. *)
Definition installed_changed (self : _BzEntryGroup) (entry : BzEntry)
  : option _BzEntryGroup :=
  match bz_entry_get_unique_id entry with
  | None => None
  | Some unique_id =>
      let version := or_empty (bz_entry_get_installed_version entry) in
      let installed := bz_entry_is_installed entry in
      let available := negb (bz_entry_is_holding entry) in
      let ref := bz_flatpak_entry_is_installed_ref entry in
      Some
        {| engine_fields := engine_fields self;
           unique_ids := unique_ids self;
           installed_versions :=
             match gtk_string_list_find (unique_ids self) unique_id with
             | Some index =>
                 gtk_string_list_splice (installed_versions self) index 1
                   [version]
             | None => installed_versions self
             end;
           is_floss := is_floss self;
           is_flathub := is_flathub self;
           is_verified := is_verified self;
           eol := eol self;
           max_usefulness := max_usefulness self;
           installable :=
             if installed then installable self - 1
             else if ref then installable self
             else installable self + 1;
           removable :=
             if installed then removable self + 1 else removable self - 1;
           installable_available :=
             if available
             then if installed then installable_available self - 1
                  else if ref then installable_available self
                  else installable_available self + 1
             else installable_available self;
           removable_available :=
             if available
             then if installed then removable_available self + 1
                  else removable_available self - 1
             else removable_available self;
           read_only := read_only self |}
  end.

(** The handler of [notify::holding]. *)
Definition holding_changed (self : _BzEntryGroup) (entry : BzEntry)
  : _BzEntryGroup :=
  let installed := bz_entry_is_installed entry in
  let step := if bz_entry_is_holding entry then -1 else 1 in
  {| engine_fields := engine_fields self;
     unique_ids := unique_ids self;
     installed_versions := installed_versions self;
     is_floss := is_floss self;
     is_flathub := is_flathub self;
     is_verified := is_verified self;
     eol := eol self;
     max_usefulness := max_usefulness self;
     installable := installable self;
     removable := removable self;
     installable_available :=
       if installed then installable_available self
       else installable_available self + step;
     removable_available :=
       if installed then removable_available self + step
       else removable_available self;
     read_only := read_only self |}.

(** The string lists of a group run in parallel and hold every unique id
    once; the counters count entries of the group. *)
Record group_well_formed (self : _BzEntryGroup) : Prop := {
  lists_parallel :
    length (unique_ids self) = length (installed_versions self);
  ids_unique : NoDup (unique_ids self);
  available_installable :
    0 <= installable_available self <= installable self;
  available_removable :
    0 <= removable_available self <= removable self;
  counted_once :
    installable self + removable self
    <= Z.of_nat (length (unique_ids self))
}.

(** The four counters of a group. *)
Definition counters (self : _BzEntryGroup) : Z * Z * Z * Z :=
  (installable self, removable self,
   installable_available self, removable_available self).

(* ------------------------------------------------------------------ *)
(** * The group filter of the application (src/bz-application.c) *)

Section Application.
Context {RE : RegexEngine}.

(** The settings of [BzStateInfo] that the filter reads. *)
Record BzStateInfo := {
  bz_state_info_get_hide_eol : bool;
  bz_state_info_get_show_only_foss : bool;
  bz_state_info_get_show_only_flathub : bool;
  bz_state_info_get_show_only_verified : bool;
  bz_state_info_get_disable_blocklists : bool
}.

(** [BlocklistRegexData]. *)
Record BlocklistRegexData := {
  priority : Z;
  block : option GRegex;
  allow : option GRegex
}.

(** The fields of [BzApplication] that the filter reads; a set of blocked
    identifiers is the list of its members. *)
Record BzApplication := {
  state : BzStateInfo;
  blocklist_regexes : list (list BlocklistRegexData);
  txt_blocked_id_sets : list (list cstr)
}.

(** The loop over [txt_blocked_id_sets]: whether it returns FALSE.
    Looking a NULL identifier up in a set of strings hashes through
    NULL: [None]. *)
Fixpoint txt_blocked (sets : list (list cstr)) (id_ : option cstr)
  : option bool :=
  match sets with
  | [] => Some false
  | set :: rest =>
      match id_ with
      | None => None
      | Some key =>
          if g_hash_table_contains set key then Some true
          else txt_blocked rest id_
      end
  end.

(** [g_regex_match (regex, id, G_REGEX_MATCH_DEFAULT, NULL)]; GLib
    returns FALSE for a NULL string. *)
Definition g_regex_match_id (compiled : GRegex) (id_ : option cstr) : bool :=
  match id_ with
  | Some key => g_regex_match compiled key
  | None => false
  end.

(** The body of the inner loop over the regular expressions: the state is
    [(allowed_priority, blocked_priority)]. *)
Definition blocklist_step (id_ : option cstr) (st : Z * Z)
  (data : BlocklistRegexData) : Z * Z :=
  let '(allowed_priority, blocked_priority) := st in
  let allowed_priority :=
    match allow data with
    | Some compiled =>
        if (priority data <? allowed_priority)
           && g_regex_match_id compiled id_
        then priority data
        else allowed_priority
    | None => allowed_priority
    end in
  let blocked_priority :=
    match block data with
    | Some compiled =>
        if (priority data <? blocked_priority)
           && g_regex_match_id compiled id_
        then priority data
        else blocked_priority
    | None => blocked_priority
    end in
  (allowed_priority, blocked_priority).

Definition validate_group_for_ui (self : BzApplication)
  (group : _BzEntryGroup) : option bool :=
  if bz_state_info_get_hide_eol (state self) && negb (is_null (eol group))
  then Some false
  else if bz_state_info_get_show_only_foss (state self)
          && negb (is_floss group)
  then Some false
  else if bz_state_info_get_show_only_flathub (state self)
          && negb (is_flathub group)
  then Some false
  else if bz_state_info_get_show_only_verified (state self)
          && negb (is_verified group)
  then Some false
  else if bz_state_info_get_disable_blocklists (state self)
  then Some true
  else
    let id_ := id (engine_fields group) in
    match txt_blocked (txt_blocked_id_sets self) id_ with
    | None => None
    | Some true => Some false
    | Some false =>
        let '(allowed_priority, blocked_priority) :=
          fold_left
            (fun st regex_datas =>
               fold_left (blocklist_step id_) regex_datas st)
            (blocklist_regexes self) (G_MAXINT, G_MAXINT) in
        Some (allowed_priority <=? blocked_priority)
    end.

Definition filter_entry_groups (group : _BzEntryGroup)
  (self : BzApplication) : option bool :=
  validate_group_for_ui self group.

(** The items of a [GtkFilterListModel] right after its filter has been
    run on every item of the list, which happens when the model is made
    and after a change [GTK_FILTER_CHANGE_DIFFERENT]: the items for which
    the filter function returns TRUE, in the order of the list.  Between
    two such runs the model keeps the verdicts it has, whatever becomes
    of the items; see [gtk_filter_changed]. *)
Fixpoint gtk_filter_list_model {A} (match_ : A -> option bool)
  (items : list A) : option (list A) :=
  match items with
  | [] => Some []
  | item :: rest =>
      match match_ item with
      | None => None
      | Some keep =>
          option_map (fun kept => if keep then item :: kept else kept)
            (gtk_filter_list_model match_ rest)
      end
  end.

(** [GtkFilterChange]. *)
Inductive GtkFilterChange :=
| GTK_FILTER_CHANGE_DIFFERENT
| GTK_FILTER_CHANGE_LESS_STRICT
| GTK_FILTER_CHANGE_MORE_STRICT.

(** A [GtkFilterListModel] keeps, for every item of the list that it
    filters, the verdict of the last run of the filter on that item:
    [matches].  The items are objects and can change after the run.
    [gtk_filter_changed (filter, change)] runs the filter again, on the
    items as they are now, but only on those that the change can affect:
    on all of them for [GTK_FILTER_CHANGE_DIFFERENT], on those that are
    not shown for [GTK_FILTER_CHANGE_LESS_STRICT], on those that are
    shown for [GTK_FILTER_CHANGE_MORE_STRICT].  [None]: a run of the
    filter function is not defined. *)
Fixpoint gtk_filter_changed {A} (change : GtkFilterChange)
  (match_ : A -> option bool) (items : list A) (matches : list bool)
  : option (list bool) :=
  match items, matches with
  | item :: items', shown :: matches' =>
      let rerun :=
        match change with
        | GTK_FILTER_CHANGE_DIFFERENT => true
        | GTK_FILTER_CHANGE_LESS_STRICT => negb shown
        | GTK_FILTER_CHANGE_MORE_STRICT => shown
        end in
      match (if rerun then match_ item else Some shown) with
      | None => None
      | Some verdict =>
          option_map (cons verdict)
            (gtk_filter_changed change match_ items' matches')
      end
  | _, _ => Some []
  end.

(** The items of the filter list model, which the engine searches: the
    items of the list whose verdict is TRUE. *)
Fixpoint gtk_filter_list_model_items {A} (items : list A)
  (matches : list bool) : list A :=
  match items, matches with
  | item :: items', shown :: matches' =>
      if shown then item :: gtk_filter_list_model_items items' matches'
      else gtk_filter_list_model_items items' matches'
  | _, _ => []
  end.

(** The four settings that hide a group whatever the blocklists say. *)
Definition hidden_by_settings (self : BzApplication)
  (group : _BzEntryGroup) : bool :=
  (bz_state_info_get_hide_eol (state self) && negb (is_null (eol group)))
  || (bz_state_info_get_show_only_foss (state self)
      && negb (is_floss group))
  || (bz_state_info_get_show_only_flathub (state self)
      && negb (is_flathub group))
  || (bz_state_info_get_show_only_verified (state self)
      && negb (is_verified group)).

(** An expression of the blocklists that blocks, or allows, the
    identifier. *)
Definition blocks (data : BlocklistRegexData) (key : cstr) : bool :=
  match block data with
  | Some compiled => g_regex_match compiled key
  | None => false
  end.

Definition allows (data : BlocklistRegexData) (key : cstr) : bool :=
  match allow data with
  | Some compiled => g_regex_match compiled key
  | None => false
  end.

(** Every effective block of the identifier is answered by an allow of
    the same or a smaller priority number. *)
Definition blocks_answered (datas : list BlocklistRegexData) (key : cstr)
  : Prop :=
  forall data,
    In data datas -> blocks data key = true -> priority data < G_MAXINT ->
    exists data',
      In data' datas /\ allows data' key = true
      /\ priority data' <= priority data.

End Application.

Section ApplicationProperties.
Context {RE : RegexEngine}.

(** The loop that lowers a priority: the least priority number below
    [start] among the expressions that [hit], or [start]. *)
Definition lowest_priority (hit : BlocklistRegexData -> bool)
  (datas : list BlocklistRegexData) (start : Z) : Z :=
  fold_left
    (fun least data =>
       if (priority data <? least) && hit data then priority data
       else least)
    datas start.

End ApplicationProperties.

(** Sample entries, groups and blocklists. *)
Module Store.

Definition entry (entry_id unique_id entry_title : string)
  (usefulness : Z) (installed : bool) : BzEntry :=
  {| bz_entry_is_of_kinds := fun kind =>
       match kind with
       | BZ_ENTRY_KIND_APPLICATION => true
       | _ => false
       end;
     bz_entry_get_id := Some (utf8 entry_id);
     bz_entry_get_unique_id := Some (utf8 unique_id);
     bz_entry_get_installed_version := None;
     bz_entry_get_eol := None;
     bz_entry_get_title := Some (utf8 entry_title);
     bz_entry_get_developer := None;
     bz_entry_get_description := None;
     bz_entry_get_search_tokens := None;
     bz_entry_get_is_foss := true;
     bz_entry_get_is_flathub := true;
     bz_entry_is_verified := false;
     bz_entry_is_searchable := true;
     bz_entry_calc_usefulness := usefulness;
     bz_entry_is_installed := installed;
     bz_entry_is_holding := false;
     bz_flatpak_entry_is_installed_ref := false |}.

Definition stable : BzEntry :=
  entry "org.mozilla.firefox" "flathub stable firefox" "Firefox" 10 false.

Definition stable_installed : BzEntry :=
  entry "org.mozilla.firefox" "flathub stable firefox" "Firefox" 10 true.

Definition beta : BzEntry :=
  entry "org.mozilla.firefox" "flathub beta firefox" "Firefox Beta" 5 false.

(** An entry of Firefox that has reached its end of life. *)
Definition retired : BzEntry :=
  {| bz_entry_is_of_kinds := bz_entry_is_of_kinds beta;
     bz_entry_get_id := bz_entry_get_id beta;
     bz_entry_get_unique_id := Some (utf8 "flathub esr firefox");
     bz_entry_get_installed_version := None;
     bz_entry_get_eol := Some (utf8 "replaced by the stable branch");
     bz_entry_get_title := bz_entry_get_title beta;
     bz_entry_get_developer := None;
     bz_entry_get_description := None;
     bz_entry_get_search_tokens := None;
     bz_entry_get_is_foss := true;
     bz_entry_get_is_flathub := true;
     bz_entry_is_verified := false;
     bz_entry_is_searchable := true;
     bz_entry_calc_usefulness := 1;
     bz_entry_is_installed := false;
     bz_entry_is_holding := false;
     bz_flatpak_entry_is_installed_ref := false |}.

(** A group as it stands in the list of the application, around the
    fields that the engine reads. *)
Definition group_of (fields : BzEntryGroup) : _BzEntryGroup :=
  {| engine_fields := fields;
     unique_ids := unique_ids bz_entry_group_init;
     installed_versions := installed_versions bz_entry_group_init;
     is_floss := true;
     is_flathub := true;
     is_verified := false;
     eol := None;
     max_usefulness := 0;
     installable := 0;
     removable := 0;
     installable_available := 0;
     removable_available := 0;
     read_only := false |}.

Definition groups : list _BzEntryGroup :=
  map group_of Sample.catalog.

(** Nautilus is blocked with priority 2 and Firefox with priority 1;
    Firefox is allowed again with priority 0; Epiphany is on a text
    blocklist. *)
Definition application : @BzApplication literal_engine :=
  {| state :=
       {| bz_state_info_get_hide_eol := true;
          bz_state_info_get_show_only_foss := false;
          bz_state_info_get_show_only_flathub := false;
          bz_state_info_get_show_only_verified := false;
          bz_state_info_get_disable_blocklists := false |};
     blocklist_regexes :=
       [[{| priority := 2;
            block := Some (utf8 "org.gnome.Nautilus");
            allow := None |}];
        [{| priority := 1;
            block := Some (utf8 "org.mozilla.firefox");
            allow := None |};
         {| priority := 0;
            block := None;
            allow := Some (utf8 "org.mozilla.firefox") |}]];
     txt_blocked_id_sets := [[utf8 "org.gnome.Epiphany"]] |}.

(** The same blocklists in another order. *)
Definition reordered : @BzApplication literal_engine :=
  {| state := state application;
     blocklist_regexes := rev (blocklist_regexes application);
     txt_blocked_id_sets := txt_blocked_id_sets application |}.

End Store.

(* ------------------------------------------------------------------ *)
(** ** Further properties of entry groups *)

(** [bz_entry_group_dup_ui_entry_id]: the first unique id, or NULL. *)
Definition bz_entry_group_dup_ui_entry_id (self : _BzEntryGroup)
  : option cstr :=
  if (0 <? length (unique_ids self))%nat
  then nth_error (unique_ids self) 0
  else None.

(** Successive calls of [bz_entry_group_add] on one group, each with its
    entry, runtime and [ignore_eol]. *)
Fixpoint add_entries (application_id : option cstr) (self : _BzEntryGroup)
  (calls : list (BzEntry * option BzEntry * bool))
  : option _BzEntryGroup :=
  match calls with
  | [] => Some self
  | (entry, runtime, ignore_eol) :: rest =>
      match bz_entry_group_add application_id self entry runtime
              ignore_eol with
      | Some self' => add_entries application_id self' rest
      | None => None
      end
  end.

(** The most useful of the entries, the latest one among equals. *)
Definition most_useful (entries : list BzEntry) : option BzEntry :=
  fold_left
    (fun best entry =>
       match best with
       | None => Some entry
       | Some best' =>
           if bz_entry_calc_usefulness entry
              >=? bz_entry_calc_usefulness best'
           then Some entry
           else best
       end)
    entries None.

(** What the additions keep true of a group and of the best entry so
    far. *)
Definition stands_for (self : _BzEntryGroup) (best : option BzEntry)
  : Prop :=
  match best with
  | None => unique_ids self = [] /\ max_usefulness self = -1
  | Some best' =>
      bz_entry_group_dup_ui_entry_id self = bz_entry_get_unique_id best'
      /\ bz_entry_get_unique_id best' <> None
      /\ max_usefulness self = bz_entry_calc_usefulness best'
  end.

(* ------------------------------------------------------------------ *)
(** * The order of delivery
      (src/bz-flatpak-instance.c, src/bz-application.c)

    The backend sorts the remote refs before it sends them, and the
    application sorts cached entries before it replaces them, so that
    runtimes come first, then add-ons, then applications. *)

(** [FlatpakRefKind] of libflatpak. *)
Inductive FlatpakRefKind :=
| FLATPAK_REF_KIND_APP
| FLATPAK_REF_KIND_RUNTIME.

(** [AsComponentKind] of AppStream. *)
Inductive AsComponentKind :=
| AS_COMPONENT_KIND_UNKNOWN
| AS_COMPONENT_KIND_GENERIC
| AS_COMPONENT_KIND_DESKTOP_APP
| AS_COMPONENT_KIND_CONSOLE_APP
| AS_COMPONENT_KIND_WEB_APP
| AS_COMPONENT_KIND_SERVICE
| AS_COMPONENT_KIND_ADDON
| AS_COMPONENT_KIND_RUNTIME
| AS_COMPONENT_KIND_FONT
| AS_COMPONENT_KIND_CODEC
| AS_COMPONENT_KIND_INPUT_METHOD
| AS_COMPONENT_KIND_OPERATING_SYSTEM
| AS_COMPONENT_KIND_FIRMWARE
| AS_COMPONENT_KIND_DRIVER
| AS_COMPONENT_KIND_LOCALIZATION
| AS_COMPONENT_KIND_REPOSITORY
| AS_COMPONENT_KIND_ICON_THEME.

(** What [cmp_rref] reads of a [FlatpakRemoteRef]. *)
Record FlatpakRemoteRef := {
  flatpak_ref_get_kind : FlatpakRefKind;
  flatpak_ref_get_name : cstr
}.

(** [g_hash_table_lookup] in a table with string keys, as the list of its
    pairs. *)
Fixpoint g_hash_table_lookup {V} (table : list (cstr * V)) (key : cstr)
  : option V :=
  match table with
  | [] => None
  | (k, v) :: rest =>
      if cstr_eqb k key then Some v else g_hash_table_lookup rest key
  end.

Definition is_runtime_ref (kind : FlatpakRefKind) : bool :=
  match kind with
  | FLATPAK_REF_KIND_RUNTIME => true
  | FLATPAK_REF_KIND_APP => false
  end.

Definition AsComponentKind_eqb (a b : AsComponentKind) : bool :=
  match a, b with
  | AS_COMPONENT_KIND_UNKNOWN, AS_COMPONENT_KIND_UNKNOWN
  | AS_COMPONENT_KIND_GENERIC, AS_COMPONENT_KIND_GENERIC
  | AS_COMPONENT_KIND_DESKTOP_APP, AS_COMPONENT_KIND_DESKTOP_APP
  | AS_COMPONENT_KIND_CONSOLE_APP, AS_COMPONENT_KIND_CONSOLE_APP
  | AS_COMPONENT_KIND_WEB_APP, AS_COMPONENT_KIND_WEB_APP
  | AS_COMPONENT_KIND_SERVICE, AS_COMPONENT_KIND_SERVICE
  | AS_COMPONENT_KIND_ADDON, AS_COMPONENT_KIND_ADDON
  | AS_COMPONENT_KIND_RUNTIME, AS_COMPONENT_KIND_RUNTIME
  | AS_COMPONENT_KIND_FONT, AS_COMPONENT_KIND_FONT
  | AS_COMPONENT_KIND_CODEC, AS_COMPONENT_KIND_CODEC
  | AS_COMPONENT_KIND_INPUT_METHOD, AS_COMPONENT_KIND_INPUT_METHOD
  | AS_COMPONENT_KIND_OPERATING_SYSTEM, AS_COMPONENT_KIND_OPERATING_SYSTEM
  | AS_COMPONENT_KIND_FIRMWARE, AS_COMPONENT_KIND_FIRMWARE
  | AS_COMPONENT_KIND_DRIVER, AS_COMPONENT_KIND_DRIVER
  | AS_COMPONENT_KIND_LOCALIZATION, AS_COMPONENT_KIND_LOCALIZATION
  | AS_COMPONENT_KIND_REPOSITORY, AS_COMPONENT_KIND_REPOSITORY
  | AS_COMPONENT_KIND_ICON_THEME, AS_COMPONENT_KIND_ICON_THEME => true
  | _, _ => false
  end.

(** [cmp_rref (a, b, hash)]; [hash] maps the name of a ref to its
    component, of which only the kind is read. *)
Definition cmp_rref (a b : FlatpakRemoteRef)
  (hash : list (cstr * AsComponentKind)) : Z :=
  let a_fkind := flatpak_ref_get_kind a in
  let b_fkind := flatpak_ref_get_kind b in
  match g_hash_table_lookup hash (flatpak_ref_get_name a),
        g_hash_table_lookup hash (flatpak_ref_get_name b) with
  | None, _ => if is_runtime_ref a_fkind then -1 else 1
  | _, None => if is_runtime_ref b_fkind then 1 else -1
  | Some a_kind, Some b_kind =>
      if AsComponentKind_eqb a_kind AS_COMPONENT_KIND_RUNTIME then -1
      else if AsComponentKind_eqb b_kind AS_COMPONENT_KIND_RUNTIME then 1
      else if AsComponentKind_eqb a_kind AS_COMPONENT_KIND_ADDON then -1
      else if AsComponentKind_eqb b_kind AS_COMPONENT_KIND_ADDON then 1
      else if AsComponentKind_eqb a_kind AS_COMPONENT_KIND_DESKTOP_APP
              || AsComponentKind_eqb a_kind AS_COMPONENT_KIND_CONSOLE_APP
              || AsComponentKind_eqb a_kind AS_COMPONENT_KIND_WEB_APP
      then 1
      else if AsComponentKind_eqb b_kind AS_COMPONENT_KIND_DESKTOP_APP
              || AsComponentKind_eqb b_kind AS_COMPONENT_KIND_CONSOLE_APP
              || AsComponentKind_eqb b_kind AS_COMPONENT_KIND_WEB_APP
      then -1
      else 0
  end.

(** [cmp_entry (a, b, user_data)]. *)
Definition cmp_entry (a b : BzEntry) : Z :=
  let a_is_runtime := bz_entry_is_of_kinds a BZ_ENTRY_KIND_RUNTIME in
  let b_is_runtime := bz_entry_is_of_kinds b BZ_ENTRY_KIND_RUNTIME in
  if a_is_runtime && negb b_is_runtime then -1
  else if negb a_is_runtime && b_is_runtime then 1
  else
    let a_is_addon := bz_entry_is_of_kinds a BZ_ENTRY_KIND_ADDON in
    let b_is_addon := bz_entry_is_of_kinds b BZ_ENTRY_KIND_ADDON in
    if a_is_addon && negb b_is_addon then -1
    else if negb a_is_addon && b_is_addon then 1
    else 0.

(** [g_ptr_array_sort_values_with_data]: the merge sort of GLib, as for
    [g_array_sort]; the user data is in the closure. *)
Definition g_ptr_array_sort_values_with_data {A} (array : list A)
  (compare_func : A -> A -> Z) : list A :=
  msort_with_tmp (length array) compare_func array.

(** The place of a ref in the delivery: runtimes without a component,
    runtime components, add-ons, other components, applications, and
    last the refs that are no runtimes and have no component. *)
Definition delivery_rank (hash : list (cstr * AsComponentKind))
  (ref : FlatpakRemoteRef) : nat :=
  match g_hash_table_lookup hash (flatpak_ref_get_name ref) with
  | None => if is_runtime_ref (flatpak_ref_get_kind ref) then 0 else 5
  | Some AS_COMPONENT_KIND_RUNTIME => 1
  | Some AS_COMPONENT_KIND_ADDON => 2
  | Some AS_COMPONENT_KIND_DESKTOP_APP
  | Some AS_COMPONENT_KIND_CONSOLE_APP
  | Some AS_COMPONENT_KIND_WEB_APP => 4
  | Some _ => 3
  end.

(** The place of an entry: runtimes before the rest, and add-ons first
    within each half. *)
Definition entry_rank (entry : BzEntry) : nat :=
  (if bz_entry_is_of_kinds entry BZ_ENTRY_KIND_RUNTIME then 0 else 2)
  + (if bz_entry_is_of_kinds entry BZ_ENTRY_KIND_ADDON then 0 else 1).

(* ------------------------------------------------------------------ *)
(** * Proofs *)

(** ** Shards *)

Section ShardFacts.
Context {U : Unicode} {DBL : Double} {RE : RegexEngine}.

Lemma MIN_min (a b : nat) : MIN a b = Nat.min a b.
Proof. unfold MIN. destruct (Nat.ltb_spec a b); lia. Qed.

Lemma MAX_max (a b : nat) : MAX a b = Nat.max a b.
Proof. unfold MAX. destruct (Nat.ltb_spec b a); lia. Qed.

Lemma n_sub_tasks_pos (len num_processors : nat) :
  (1 <= n_sub_tasks_of len num_processors)%nat.
Proof. unfold n_sub_tasks_of. rewrite MAX_max. lia. Qed.

Lemma equal_chunks (per m : nat) :
  concat (map (fun i => seq (i * per) per) (seq 0 m)) = seq 0 (m * per).
Proof.
  induction m as [|m IH]; [reflexivity|].
  rewrite seq_S, map_app, concat_app, IH. cbn [map concat].
  rewrite app_nil_r, Nat.add_0_l.
  replace (S m * per)%nat with (m * per + per)%nat by lia.
  now rewrite seq_app.
Qed.

Lemma map_seq_ext {A} (f g : nat -> A) (start len : nat) :
  (forall i, (start <= i < start + len)%nat -> f i = g i) ->
  map f (seq start len) = map g (seq start len).
Proof.
  intros H. apply map_ext_in. intros i Hi. apply in_seq in Hi. now apply H.
Qed.

(** The ranges of the sub tasks, laid end to end, are [0 .. len - 1]. *)
Lemma shard_ranges (query_utf8 : cstr) (shallow_mirror : list BzEntryGroup)
  (active_biases : list BiasData) (k : nat) :
  (1 <= k)%nat ->
  let len := length shallow_mirror in
  let d := sub_task_data query_utf8 shallow_mirror active_biases k (len / k) in
  concat (map (fun i => seq (work_offset (d i)) (work_length (d i)))
            (seq 0 k)) = seq 0 len.
Proof.
  intros Hk len d. subst d. cbn [work_offset work_length sub_task_data].
  fold len.
  destruct k as [|k']; [lia|].
  rewrite seq_S, map_app, concat_app. cbn [map concat Nat.add].
  rewrite app_nil_r.
  replace (S k' - 1)%nat with k' by lia.
  rewrite Nat.leb_refl.
  rewrite (map_seq_ext _ (fun i => seq (i * (len / S k')) (len / S k'))).
  - rewrite equal_chunks, <- seq_app. f_equal.
    pose proof (Nat.div_mod_eq len (S k')). lia.
  - intros i Hi. destruct (Nat.leb_spec k' i); [lia|reflexivity].
Qed.

Lemma count_occ_seq (a b j : nat) :
  count_occ Nat.eq_dec (seq a b) j
  = if ((a <=? j) && (j <? a + b))%nat then 1%nat else 0%nat.
Proof.
  revert a. induction b as [|b IH]; intros a.
  - cbn [seq count_occ].
    destruct (Nat.leb_spec a j) as [H1|H1],
      (Nat.ltb_spec j (a + 0)) as [H2|H2]; cbn [andb];
      try reflexivity; lia.
  - cbn [seq count_occ]. rewrite IH.
    destruct (Nat.eq_dec a j) as [He|He],
      (Nat.leb_spec (S a) j) as [H1|H1],
      (Nat.ltb_spec j (S a + b)) as [H2|H2],
      (Nat.leb_spec a j) as [H3|H3],
      (Nat.ltb_spec j (a + S b)) as [H4|H4]; cbn [andb];
      try reflexivity; lia.
Qed.

Lemma count_occ_ranges (off len : nat -> nat) (l : list nat) (j : nat) :
  count_occ Nat.eq_dec (concat (map (fun i => seq (off i) (len i)) l)) j
  = length (filter (fun i => (off i <=? j)%nat && (j <? off i + len i)%nat)
              l).
Proof.
  induction l as [|i l IH]; [reflexivity|].
  cbn [map concat filter]. rewrite count_occ_app, IH, count_occ_seq.
  destruct ((off i <=? j)%nat && (j <? off i + len i)%nat); reflexivity.
Qed.

End ShardFacts.

(* ------------------------------------------------------------------ *)
(** ** The bias table *)

Section BiasFacts.
Context {U : Unicode} {DBL : Double} {RE : RegexEngine}.

Lemma insert_length {A} (array : list A) (index : nat) (data : A) :
  (index <= length array)%nat ->
  length (g_ptr_array_insert array index data) = S (length array).
Proof.
  intros H. unfold g_ptr_array_insert.
  destruct (Nat.leb_spec index (length array)); [|lia].
  rewrite length_app. cbn [length]. rewrite length_firstn, length_skipn. lia.
Qed.

(** The loop splices the new entries in at [position + i]. *)
Lemma biases_changed_loop_splice (list_model : list BzSearchBias)
  (position count i : nat) (mirror : list BiasData) :
  (position + i <= length mirror)%nat ->
  biases_changed_loop list_model position i count mirror
  = firstn (position + i) mirror
    ++ map (entry_at list_model) (seq (position + i) count)
    ++ skipn (position + i) mirror.
Proof.
  revert i mirror. induction count as [|count IH]; intros i mirror Hi.
  - cbn. now rewrite firstn_skipn.
  - cbn [biases_changed_loop seq map]. fold (entry_at list_model (position + i)).
    rewrite IH by (rewrite insert_length; lia).
    unfold g_ptr_array_insert.
    destruct (Nat.leb_spec (position + i) (length mirror)); [|lia].
    replace (position + S i)%nat with (S (position + i)) by lia.
    set (k := (position + i)%nat) in *.
    set (e := entry_at list_model k).
    assert (Hk : length (firstn k mirror) = k)
      by (rewrite length_firstn; lia).
    replace (firstn k mirror ++ e :: skipn k mirror)
      with ((firstn k mirror ++ [e]) ++ skipn k mirror)
      by (now rewrite <- app_assoc).
    assert (Hk' : length (firstn k mirror ++ [e]) = S k)
      by (rewrite length_app, Hk; cbn; lia).
    rewrite firstn_app, skipn_app, Hk'.
    rewrite Nat.sub_diag, firstn_O, skipn_O.
    rewrite firstn_all2 by lia. rewrite skipn_all2 by lia.
    rewrite app_nil_r. cbn [app]. now rewrite <- !app_assoc.
Qed.

(** A change notification replaces the entries of the removed range by
    the entries of the added specifications, in place. *)
Lemma biases_changed_splice (mirror : list BiasData)
  (position removed added : nat) (list_model : list BzSearchBias) :
  (position + removed <= length mirror)%nat ->
  biases_changed mirror position removed added list_model
  = firstn position mirror
    ++ map (entry_at list_model) (seq position added)
    ++ skipn (position + removed) mirror.
Proof.
  intros H. unfold biases_changed.
  rewrite biases_changed_loop_splice; rewrite Nat.add_0_r.
  - destruct (Nat.ltb_spec 0 removed) as [Hr|Hr].
    + unfold g_ptr_array_remove_range.
      destruct (Nat.leb_spec (position + removed) (length mirror)); [|lia].
      assert (Hk : length (firstn position mirror) = position)
        by (rewrite length_firstn; lia).
      rewrite firstn_app, skipn_app, Hk, Nat.sub_diag, firstn_O, skipn_O.
      rewrite firstn_all2 by lia. rewrite skipn_all2 by lia.
      now rewrite app_nil_r.
    + replace removed with 0%nat by lia. now rewrite Nat.add_0_r.
  - destruct (Nat.ltb_spec 0 removed) as [Hr|Hr]; [|lia].
    unfold g_ptr_array_remove_range.
    destruct (Nat.leb_spec (position + removed) (length mirror)); [|lia].
    rewrite length_app, length_firstn. lia.
Qed.

Lemma map_entry_at (list_model : list BzSearchBias) :
  map (entry_at list_model) (seq 0 (length list_model))
  = map bias_entry list_model.
Proof.
  induction list_model as [|b l IH] using rev_ind; [reflexivity|].
  rewrite length_app, Nat.add_comm. cbn [length Nat.add].
  rewrite seq_S, !map_app. cbn [map Nat.add]. f_equal.
  - rewrite <- IH. apply map_ext_in. intros k Hk. apply in_seq in Hk.
    unfold entry_at. rewrite nth_error_app1 by lia. reflexivity.
  - unfold entry_at. rewrite nth_error_app2 by lia.
    rewrite Nat.sub_diag. reflexivity.
Qed.

(** Replacing the bias list rebuilds the table entry by entry. *)
Lemma set_biases_mirror (self : BzSearchEngine)
  (list_model : list BzSearchBias) :
  biases_mirror (bz_search_engine_set_biases self (Some list_model))
  = map bias_entry list_model.
Proof.
  cbn [bz_search_engine_set_biases biases_mirror].
  rewrite biases_changed_splice by (cbn; lia).
  cbn [firstn skipn app]. now rewrite app_nil_r, map_entry_at.
Qed.

Lemma refused_entry (bias : BzSearchBias) :
  refused bias = true -> bias_entry bias = SKIP.
Proof.
  unfold refused, bias_entry, bias_incomplete, bias_two_functions,
    usable_boost, compiles.
  destruct (bias_regex bias) as [regex_string|]; cbn [is_null negb orb andb];
    [|reflexivity].
  destruct (bias_convert_to bias), (bias_boost_appids bias),
    (bias_linear_boost bias) as [[? ?]|],
    (bias_exponential_boost bias) as [[? ?]|],
    (g_regex_new regex_string);
    cbn [is_null negb orb andb]; intros H; try reflexivity; discriminate.
Qed.

Lemma kept_entry (bias : BzSearchBias) :
  refused bias = false -> invalid (bias_entry bias) = false.
Proof.
  unfold refused, bias_entry, bias_incomplete, bias_two_functions,
    usable_boost, compiles.
  destruct (bias_regex bias) as [regex_string|]; cbn [is_null negb orb andb];
    [|discriminate].
  destruct (bias_convert_to bias), (bias_boost_appids bias),
    (bias_linear_boost bias) as [[? ?]|],
    (bias_exponential_boost bias) as [[? ?]|],
    (g_regex_new regex_string);
    cbn [is_null negb orb andb]; intros H; try reflexivity; discriminate.
Qed.

Lemma bias_round_activated (query_utf8 : cstr) (active : list BiasData)
  (bias : BiasData) :
  bias_round (query_utf8, active) bias
  = if activated bias query_utf8
    then (rewritten bias query_utf8, active ++ [bias])
    else (query_utf8, active).
Proof.
  unfold bias_round, activated, rewritten.
  destruct (invalid bias); cbn [negb andb]; [reflexivity|].
  destruct (regex bias) as [compiled|]; [|reflexivity].
  destruct (g_regex_match compiled query_utf8); cbn [negb]; [|reflexivity].
  destruct (convert_to bias); reflexivity.
Qed.

Lemma invalid_not_activated (bias : BiasData) (query_utf8 : cstr) :
  invalid bias = true -> activated bias query_utf8 = false.
Proof. intros H. unfold activated. now rewrite H. Qed.

(** The active biases collected so far stay in front. *)
Lemma fold_bias_round (table : list BiasData) (query_utf8 : cstr)
  (active : list BiasData) :
  fold_left bias_round table (query_utf8, active)
  = (fst (collect_biases query_utf8 table),
     active ++ snd (collect_biases query_utf8 table)).
Proof.
  unfold collect_biases. revert query_utf8 active.
  induction table as [|bias table IH]; intros query_utf8 active.
  - cbn. now rewrite app_nil_r.
  - cbn [fold_left]. rewrite !bias_round_activated.
    destruct (activated bias query_utf8).
    + rewrite IH. rewrite (IH _ ([] ++ [bias])). cbn [fst snd app].
      now rewrite <- app_assoc.
    + apply IH.
Qed.

Lemma collect_biases_cons (bias : BiasData) (table : list BiasData)
  (query_utf8 : cstr) :
  collect_biases query_utf8 (bias :: table)
  = if activated bias query_utf8
    then (fst (collect_biases (rewritten bias query_utf8) table),
          bias :: snd (collect_biases (rewritten bias query_utf8) table))
    else collect_biases query_utf8 table.
Proof.
  unfold collect_biases at 1. cbn [fold_left].
  rewrite bias_round_activated.
  destruct (activated bias query_utf8).
  - now rewrite fold_bias_round.
  - reflexivity.
Qed.

Lemma examined_collect_biases (q : cstr) (table : list BiasData) (q' : cstr)
  (active : list BiasData) :
  examined q table q' active -> collect_biases q table = (q', active).
Proof.
  induction 1 as [q|q bias table q' active Hact _ IH
                 |q bias table q' active Hact _ IH].
  - reflexivity.
  - now rewrite collect_biases_cons, Hact.
  - now rewrite collect_biases_cons, Hact, IH.
Qed.

Lemma collect_biases_examined (q : cstr) (table : list BiasData) :
  examined q table (fst (collect_biases q table))
    (snd (collect_biases q table)).
Proof.
  revert q. induction table as [|bias table IH]; intros q.
  - constructor.
  - rewrite collect_biases_cons. destruct (activated bias q) eqn:Hact.
    + cbn [fst snd]. now apply examined_collect.
    + now apply examined_pass.
Qed.

Lemma collected_are_valid (q : cstr) (table : list BiasData) (bias : BiasData) :
  In bias (snd (collect_biases q table)) ->
  invalid bias = false /\ In bias table.
Proof.
  revert q. induction table as [|b table IH]; intros q; [intros []|].
  rewrite collect_biases_cons. destruct (activated b q) eqn:Hact.
  - cbn [snd]. intros [Heq|Hin].
    + subst b. split; [|now left]. unfold activated in Hact.
      now destruct (invalid bias).
    + destruct (IH _ Hin). split; [assumption|now right].
  - intros Hin. destruct (IH _ Hin). split; [assumption|now right].
Qed.

Lemma collect_biases_skips_invalid (q : cstr) (table : list BiasData) :
  collect_biases q (filter (fun bias => negb (invalid bias)) table)
  = collect_biases q table.
Proof.
  revert q. induction table as [|b table IH]; intros q; [reflexivity|].
  cbn [filter]. destruct (invalid b) eqn:Hinv; cbn [negb].
  - rewrite (collect_biases_cons b), invalid_not_activated by assumption.
    apply IH.
  - rewrite !collect_biases_cons. now rewrite !IH.
Qed.

(** C9: rebuilding the table from a list of specifications gives one
    entry per specification, in place; a specification without a pattern,
    with a pattern that does not compile, with neither a rewrite nor a
    usable boost definition, or with both a linear and an exponential
    function, gets the placeholder [SKIP] at its position; and a
    placeholder is never applied to a query: it leaves the working query
    string and the active biases as they are, no active bias is a
    placeholder, dropping the placeholders from a table changes nothing of
    what a query collects, and a placeholder boosts no score.  A later
    change of the bias list replaces the entries of its range in place,
    so the positions of the other entries stay those of their
    specifications. *)
Theorem refused_bias_is_inert (self : BzSearchEngine)
  (specs : list BzSearchBias) :
  let table :=
    biases_mirror (bz_search_engine_set_biases self (Some specs)) in
  length table = length specs
  /\ (forall i, nth_error table i = option_map bias_entry (nth_error specs i))
  /\ (forall bias, refused bias = true -> bias_entry bias = SKIP)
  /\ (forall bias, refused bias = false -> invalid (bias_entry bias) = false)
  /\ (forall q active, bias_round (q, active) SKIP = (q, active))
  /\ (forall q any_table bias,
         In bias (snd (collect_biases q any_table)) -> invalid bias = false)
  /\ (forall q any_table,
         collect_biases q
           (filter (fun bias => negb (invalid bias)) any_table)
         = collect_biases q any_table)
  /\ (forall key rest score,
         boost_loop key (SKIP :: rest) score = boost_loop key rest score)
  /\ (forall mirror position removed added list_model,
         (position + removed <= length mirror)%nat ->
         biases_changed mirror position removed added list_model
         = firstn position mirror
           ++ map (entry_at list_model) (seq position added)
           ++ skipn (position + removed) mirror).
Proof.
  intros table. subst table. rewrite set_biases_mirror.
  split; [apply length_map|].
  split; [intros i; apply nth_error_map|].
  split; [apply refused_entry|].
  split; [apply kept_entry|].
  split; [reflexivity|].
  split.
  { intros q any_table bias Hin. now apply collected_are_valid in Hin. }
  split; [apply collect_biases_skips_invalid|].
  split; [reflexivity|].
  intros mirror position removed added list_model H.
  now apply biases_changed_splice.
Qed.

(** C3 (as amended): the biases are examined in table order against the
    current working query string; a bias is collected exactly when it is
    not a placeholder and its pattern is found somewhere in that string
    (the pattern need not cover the whole string), and when such a bias
    carries a rewrite the working string becomes the result of the
    replacement (it stays as it is when the replacement fails). *)
Theorem biases_examined_in_table_order (q : cstr) (table : list BiasData)
  (q' : cstr) (active : list BiasData) :
  collect_biases q table = (q', active) <-> examined q table q' active.
Proof.
  split.
  - intros H. pose proof (collect_biases_examined q table) as He.
    now rewrite H in He.
  - apply examined_collect_biases.
Qed.

End BiasFacts.

(** C3, as stated, fails: the pattern "fire" does not match the whole of
    the query "firefox", yet the bias is collected. *)
Lemma substring_match_activates :
  literal_matches_whole (utf8 "fire") (utf8 "firefox") = false
  /\ snd (collect_biases (g_strjoinv (utf8 " ") [utf8 "firefox"])
            (biases_mirror (Sample.engine [Sample.fire_bias])))
     = [bias_entry Sample.fire_bias]
  /\ invalid (bias_entry Sample.fire_bias) = false.
Proof. vm_compute. repeat split. Qed.

(* ------------------------------------------------------------------ *)
(** ** The shard worker and the coordinator *)

Section WorkerFacts.
Context {U : Unicode} {DBL : Double} {RE : RegexEngine}.

Lemma boost_loop_fold (key : cstr) (active_biases : list BiasData)
  (score : double) :
  boost_loop (Some key) active_biases score
  = Some (fold_left (fun s bias => boost_switch bias s)
            (filter (fun bias => boosts bias key) active_biases) score).
Proof.
  revert score. induction active_biases as [|bias rest IH]; intros score.
  - reflexivity.
  - cbn [boost_loop filter]. unfold boosts at 1.
    destruct (boost bias) as [table|]; [|apply IH].
    destruct (g_hash_table_contains table key); cbn [fold_left]; apply IH.
Qed.

Lemma boost_loop_no_boost (key : option cstr) (active_biases : list BiasData)
  (score : double) :
  Forall (fun bias => boost bias = None) active_biases ->
  boost_loop key active_biases score = Some score.
Proof.
  induction 1 as [|bias rest Hb _ IH]; [reflexivity|].
  cbn [boost_loop]. now rewrite Hb.
Qed.

Lemma boost_loop_defined (key : cstr) (active_biases : list BiasData)
  (score : double) :
  boost_loop (Some key) active_biases score <> None.
Proof. rewrite boost_loop_fold. discriminate. Qed.

(** A shard appends what [emit] gives for the candidates of its range. *)
Lemma sub_task_loop_emits (shallow_mirror : list BzEntryGroup)
  (query_utf8 : cstr) (active_biases : list BiasData)
  (offset count i : nat) (scores_out : list Score) :
  scores_defined query_utf8 active_biases shallow_mirror ->
  (offset + i + count <= length shallow_mirror)%nat ->
  sub_task_loop shallow_mirror query_utf8 (d_lit 1) active_biases
    offset i count scores_out
  = Some (scores_out
          ++ flat_map (emit query_utf8 active_biases shallow_mirror)
               (seq (offset + i) count)).
Proof.
  intros Hdef. revert i scores_out.
  induction count as [|count IH]; intros i scores_out Hlen.
  - cbn. now rewrite app_nil_r.
  - cbn [sub_task_loop seq flat_map]. unfold emit at 1.
    destruct (nth_error shallow_mirror (offset + i)) as [group|] eqn:Hnth.
    2:{ apply nth_error_None in Hnth. lia. }
    replace (S (offset + i)) with (offset + S i)%nat by lia.
    destruct (searchable group) eqn:Hs; cbn [negb].
    + destruct (final_score query_utf8 active_biases group) as [score|] eqn:Hf.
      2:{ exfalso. apply (Hdef group); auto. eapply nth_error_In; eauto. }
      rewrite IH by lia.
      destruct (d_lit 1 <? score)%D; cbn [app]; [|reflexivity].
      now rewrite <- app_assoc.
    + rewrite IH by lia. reflexivity.
Qed.

Lemma flat_map_concat {A B} (f : A -> list B) (ls : list (list A)) :
  flat_map f (concat ls) = concat (map (flat_map f) ls).
Proof.
  induction ls as [|l ls IH]; [reflexivity|].
  cbn [concat map]. now rewrite flat_map_app, IH.
Qed.

Lemma gather_all (lists : list (list Score)) (scores : list Score) :
  gather (map Some lists) scores = Some (scores ++ concat lists).
Proof.
  revert scores. induction lists as [|l lists IH]; intros scores.
  - cbn. now rewrite app_nil_r.
  - cbn [map gather concat]. rewrite IH. now rewrite <- app_assoc.
Qed.

Lemma shard_in_bounds (len k i : nat) :
  (1 <= k)%nat -> (i < k)%nat ->
  (i * (len / k)
   + (if (k - 1 <=? i)%nat then len / k + len mod k else len / k)
   <= len)%nat.
Proof.
  intros Hk Hi. pose proof (Nat.div_mod_eq len k) as Hdm.
  destruct (Nat.leb_spec (k - 1) i).
  - assert (i = k - 1)%nat by lia. subst i. nia.
  - assert (S i <= k - 1)%nat by lia. nia.
Qed.

(** The scores gathered from the shards are those of one pass over the
    whole snapshot. *)
Lemma shards_emit_snapshot (query_utf8 : cstr)
  (shallow_mirror : list BzEntryGroup) (active_biases : list BiasData)
  (k : nat) :
  scores_defined query_utf8 active_biases shallow_mirror ->
  (1 <= k)%nat ->
  gather
    (map (fun i =>
            query_sub_task_fiber
              (sub_task_data query_utf8 shallow_mirror active_biases k
                 (length shallow_mirror / k) i))
       (seq 0 k)) []
  = Some (flat_map (emit query_utf8 active_biases shallow_mirror)
            (seq 0 (length shallow_mirror))).
Proof.
  intros Hdef Hk.
  set (d := sub_task_data query_utf8 shallow_mirror active_biases k
              (length shallow_mirror / k)).
  rewrite (map_seq_ext _
             (fun i => Some (flat_map
                               (emit query_utf8 active_biases shallow_mirror)
                               (seq (work_offset (d i)) (work_length (d i)))))).
  - rewrite <- (map_map
                  (fun i => flat_map
                              (emit query_utf8 active_biases shallow_mirror)
                              (seq (work_offset (d i)) (work_length (d i))))
                  Some).
    rewrite gather_all. cbn [app]. f_equal.
    pose proof (shard_ranges query_utf8 shallow_mirror active_biases k Hk)
      as Hr.
    cbv zeta in Hr. fold d in Hr. rewrite <- Hr.
    now rewrite flat_map_concat, map_map.
  - intros i Hi. unfold query_sub_task_fiber.
    subst d. cbn [sub_task_data sub_shallow_mirror sub_query_utf8
                    sub_threshold sub_active_biases work_offset work_length].
    rewrite sub_task_loop_emits.
    + cbn [app]. now rewrite Nat.add_0_r.
    + exact Hdef.
    + rewrite Nat.add_0_r. apply shard_in_bounds; lia.
Qed.

End WorkerFacts.

(* ------------------------------------------------------------------ *)
(** ** The merge sort *)

Section SortFacts.
Variable A : Type.
Variable cmp : A -> A -> Z.

Lemma merge_runs_perm (b1 b2 : list A) :
  Permutation (merge_runs cmp b1 b2) (b1 ++ b2).
Proof.
  revert b2. induction b1 as [|x b1 IH1]; intros b2.
  - destruct b2; reflexivity.
  - induction b2 as [|y b2 IH2].
    + cbn. now rewrite app_nil_r.
    + cbn [merge_runs]. destruct (cmp x y <=? 0).
      * cbn [app]. constructor. apply IH1.
      * etransitivity; [constructor; exact IH2|].
        apply Permutation_middle.
Qed.

Lemma msort_perm (depth : nat) (b : list A) :
  Permutation (msort_with_tmp depth cmp b) b.
Proof.
  revert b. induction depth as [|depth IH]; intros b; [reflexivity|].
  cbn [msort_with_tmp]. destruct (length b <=? 1)%nat; [reflexivity|].
  rewrite merge_runs_perm, !IH. now rewrite firstn_skipn.
Qed.

(** [dom] holds of the elements that are sorted, [R x y] reads "x may
    stand before y". *)
Variable dom : A -> Prop.
Variable R : A -> A -> Prop.
Hypothesis cmp_first : forall x y, dom x -> dom y -> cmp x y <= 0 -> R x y.
Hypothesis cmp_second : forall x y, dom x -> dom y -> 0 < cmp x y -> R y x.
Hypothesis R_trans :
  forall x y z, dom x -> dom y -> dom z -> R x y -> R y z -> R x z.

Lemma Forall_R_trans (x y : A) (l : list A) :
  dom x -> dom y -> Forall dom l -> R x y -> Forall (R y) l -> Forall (R x) l.
Proof.
  intros Hx Hy Hl Hxy Hyl. rewrite Forall_forall in *.
  intros z Hz. apply (R_trans x y z); auto.
Qed.

Lemma merge_runs_sorted (b1 b2 : list A) :
  Forall dom b1 -> Forall dom b2 ->
  StronglySorted R b1 -> StronglySorted R b2 ->
  StronglySorted R (merge_runs cmp b1 b2).
Proof.
  revert b2. induction b1 as [|x b1 IH1]; intros b2 Hd1 Hd2 Hs1 Hs2.
  - destruct b2; assumption.
  - induction b2 as [|y b2 IH2]; [assumption|].
    cbn [merge_runs].
    inversion Hd1 as [|? ? Hx Hd1']; subst.
    inversion Hd2 as [|? ? Hy Hd2']; subst.
    inversion Hs1 as [|? ? Hs1' Hx1]; subst.
    inversion Hs2 as [|? ? Hs2' Hy2]; subst.
    destruct (Z.leb_spec (cmp x y) 0) as [Hc|Hc].
    + constructor; [now apply IH1|].
      eapply Permutation_Forall;
        [symmetry; apply merge_runs_perm|].
      apply Forall_app. split; [assumption|].
      constructor; [now apply cmp_first|].
      apply (Forall_R_trans x y); auto.
    + constructor; [now apply IH2|].
      change (Forall (R y) (merge_runs cmp (x :: b1) b2)).
      eapply Permutation_Forall;
        [symmetry; apply merge_runs_perm|].
      apply Forall_app. split; [|assumption].
      constructor; [now apply cmp_second|].
      apply (Forall_R_trans y x); auto.
Qed.

Lemma msort_sorted (depth : nat) (b : list A) :
  (length b <= depth)%nat -> Forall dom b ->
  StronglySorted R (msort_with_tmp depth cmp b).
Proof.
  revert b. induction depth as [|depth IH]; intros b Hlen Hdom.
  - destruct b; [constructor|cbn in Hlen; lia].
  - cbn [msort_with_tmp].
    destruct (Nat.leb_spec (length b) 1) as [H1|H1].
    + destruct b as [|x [|y b]]; [constructor| |cbn in H1; lia].
      constructor; constructor.
    + assert (Hhalf : (0 < length b / 2 < length b)%nat).
      { split.
        - apply Nat.div_str_pos. lia.
        - apply Nat.div_lt; lia. }
      rewrite <- (firstn_skipn (length b / 2) b) in Hdom.
      apply Forall_app in Hdom. destruct Hdom as [Hd1 Hd2].
      apply merge_runs_sorted.
      * eapply Permutation_Forall; [symmetry; apply msort_perm|assumption].
      * eapply Permutation_Forall; [symmetry; apply msort_perm|assumption].
      * apply IH; [rewrite length_firstn; lia|assumption].
      * apply IH; [rewrite length_skipn; lia|assumption].
Qed.

Lemma g_array_sort_sorted (array : list A) :
  Forall dom array -> StronglySorted R (g_array_sort array cmp).
Proof. intros H. now apply msort_sorted. Qed.

End SortFacts.

Lemma g_array_sort_perm {A} (cmp : A -> A -> Z) (array : list A) :
  Permutation (g_array_sort array cmp) array.
Proof. apply msort_perm. Qed.

(* ------------------------------------------------------------------ *)
(** ** The result list *)

Section RankingFacts.
Context {U : Unicode} {DBL : Double} {RE : RegexEngine}.

Lemma searchable_with_id_defined (query_utf8 : cstr)
  (active_biases : list BiasData) (shallow_mirror : list BzEntryGroup) :
  Forall (fun group => searchable group = true -> id group <> None)
    shallow_mirror ->
  scores_defined query_utf8 active_biases shallow_mirror.
Proof.
  intros H group Hin Hs. rewrite Forall_forall in H.
  specialize (H group Hin Hs). unfold final_score.
  destruct (id group) as [key|]; [apply boost_loop_defined|congruence].
Qed.

(** Without undefined behaviour the coordinator resolves to the sorted
    scores of one pass over the snapshot. *)
Lemma query_task_fiber_resolved (num_processors : nat) (data : QueryTaskData) :
  let query_utf8 :=
    fst (collect_biases (g_strjoinv (utf8 " ") (terms data))
           (task_biases data)) in
  let active_biases :=
    snd (collect_biases (g_strjoinv (utf8 " ") (terms data))
           (task_biases data)) in
  let results_ :=
    wrap_results (snapshot data)
      (g_array_sort
         (flat_map (emit query_utf8 active_biases (snapshot data))
            (seq 0 (length (snapshot data))))
         cmp_scores) in
  scores_defined query_utf8 active_biases (snapshot data) ->
  query_task_fiber num_processors data
  = Resolved {| interpreted_query := query_utf8;
                results := results_;
                n_results := length results_ |}.
Proof.
  intros query_utf8 active_biases results_ Hdef.
  unfold query_task_fiber.
  destruct (collect_biases (g_strjoinv (utf8 " ") (terms data))
              (task_biases data)) as [q a] eqn:Hc.
  cbn [fst snd] in *. subst query_utf8 active_biases.
  rewrite shards_emit_snapshot;
    [reflexivity|exact Hdef|apply n_sub_tasks_pos].
Qed.

Lemma emit_indices (query_utf8 : cstr) (active_biases : list BiasData)
  (shallow_mirror : list BzEntryGroup) (indices : list nat) :
  map idx (flat_map (emit query_utf8 active_biases shallow_mirror) indices)
  = filter (passes query_utf8 active_biases shallow_mirror) indices.
Proof.
  induction indices as [|j indices IH]; [reflexivity|].
  cbn [flat_map filter]. rewrite map_app, IH.
  unfold emit, passes.
  destruct (nth_error shallow_mirror j) as [group|]; [|reflexivity].
  destruct (searchable group); [|reflexivity].
  destruct (final_score query_utf8 active_biases group) as [score|];
    [|reflexivity].
  cbn [andb]. destruct (d_lit 1 <? score)%D; reflexivity.
Qed.

(** Every emitted score is above the threshold and is the final score of
    the candidate it names. *)
Lemma emit_sound (query_utf8 : cstr) (active_biases : list BiasData)
  (shallow_mirror : list BzEntryGroup) (indices : list nat) :
  Forall (fun score =>
            (d_lit 1 <? val score)%D = true
            /\ exists group,
                 nth_error shallow_mirror (idx score) = Some group
                 /\ searchable group = true
                 /\ final_score query_utf8 active_biases group
                    = Some (val score))
    (flat_map (emit query_utf8 active_biases shallow_mirror) indices).
Proof.
  apply Forall_flat_map. apply Forall_forall. intros j _.
  unfold emit.
  destruct (nth_error shallow_mirror j) as [group|] eqn:Hn; [|constructor].
  destruct (searchable group) eqn:Hs; [|constructor].
  destruct (final_score query_utf8 active_biases group) as [score|] eqn:Hf;
    [|constructor].
  destruct (d_lit 1 <? score)%D eqn:Ht; constructor; [|constructor].
  cbn [idx val]. split; [assumption|]. now exists group.
Qed.

Lemma map_idx_wrap (shallow_mirror : list BzEntryGroup) (scores : list Score) :
  map sr_original_index (wrap_results shallow_mirror scores) = map idx scores.
Proof.
  induction scores as [|score scores IH]; [reflexivity|].
  cbn [wrap_results map sr_original_index]. now rewrite IH.
Qed.

Lemma wrap_results_Forall (shallow_mirror : list BzEntryGroup)
  (P : Score -> Prop) (Q : BzSearchResult -> Prop) (scores : list Score) :
  (forall score,
      P score ->
      Q {| sr_group := nth_error shallow_mirror (idx score);
           sr_original_index := idx score;
           sr_score := Some (val score) |}) ->
  Forall P scores -> Forall Q (wrap_results shallow_mirror scores).
Proof.
  intros HPQ. induction 1 as [|score scores HP _ IH]; [constructor|].
  cbn [wrap_results]. constructor; [now apply HPQ|exact IH].
Qed.

Lemma wrap_results_sorted (shallow_mirror : list BzEntryGroup)
  (scores : list Score) :
  StronglySorted (fun a b => (val a <? val b)%D = false) scores ->
  StronglySorted not_below (wrap_results shallow_mirror scores).
Proof.
  induction 1 as [|score scores _ IH Hall]; [constructor|].
  cbn [wrap_results]. constructor; [exact IH|].
  apply (wrap_results_Forall shallow_mirror
           (fun b => (val score <? val b)%D = false)); [|exact Hall].
  intros b Hb. exact Hb.
Qed.

Lemma cmp_scores_sorts (Hord : double_order) (scores : list Score) :
  Forall (fun score => (d_lit 1 <? val score)%D = true) scores ->
  StronglySorted (fun a b => (val a <? val b)%D = false)
    (g_array_sort scores cmp_scores).
Proof.
  apply g_array_sort_sorted.
  - intros x y _ _ Hc. unfold cmp_scores in Hc.
    rewrite (d_sub_lt Hord) in Hc.
    destruct (val y <? val x)%D eqn:Hyx; [|lia].
    now apply (d_lt_asym Hord).
  - intros x y _ _ Hc. unfold cmp_scores in Hc.
    rewrite (d_sub_lt Hord) in Hc.
    destruct (val y <? val x)%D eqn:Hyx; [lia|reflexivity].
  - intros x y z Hx Hy Hz. now apply (d_lt_negtrans Hord).
Qed.

(** The second branch of the query, when nothing undefined happens:
    the sorted scores of one pass over the snapshot, wrapped. *)
Lemma query_second_branch (num_processors : nat) (self : BzSearchEngine)
  (groups : list BzEntryGroup) (first : cstr) (rest : list cstr) :
  model self = Some groups -> groups <> [] -> first <> [] ->
  c_string first ->
  Forall (fun group => searchable group = true -> id group <> None) groups ->
  let collected :=
    collect_biases (g_strjoinv (utf8 " ") (first :: rest))
      (biases_mirror self) in
  let ranked :=
    wrap_results groups
      (g_array_sort
         (flat_map (emit (fst collected) (snd collected) groups)
            (seq 0 (length groups)))
         cmp_scores) in
  bz_search_engine_query num_processors self (first :: rest)
  = Resolved {| interpreted_query := fst collected;
                results := ranked;
                n_results := length ranked |}.
Proof.
  intros Hmodel Hgroups Hfirst Hc Hids collected ranked.
  unfold bz_search_engine_query. rewrite Hmodel. cbn [is_null groups_of orb].
  destruct groups as [|g0 groups']; [congruence|].
  destruct first as [|c first']; [congruence|].
  assert (Hc0 : c <> 0) by (intros ->; apply Hc; now left).
  cbn [length Nat.eqb g_utf8_get_char orb].
  destruct (Z.eqb_spec c 0) as [|_]; [contradiction|].
  rewrite query_task_fiber_resolved;
    cbn [terms snapshot task_biases]; [reflexivity|].
  now apply searchable_with_id_defined.
Qed.

(** The ranked results name the candidates that pass, each once. *)
Lemma ranked_indices (query_utf8 : cstr) (active_biases : list BiasData)
  (groups : list BzEntryGroup) :
  Permutation
    (map sr_original_index
       (wrap_results groups
          (g_array_sort
             (flat_map (emit query_utf8 active_biases groups)
                (seq 0 (length groups)))
             cmp_scores)))
    (filter (passes query_utf8 active_biases groups) (seq 0 (length groups))).
Proof.
  rewrite map_idx_wrap, g_array_sort_perm. now rewrite emit_indices.
Qed.

(** Each ranked result carries its candidate and the candidate's score. *)
Lemma ranked_sound (query_utf8 : cstr) (active_biases : list BiasData)
  (groups : list BzEntryGroup) :
  Forall (result_of_candidate query_utf8 active_biases groups)
    (wrap_results groups
       (g_array_sort
          (flat_map (emit query_utf8 active_biases groups)
             (seq 0 (length groups)))
          cmp_scores)).
Proof.
  apply (wrap_results_Forall groups
           (fun score =>
              (d_lit 1 <? val score)%D = true
              /\ exists group,
                   nth_error groups (idx score) = Some group
                   /\ searchable group = true
                   /\ final_score query_utf8 active_biases group
                      = Some (val score))).
  - intros score [_ (group & Hn & _ & Hf)]. exists group.
    cbn [sr_original_index sr_group sr_score]. auto.
  - eapply Permutation_Forall;
      [symmetry; apply g_array_sort_perm|apply emit_sound].
Qed.

(** The ranked results descend. *)
Lemma ranked_sorted (Hord : double_order) (query_utf8 : cstr)
  (active_biases : list BiasData) (groups : list BzEntryGroup) :
  StronglySorted not_below
    (wrap_results groups
       (g_array_sort
          (flat_map (emit query_utf8 active_biases groups)
             (seq 0 (length groups)))
          cmp_scores)).
Proof.
  apply wrap_results_sorted, (cmp_scores_sorts Hord).
  eapply Forall_impl; [|apply emit_sound]. now intros score [H _].
Qed.

(** C7: a query that does not take the first branch resolves to a result
    list that holds exactly the candidates of the snapshot that are
    searchable and whose score after the biases is above the threshold
    1.0, each once and with that score, sorted by descending score. *)
Theorem results_are_the_ranked_matches (num_processors : nat)
  (self : BzSearchEngine) (groups : list BzEntryGroup) (first : cstr)
  (rest : list cstr) :
  double_order ->
  model self = Some groups -> groups <> [] -> first <> [] ->
  c_string first ->
  Forall (fun group => searchable group = true -> id group <> None) groups ->
  let collected :=
    collect_biases (g_strjoinv (utf8 " ") (first :: rest))
      (biases_mirror self) in
  exists finished,
    bz_search_engine_query num_processors self (first :: rest)
    = Resolved finished
    /\ interpreted_query finished = fst collected
    /\ Permutation (map sr_original_index (results finished))
         (filter (passes (fst collected) (snd collected) groups)
            (seq 0 (length groups)))
    /\ Forall (result_of_candidate (fst collected) (snd collected) groups)
         (results finished)
    /\ StronglySorted not_below (results finished)
    /\ n_results finished = length (results finished).
Proof.
  intros Hord Hmodel Hgroups Hfirst Hc Hids collected.
  eexists. split.
  - exact (query_second_branch num_processors self groups first rest
             Hmodel Hgroups Hfirst Hc Hids).
  - cbn [interpreted_query results n_results]. fold collected.
    split; [reflexivity|]. split; [|split; [|split]].
    + apply ranked_indices.
    + apply ranked_sound.
    + now apply ranked_sorted.
    + reflexivity.
Qed.

End RankingFacts.

(** The exact rationals satisfy what the ranking needs. *)
Lemma Qltb_lt (a b : Q) : Qltb a b = true <-> (a < b)%Q.
Proof.
  unfold Qltb. rewrite Qlt_alt. destruct (a ?= b)%Q; split; congruence.
Qed.

Lemma Qltb_ge (a b : Q) : Qltb a b = false <-> (b <= a)%Q.
Proof.
  rewrite <- Bool.not_true_iff_false, Qltb_lt. split.
  - apply Qnot_lt_le.
  - apply Qle_not_lt.
Qed.

Lemma rational_order : @double_order rational.
Proof.
  constructor; cbn [double d_lt d_sub d_lit rational].
  - intros a b. destruct (Qltb a b) eqn:Hab.
    + apply Qltb_lt. apply Qltb_lt in Hab.
      apply (Qplus_lt_l _ _ b). ring_simplify. exact Hab.
    + apply Qltb_ge. apply Qltb_ge in Hab.
      apply (Qplus_le_l _ _ b). ring_simplify. exact Hab.
  - intros a b Hab. apply Qltb_ge. apply Qltb_lt in Hab.
    now apply Qlt_le_weak.
  - intros a b c _ _ _ Hab Hbc. apply Qltb_ge.
    apply Qltb_ge in Hab. apply Qltb_ge in Hbc.
    now apply (Qle_trans _ b).
Qed.

Lemma results_are_the_ranked_matches_witness :
  exists finished,
    bz_search_engine_query 4 (Sample.engine [Sample.fire_bias])
      [utf8 "web"; utf8 "browser"]
    = Resolved finished
    /\ interpreted_query finished = utf8 "web browser"
    /\ Permutation (map sr_original_index (results finished)) [0%nat; 1%nat]
    /\ Forall (result_of_candidate (utf8 "web browser") [] Sample.catalog)
         (results finished)
    /\ StronglySorted not_below (results finished)
    /\ n_results finished = length (results finished).
Proof.
  apply (@results_are_the_ranked_matches ascii_case rational literal_engine
           4 (Sample.engine [Sample.fire_bias]) Sample.catalog
           (utf8 "web") [utf8 "browser"]).
  - exact rational_order.
  - reflexivity.
  - discriminate.
  - discriminate.
  - intros H. vm_compute in H. intuition discriminate.
  - repeat constructor; discriminate.
Defined.

(* ------------------------------------------------------------------ *)
(** ** The public operation *)

Section FacadeFacts.
Context {U : Unicode} {DBL : Double} {RE : RegexEngine}.

Lemma unranked_groups (groups : list BzEntryGroup) (i : nat) :
  map sr_group (unranked_results groups i) = map Some groups.
Proof.
  revert i. induction groups as [|g groups IH]; intros i; [reflexivity|].
  cbn [unranked_results map sr_group]. now rewrite IH.
Qed.

Lemma unranked_indices (groups : list BzEntryGroup) (i : nat) :
  map sr_original_index (unranked_results groups i) = seq i (length groups).
Proof.
  revert i. induction groups as [|g groups IH]; intros i; [reflexivity|].
  cbn [unranked_results map sr_original_index length seq]. now rewrite IH.
Qed.

Lemma unranked_scores (groups : list BzEntryGroup) (i : nat) :
  Forall (fun r => sr_score r = None) (unranked_results groups i).
Proof.
  revert i. induction groups as [|g groups IH]; intros i; constructor.
  - reflexivity.
  - apply IH.
Qed.

Lemma empty_first_term (first : cstr) :
  c_string first -> (g_utf8_get_char first =? 0) = is_nil first.
Proof.
  intros Hc. destruct first as [|c first']; [reflexivity|].
  cbn [g_utf8_get_char is_nil]. apply Z.eqb_neq. intros ->.
  apply Hc. now left.
Qed.

Lemma no_groups (list_model : option (list BzEntryGroup)) :
  (length (groups_of list_model) =? 0)%nat = is_nil (groups_of list_model).
Proof. now destruct (groups_of list_model). Qed.

(** The branch taken by the query. *)
Lemma query_branches (num_processors : nat) (self : BzSearchEngine)
  (first : cstr) (rest : list cstr) :
  c_string first ->
  bz_search_engine_query num_processors self (first :: rest)
  = if trivial_path self first
    then Resolved (every_candidate self)
    else query_task_fiber num_processors
           {| terms := first :: rest;
              snapshot := groups_of (model self);
              task_biases := biases_mirror self |}.
Proof.
  intros Hc. unfold bz_search_engine_query, trivial_path.
  now rewrite empty_first_term, no_groups.
Qed.

(** C4 (as amended): when there is no backing collection, the collection
    is empty, or the first term is the empty string, the query resolves
    (it is never an error) to every candidate exactly once, in the order
    of the collection, without a score, and to an empty interpreted
    query. *)
Theorem first_branch_returns_every_candidate (num_processors : nat)
  (self : BzSearchEngine) (first : cstr) (rest : list cstr) :
  model self = None \/ groups_of (model self) = [] \/ first = [] ->
  exists finished,
    bz_search_engine_query num_processors self (first :: rest)
    = Resolved finished
    /\ interpreted_query finished = []
    /\ map sr_group (results finished) = map Some (groups_of (model self))
    /\ map sr_original_index (results finished)
       = seq 0 (length (groups_of (model self)))
    /\ Forall (fun r => sr_score r = None) (results finished)
    /\ n_results finished = length (groups_of (model self)).
Proof.
  intros H. exists (every_candidate self). split.
  - unfold bz_search_engine_query, every_candidate.
    destruct H as [H|[H|H]]; rewrite H.
    + reflexivity.
    + cbn [length Nat.eqb]. now rewrite orb_true_r.
    + cbn [g_utf8_get_char Z.eqb]. now rewrite orb_true_r.
  - cbn [every_candidate interpreted_query results n_results].
    repeat split.
    + apply unranked_groups.
    + apply unranked_indices.
    + apply unranked_scores.
Qed.

End FacadeFacts.

Lemma first_branch_returns_every_candidate_witness :
  exists finished,
    bz_search_engine_query 4 (Sample.engine [Sample.fire_bias])
      [utf8 ""; utf8 "fire"]
    = Resolved finished
    /\ interpreted_query finished = []
    /\ map sr_group (results finished) = map Some Sample.catalog
    /\ map sr_original_index (results finished) = [0; 1; 2]%nat
    /\ Forall (fun r => sr_score r = None) (results finished)
    /\ n_results finished = 3%nat.
Proof.
  apply (@first_branch_returns_every_candidate ascii_case rational
           literal_engine 4 (Sample.engine [Sample.fire_bias])
           (utf8 "") [utf8 "fire"]).
  right. right. reflexivity.
Defined.

(** C4, as stated, fails: the joined query " " is white space, and the
    query is searched for; no candidate is returned and the interpreted
    query is not empty. *)
Lemma whitespace_query_is_searched :
  forallb unicode_white_space (g_strjoinv (utf8 " ") [utf8 " "]) = true
  /\ bz_search_engine_query 4 (Sample.engine []) [utf8 " "]
     = Resolved {| interpreted_query := utf8 " ";
                   results := [];
                   n_results := 0 |}.
Proof. vm_compute. split; reflexivity. Qed.

(* ------------------------------------------------------------------ *)
(** ** Scores of one candidate *)

Section CandidateFacts.
Context {U : Unicode} {DBL : Double} {RE : RegexEngine}.

Lemma against_step_unrestricted (accept_min_size : Z) (q : token)
  (st : double * bool) (a : token) :
  accept_min_size <= 0 ->
  against_step accept_min_size q st a = against_step (-1) q st a.
Proof.
  intros H. unfold against_step.
  destruct (Z.gtb_spec accept_min_size 0); [lia|reflexivity].
Qed.

Lemma fold_left_pointwise {A B} (f g : A -> B -> A) (l : list B) (a : A) :
  (forall x y, f x y = g x y) -> fold_left f l a = fold_left g l a.
Proof.
  intros H. revert a. induction l as [|y l IH]; intros a; [reflexivity|].
  cbn [fold_left]. now rewrite H, IH.
Qed.

Lemma query_loop_unrestricted (accept_min_size : Z)
  (against_tokens qs : list token) (score : double) :
  accept_min_size <= 0 ->
  query_loop accept_min_size against_tokens qs score
  = query_loop (-1) against_tokens qs score.
Proof.
  intros H. revert score. induction qs as [|q qs IH]; intros score;
    [reflexivity|].
  cbn [query_loop].
  rewrite (fold_left_pointwise (against_step accept_min_size q)
             (against_step (-1) q))
    by (intros; now apply against_step_unrestricted).
  destruct (fold_left (against_step (-1) q) against_tokens (score, false))
    as [score' has_match].
  destruct has_match; [apply IH|reflexivity].
Qed.

(** C5: for a candidate that is not an exact match the score before the
    biases is title * 2.0 + developer * 1.0 + description * 1.0 +
    search tokens * 1.5, accumulated in this order from 0; each field is
    scored by the scoring function, with the guard 2 for the title, 2 for
    the developer, 3 for the description and the guard -1, which
    restricts nothing, for the search tokens; a NULL field counts 0. *)
Theorem weighted_field_scores (query_utf8 : cstr) (group : BzEntryGroup) :
  exact_match query_utf8 group = false ->
  initial_score query_utf8 group
  = (d_lit 0
     + EVALUATE_STRING query_utf8 (title group) 2 * d_lit 2
     + EVALUATE_STRING query_utf8 (developer group) 2 * d_lit 1
     + EVALUATE_STRING query_utf8 (description group) 3 * d_lit 1
     + EVALUATE_STRING query_utf8 (search_tokens group) (-1)
       * d_lit (3 # 2))%D
  /\ (forall field accept_min_size,
         EVALUATE_STRING query_utf8 (Some field) accept_min_size
         = test_strings query_utf8 field accept_min_size)
  /\ (forall accept_min_size,
         EVALUATE_STRING query_utf8 None accept_min_size = d_lit 0)
  /\ (forall field accept_min_size,
         accept_min_size <= 0 ->
         test_strings query_utf8 field accept_min_size
         = test_strings query_utf8 field (-1)).
Proof.
  intros Hexact. unfold initial_score. rewrite Hexact.
  repeat split.
  intros field accept_min_size H. unfold test_strings.
  now apply query_loop_unrestricted.
Qed.

Lemma cstr_eqb_refl (a : cstr) : cstr_eqb a a = true.
Proof.
  induction a as [|x a IH]; [reflexivity|].
  cbn [cstr_eqb]. now rewrite Z.eqb_refl, IH.
Qed.

Lemma cstr_eqb_eq (a b : cstr) : cstr_eqb a b = true <-> a = b.
Proof.
  split; [|intros ->; apply cstr_eqb_refl].
  revert b. induction a as [|x a IH]; intros [|y b]; cbn [cstr_eqb];
    try discriminate; [reflexivity|].
  intros H. apply andb_true_iff in H. destruct H as [Hxy Hab].
  apply Z.eqb_eq in Hxy. subst y. f_equal. now apply IH.
Qed.

Lemma g_hash_table_contains_In (table : list cstr) (key : cstr) :
  g_hash_table_contains table key = true <-> In key table.
Proof.
  unfold g_hash_table_contains. rewrite existsb_exists. split.
  - intros (x & Hx & He). apply cstr_eqb_eq in He. now subst x.
  - intros H. exists key. split; [assumption|apply cstr_eqb_refl].
Qed.

(** The entry of a specification that carries a compiling pattern, a
    non-empty boost list and a linear function only. *)
Lemma linear_boost_entry (bias : BzSearchBias) (regex_string : cstr)
  (compiled : GRegex) (appids : list cstr) (slope y : double) :
  bias_regex bias = Some regex_string ->
  g_regex_new regex_string = Some compiled ->
  bias_boost_appids bias = Some appids -> appids <> [] ->
  bias_linear_boost bias = Some (slope, y) ->
  bias_exponential_boost bias = None ->
  bias_entry bias
  = {| invalid := false;
       regex := Some compiled;
       convert_to := bias_convert_to bias;
       boost := Some appids;
       boost_kind := LINEAR;
       slope_or_factor := slope;
       y_intercept := y |}.
Proof.
  intros Hr Hc Ha Hne Hl He.
  unfold bias_entry, bias_incomplete, bias_two_functions, make_boost.
  rewrite Hr, Hc, Ha, Hl, He. cbn [is_null negb andb orb].
  rewrite andb_false_r. cbn [orb].
  destruct appids; [congruence|reflexivity].
Qed.

(** C6: for a candidate with an identifier, the biases whose boost set
    holds the identifier are applied in the order of the table, each
    replacing the running score: a linear bias by slope * score +
    intercept, an exponential bias by factor ^ score + intercept.  In
    particular a single active linear bias whose boost set holds the
    identifier turns the score [base] of the candidate without biases
    into slope * base + intercept, which is 2 * base + 1 for the slope 2
    and the intercept 1. *)
Theorem boosts_replace_the_score (query_utf8 : cstr)
  (active_biases : list BiasData) (group : BzEntryGroup) (key : cstr) :
  id group = Some key ->
  final_score query_utf8 active_biases group
  = Some (fold_left (fun score bias => boost_switch bias score)
            (filter (fun bias => boosts bias key) active_biases)
            (initial_score query_utf8 group))
  /\ (forall bias score,
         boost_kind bias = LINEAR ->
         boost_switch bias score
         = (slope_or_factor bias * score + y_intercept bias)%D)
  /\ (forall bias score,
         boost_kind bias = EXPONENTIAL ->
         boost_switch bias score
         = (d_pow (slope_or_factor bias) score + y_intercept bias)%D)
  /\ (forall bias regex_string compiled appids slope y,
         bias_regex bias = Some regex_string ->
         g_regex_new regex_string = Some compiled ->
         bias_boost_appids bias = Some appids -> In key appids ->
         bias_linear_boost bias = Some (slope, y) ->
         bias_exponential_boost bias = None ->
         exists base,
           final_score query_utf8 [] group = Some base
           /\ final_score query_utf8 [bias_entry bias] group
              = Some (slope * base + y)%D).
Proof.
  intros Hid. unfold final_score. rewrite Hid. split; [|split; [|split]].
  - apply boost_loop_fold.
  - intros bias score Hk. unfold boost_switch. now rewrite Hk.
  - intros bias score Hk. unfold boost_switch. now rewrite Hk.
  - intros bias regex_string compiled appids slope y Hr Hc Ha Hin Hl He.
    exists (initial_score query_utf8 group). split; [reflexivity|].
    rewrite (linear_boost_entry bias regex_string compiled appids slope y);
      try assumption.
    2:{ intros ->. destruct Hin. }
    cbn [boost_loop boost].
    apply g_hash_table_contains_In in Hin. rewrite Hin.
    reflexivity.
Qed.

End CandidateFacts.

Lemma weighted_field_scores_witness :
  initial_score (utf8 "web") Sample.firefox
  = (d_lit 0
     + test_strings (utf8 "web") (utf8 "Firefox") 2 * d_lit 2
     + d_lit 0 * d_lit 1
     + d_lit 0 * d_lit 1
     + test_strings (utf8 "web") (utf8 "web browser") (-1) * d_lit (3 # 2))%D.
Proof.
  apply (@weighted_field_scores ascii_case rational
           (utf8 "web") Sample.firefox).
  reflexivity.
Defined.

Lemma boosts_replace_the_score_witness :
  exists base,
    final_score (utf8 "fire") [] Sample.firefox = Some base
    /\ final_score (utf8 "fire") [bias_entry Sample.fire_bias] Sample.firefox
       = Some (d_lit 2 * base + d_lit 1)%D.
Proof.
  apply (@boosts_replace_the_score ascii_case rational literal_engine
           (utf8 "fire") [] Sample.firefox (utf8 "org.mozilla.firefox")
           eq_refl)
    with (regex_string := utf8 "fire") (compiled := utf8 "fire")
         (appids := [utf8 "org.mozilla.firefox"]);
    try reflexivity.
  now left.
Defined.

(* ------------------------------------------------------------------ *)
(** ** Queries made of separators *)

Section EmptyQueryFacts.
Context {U : Unicode} {DBL : Double} {RE : RegexEngine}.
Variable null : double -> Prop.
Hypothesis Hnull : double_null null.

Lemma skip_loop_separators (p s : cstr) (read_utf8 : Z) :
  Forall (fun c => is_space_separator c = true) p ->
  skip_loop G_UNICODE_SPACE_SEPARATOR p s false read_utf8
  = ([], s, read_utf8).
Proof.
  induction 1 as [|c p Hc _ IH]; [reflexivity|].
  cbn [skip_loop]. unfold utf8_char_class, g_utf8_get_char.
  unfold is_space_separator in Hc. now rewrite Hc.
Qed.

(** A string of separators has at most one token, of length 0. *)
Lemma tokens_of_separators (fuel : nat) (s : cstr) :
  Forall (fun c => is_space_separator c = true) s ->
  Forall (fun q => tok_utf8_len q = 0) (tokens_from fuel s).
Proof.
  intros Hs. destruct fuel as [|fuel]; [constructor|].
  cbn [tokens_from]. unfold utf8_skip_to_next_of_class.
  rewrite skip_loop_separators by assumption.
  destruct s as [|c s']; [constructor|].
  constructor; [reflexivity|].
  destruct fuel; constructor.
Qed.

Lemma against_fold_null (accept_min_size : Z) (q : token)
  (against_tokens : list token) (st : double * bool) :
  tok_utf8_len q = 0 -> null (fst st) ->
  null (fst (fold_left (against_step accept_min_size q) against_tokens st)).
Proof.
  intros Hq. revert st.
  induction against_tokens as [|a against_tokens IH]; intros st Hst;
    [assumption|].
  cbn [fold_left]. apply IH. unfold against_step.
  destruct ((accept_min_size >? 0) && (tok_utf8_len a <? accept_min_size));
    [assumption|].
  destruct (token_matches q a); [|assumption].
  cbn [fst]. rewrite Hq. cbn [Z.mul]. rewrite Zmod_0_l.
  apply (null_add _ Hnull); [assumption|apply (null_div _ Hnull)].
Qed.

Lemma query_loop_null (accept_min_size : Z) (against_tokens qs : list token)
  (score : double) :
  Forall (fun q => tok_utf8_len q = 0) qs -> null score ->
  null (query_loop accept_min_size against_tokens qs score).
Proof.
  intros Hqs. revert score.
  induction Hqs as [|q qs Hq _ IH]; intros score Hscore; [assumption|].
  cbn [query_loop].
  pose proof (against_fold_null accept_min_size q against_tokens
                (score, false) Hq Hscore) as Hfold.
  destruct (fold_left (against_step accept_min_size q) against_tokens
              (score, false)) as [score' has_match].
  destruct has_match; [now apply IH|apply (null_zero _ Hnull)].
Qed.

Lemma test_strings_null (query against : cstr) (accept_min_size : Z) :
  Forall (fun c => is_space_separator c = true) query ->
  null (test_strings query against accept_min_size).
Proof.
  intros Hq. unfold test_strings. apply query_loop_null.
  - now apply tokens_of_separators.
  - apply (null_zero _ Hnull).
Qed.

Lemma weighted_score_null (query_utf8 : cstr) (group : BzEntryGroup) :
  Forall (fun c => is_space_separator c = true) query_utf8 ->
  null (weighted_score query_utf8 group).
Proof.
  intros Hq.
  assert (He : forall field accept_min_size,
             null (EVALUATE_STRING query_utf8 field accept_min_size)).
  { intros [field|] accept_min_size; cbn [EVALUATE_STRING].
    - now apply test_strings_null.
    - apply (null_zero _ Hnull). }
  unfold weighted_score.
  repeat (apply (null_add _ Hnull)); try (apply (null_mul _ Hnull); apply He).
  apply (null_zero _ Hnull).
Qed.

Lemma separators_c_string (s : cstr) :
  Forall (fun c => is_space_separator c = true) s -> c_string s.
Proof.
  intros Hs Hin. rewrite Forall_forall in Hs.
  specialize (Hs 0 Hin). discriminate.
Qed.

(** Without an active bias and without an exact match, a query made of
    separators ranks nothing. *)
Lemma separators_rank_nothing (num_processors : nat)
  (shallow_mirror : list BzEntryGroup) (table : list BiasData)
  (query_terms : list cstr) :
  let query_utf8 := g_strjoinv (utf8 " ") query_terms in
  Forall (fun c => is_space_separator c = true) query_utf8 ->
  collect_biases query_utf8 table = (query_utf8, []) ->
  Forall (fun group =>
            searchable group = true -> exact_match query_utf8 group = false)
    shallow_mirror ->
  query_task_fiber num_processors
    {| terms := query_terms;
       snapshot := shallow_mirror;
       task_biases := table |}
  = Resolved {| interpreted_query := query_utf8;
                results := [];
                n_results := 0 |}.
Proof.
  intros query_utf8 Hsep Hcollect Hexact.
  rewrite query_task_fiber_resolved;
    cbn [terms snapshot task_biases]; fold query_utf8; rewrite Hcollect;
    cbn [fst snd].
  2:{ intros group _ _. discriminate. }
  assert (Hemit : forall indices,
             flat_map (emit query_utf8 [] shallow_mirror) indices = []).
  { induction indices as [|j indices IH]; [reflexivity|].
    cbn [flat_map]. rewrite IH, app_nil_r. unfold emit.
    destruct (nth_error shallow_mirror j) as [group|] eqn:Hn; [|reflexivity].
    destruct (searchable group) eqn:Hs; [|reflexivity].
    rewrite Forall_forall in Hexact.
    cbn [final_score boost_loop]. unfold initial_score.
    rewrite (Hexact group) by (eauto using nth_error_In).
    now rewrite (null_below _ Hnull) by (now apply weighted_score_null). }
  rewrite Hemit. reflexivity.
Qed.

End EmptyQueryFacts.

Lemma rational_null : @double_null rational (fun x => x == 0)%Q.
Proof.
  constructor; cbn [double d_lt d_add d_mul d_div d_lit d_of_int rational].
  - reflexivity.
  - intros x. unfold Qdiv. apply Qmult_0_l.
  - intros x y Hx Hy. rewrite Hx, Hy. reflexivity.
  - intros x y Hx. rewrite Hx. apply Qmult_0_l.
  - intros x Hx. apply Qltb_ge. rewrite Hx. discriminate.
Qed.

Section BranchFacts.
Context {U : Unicode} {DBL : Double} {RE : RegexEngine}.

(** C10 (as amended): the first branch, which returns every candidate
    unranked, is taken exactly when there is no model, the model has no
    item, or the first term is the empty string; so the terms "" and "x"
    return every candidate without a search for "x", and a single term
    made of space separators is searched for.  That search ranks nothing
    when the term activates no bias and no searchable candidate has it as
    its identifier or, up to case, as its title. *)
Theorem first_term_decides_the_branch (null : double -> Prop)
  (num_processors : nat) (self : BzSearchEngine) :
  double_null null ->
  (forall first rest,
      c_string first ->
      bz_search_engine_query num_processors self (first :: rest)
      = if trivial_path self first
        then Resolved (every_candidate self)
        else query_task_fiber num_processors
               {| terms := first :: rest;
                  snapshot := groups_of (model self);
                  task_biases := biases_mirror self |})
  /\ bz_search_engine_query num_processors self [utf8 ""; utf8 "x"]
     = Resolved (every_candidate self)
  /\ (forall term groups,
         term <> [] ->
         Forall (fun c => is_space_separator c = true) term ->
         model self = Some groups -> groups <> [] ->
         bz_search_engine_query num_processors self [term]
         = query_task_fiber num_processors
             {| terms := [term];
                snapshot := groups;
                task_biases := biases_mirror self |}
         /\ (collect_biases term (biases_mirror self) = (term, []) ->
             Forall (fun group =>
                       searchable group = true ->
                       exact_match term group = false) groups ->
             bz_search_engine_query num_processors self [term]
             = Resolved {| interpreted_query := term;
                           results := [];
                           n_results := 0 |})).
Proof.
  intros Hnull. split; [|split].
  - intros first rest Hc. now apply query_branches.
  - rewrite query_branches by (intros []). unfold trivial_path.
    cbn [utf8 list_ascii_of_string map is_nil]. now rewrite orb_true_r.
  - intros term groups Hne Hsep Hmodel Hgroups.
    assert (Hq : bz_search_engine_query num_processors self [term]
                 = query_task_fiber num_processors
                     {| terms := [term];
                        snapshot := groups;
                        task_biases := biases_mirror self |}).
    { rewrite query_branches by (now apply separators_c_string).
      unfold trivial_path. rewrite Hmodel. cbn [is_null groups_of orb].
      destruct groups; [congruence|]. destruct term; [congruence|].
      reflexivity. }
    split; [exact Hq|].
    intros Hcollect Hexact. rewrite Hq.
    apply (separators_rank_nothing null Hnull num_processors groups
             (biases_mirror self) [term]); assumption.
Qed.





End BranchFacts.

Lemma first_term_decides_the_branch_witness :
  bz_search_engine_query 4 (Sample.engine [Sample.fire_bias]) [utf8 "  "]
  = Resolved {| interpreted_query := utf8 "  ";
                results := [];
                n_results := 0 |}.
Proof.
  apply (@first_term_decides_the_branch ascii_case rational literal_engine
           (fun x => x == 0)%Q 4 (Sample.engine [Sample.fire_bias])
           rational_null)
    with (groups := Sample.catalog).
  - discriminate.
  - repeat constructor.
  - reflexivity.
  - discriminate.
  - reflexivity.
  - repeat constructor.
Defined.

(** C10, as stated, fails: a single term of white space can rank a
    candidate, here through a bias that the term activates. *)
Lemma whitespace_query_can_rank :
  forallb unicode_white_space (utf8 " ") = true
  /\ exists finished,
       bz_search_engine_query 4 (Sample.engine [Sample.space_bias])
         [utf8 " "]
       = Resolved finished
       /\ map sr_original_index (results finished) = [0%nat]
       /\ map sr_group (results finished) = [Some Sample.firefox].
Proof.
  split; [reflexivity|].
  eexists. split; [vm_compute; reflexivity|]. split; reflexivity.
Qed.



(* ------------------------------------------------------------------ *)
(** ** The scoring function *)

Section TokenFacts.
Context {U : Unicode} {DBL : Double}.

Lemma take_drop_while (f : gunichar -> bool) (s : cstr) :
  take_while f s ++ drop_while f s = s.
Proof.
  induction s as [|c s IH]; [reflexivity|].
  cbn [take_while drop_while]. destruct (f c); [|reflexivity].
  cbn [app]. now rewrite IH.
Qed.

Lemma drop_while_length (f : gunichar -> bool) (s : cstr) :
  (length (drop_while f s) <= length s)%nat.
Proof.
  induction s as [|c s IH]; [reflexivity|].
  cbn [drop_while]. destruct (f c); cbn [length]; lia.
Qed.

Lemma drop_while_suffix (f : gunichar -> bool) (s : cstr) :
  exists pre, s = pre ++ drop_while f s /\ Forall (fun c => f c = true) pre.
Proof.
  induction s as [|c s (pre & Hs & Hpre)].
  - exists []. split; [reflexivity|constructor].
  - cbn [drop_while]. destruct (f c) eqn:Hc.
    + exists (c :: pre). split; [cbn; now rewrite <- Hs|now constructor].
    + exists []. split; [reflexivity|constructor].
Qed.

Lemma drop_while_head (f : gunichar -> bool) (s : cstr) (c : gunichar)
  (s1 : cstr) :
  drop_while f s = c :: s1 -> f c = false.
Proof.
  induction s as [|x s IH]; [discriminate|].
  cbn [drop_while]. destruct (f x) eqn:Hx; [exact IH|].
  intros H. injection H as -> _. exact Hx.
Qed.

Lemma take_while_all (f : gunichar -> bool) (s : cstr) :
  Forall (fun c => f c = true) (take_while f s).
Proof.
  induction s as [|c s IH]; [constructor|].
  cbn [take_while]. destruct (f c) eqn:Hc; [now constructor|constructor].
Qed.

Lemma utf8_char_class_separator (c : gunichar) (p : cstr) :
  GUnicodeType_eqb (utf8_char_class (c :: p)) G_UNICODE_SPACE_SEPARATOR
  = is_space_separator c.
Proof. reflexivity. Qed.

(** The skip, once a character outside the class was seen. *)
Lemma skip_loop_in_token (p s : cstr) (read_utf8 : Z) :
  skip_loop G_UNICODE_SPACE_SEPARATOR p s true read_utf8
  = (drop_while not_separator p, s,
     read_utf8 + Z.of_nat (length (take_while not_separator p))).
Proof.
  revert read_utf8. induction p as [|c p IH]; intros read_utf8.
  - cbn. now rewrite Z.add_0_r.
  - cbn [skip_loop take_while drop_while].
    rewrite utf8_char_class_separator. unfold not_separator at 1 3.
    destruct (is_space_separator c); cbn [negb].
    + cbn [length]. now rewrite Z.add_0_r.
    + rewrite IH. cbn [length]. f_equal. lia.
Qed.

(** The skip from the start of a round. *)
Lemma skip_loop_start (p s : cstr) :
  skip_loop G_UNICODE_SPACE_SEPARATOR p s false 0
  = match drop_while is_space_separator p with
    | [] => ([], s, 0)
    | c :: s1 =>
        (drop_while not_separator (c :: s1), c :: s1,
         Z.of_nat (length (take_while not_separator (c :: s1))))
    end.
Proof.
  induction p as [|c p IH]; [reflexivity|].
  cbn [skip_loop drop_while]. rewrite utf8_char_class_separator.
  destruct (is_space_separator c) eqn:Hc; [exact IH|].
  rewrite skip_loop_in_token.
  cbn [take_while drop_while]. unfold not_separator at 1 3 5.
  rewrite Hc. cbn [negb length]. f_equal. lia.
Qed.

Lemma tokens_from_nil (fuel : nat) : tokens_from fuel [] = [].
Proof. now destruct fuel. Qed.

(** One round of the token macro. *)
Lemma tokens_from_step (fuel : nat) (s : cstr) :
  tokens_from (S fuel) s
  = match drop_while is_space_separator s with
    | [] =>
        match s with
        | [] => []
        | _ :: _ => [{| tok_start := s; tok_end := []; tok_utf8_len := 0 |}]
        end
    | c :: s1 =>
        proper_token (take_while not_separator (c :: s1))
          (drop_while not_separator (c :: s1))
        :: tokens_from fuel (drop_while not_separator (c :: s1))
    end.
Proof.
  cbn [tokens_from]. unfold utf8_skip_to_next_of_class.
  rewrite skip_loop_start.
  destruct (drop_while is_space_separator s) as [|c s1] eqn:Hd.
  - destruct s; [reflexivity|]. now rewrite tokens_from_nil.
  - unfold proper_token. now rewrite take_drop_while.
Qed.

Lemma split_tokens_run (w rest cur : cstr) :
  Forall (fun c => not_separator c = true) w ->
  split_tokens is_space_separator (w ++ rest) cur
  = split_tokens is_space_separator rest (cur ++ w).
Proof.
  intros Hw. revert cur. induction Hw as [|c w Hc _ IH]; intros cur.
  - now rewrite app_nil_r.
  - cbn [app split_tokens]. unfold not_separator in Hc.
    apply negb_true_iff in Hc. rewrite Hc, IH.
    now rewrite <- app_assoc.
Qed.

Lemma split_tokens_separators (pre rest : cstr) :
  Forall (fun c => is_space_separator c = true) pre ->
  split_tokens is_space_separator (pre ++ rest) []
  = split_tokens is_space_separator rest [].
Proof.
  induction 1 as [|c pre Hc _ IH]; [reflexivity|].
  cbn [app split_tokens is_nil]. now rewrite Hc.
Qed.

(** What follows a run is empty or starts with a separator. *)
Lemma split_tokens_after_run (rest cur : cstr) :
  cur <> [] ->
  drop_while not_separator rest = rest ->
  split_tokens is_space_separator rest cur
  = cur :: split_tokens is_space_separator rest [].
Proof.
  intros Hcur Hrest. destruct rest as [|c rest'].
  - cbn. destruct cur; [congruence|reflexivity].
  - cbn [drop_while] in Hrest. unfold not_separator in Hrest.
    destruct (is_space_separator c) eqn:Hc; cbn [negb] in Hrest.
    + cbn [split_tokens is_nil]. rewrite Hc.
      destruct cur; [congruence|reflexivity].
    + exfalso. pose proof (drop_while_length not_separator rest') as Hl.
      unfold not_separator in Hl. rewrite Hrest in Hl. cbn [length] in Hl. lia.
Qed.

Lemma drop_while_idem (f : gunichar -> bool) (s : cstr) :
  drop_while f (drop_while f s) = drop_while f s.
Proof.
  induction s as [|c s IH]; [reflexivity|].
  cbn [drop_while]. destruct (f c) eqn:Hc; [exact IH|].
  cbn [drop_while]. now rewrite Hc.
Qed.

(** One round of the splitting. *)
Lemma split_tokens_step (s : cstr) :
  split_tokens is_space_separator s []
  = match drop_while is_space_separator s with
    | [] => []
    | c :: s1 =>
        take_while not_separator (c :: s1)
        :: split_tokens is_space_separator
             (drop_while not_separator (c :: s1)) []
    end.
Proof.
  destruct (drop_while_suffix is_space_separator s) as (pre & Hs & Hpre).
  rewrite Hs at 1. rewrite split_tokens_separators by assumption.
  destruct (drop_while is_space_separator s) as [|c s1] eqn:Hd;
    [reflexivity|].
  rewrite <- (take_drop_while not_separator (c :: s1)) at 1.
  rewrite split_tokens_run by apply take_while_all.
  cbn [app]. apply split_tokens_after_run.
  - apply drop_while_head in Hd. cbn [take_while]. unfold not_separator.
    rewrite Hd. discriminate.
  - apply drop_while_idem.
Qed.

Lemma split_tokens_segments (fuel : nat) (s : cstr) :
  (length s < fuel)%nat ->
  split_tokens is_space_separator s [] = map fst (segments fuel s).
Proof.
  revert s. induction fuel as [|fuel IH]; intros s Hlen; [lia|].
  rewrite split_tokens_step. cbn [segments].
  destruct (drop_while is_space_separator s) as [|c s1] eqn:Hd;
    [reflexivity|].
  cbn [map fst]. f_equal. apply IH.
  pose proof (drop_while_length is_space_separator s) as H1.
  pose proof (drop_while_length not_separator (c :: s1)) as H2.
  rewrite Hd in H1.
  assert (Hc : not_separator c = true)
    by (unfold not_separator; apply drop_while_head in Hd; now rewrite Hd).
  cbn [drop_while] in *. rewrite Hc in *.
  pose proof (drop_while_length not_separator s1). cbn [length] in *. lia.
Qed.

(** The tokens of the macro are the runs of the string, followed by one
    more token of length 0 when the string ends in separators. *)
Lemma tokens_from_segments (fuel : nat) (s : cstr) :
  (length s < fuel)%nat ->
  exists spurious,
    tokens_from fuel s
    = map (fun wr => proper_token (fst wr) (snd wr)) (segments fuel s)
      ++ spurious
    /\ (spurious = []
        \/ exists t pre c,
             spurious
             = [{| tok_start := t; tok_end := []; tok_utf8_len := 0 |}]
             /\ t <> [] /\ s = pre ++ [c] /\ is_space_separator c = true).
Proof.
  revert s. induction fuel as [|fuel IH]; intros s Hlen; [lia|].
  rewrite tokens_from_step. cbn [segments].
  destruct (drop_while_suffix is_space_separator s) as (pre & Hs & Hpre).
  destruct (drop_while is_space_separator s) as [|c s1] eqn:Hd.
  - rewrite app_nil_r in Hs. subst pre.
    destruct s as [|c0 s0].
    + exists []. split; [reflexivity|now left].
    + eexists. split; [reflexivity|]. right.
      destruct (exists_last (l := c0 :: s0)) as (pre & c & Heq);
        [discriminate|].
      exists (c0 :: s0), pre, c. repeat split; [discriminate|exact Heq|].
      rewrite Heq in Hpre. apply Forall_app in Hpre.
      destruct Hpre as [_ Hc]. now inversion Hc.
  - set (rest := drop_while not_separator (c :: s1)).
    assert (Hrest : (length rest < fuel)%nat).
    { pose proof (drop_while_length is_space_separator s) as H1.
      rewrite Hd in H1.
      assert (Hc : not_separator c = true)
        by (unfold not_separator; apply drop_while_head in Hd;
            now rewrite Hd).
      subst rest. cbn [drop_while]. rewrite Hc.
      pose proof (drop_while_length not_separator s1).
      cbn [length] in *. lia. }
    destruct (IH rest Hrest) as (spurious & Ht & Hsp).
    exists spurious. split.
    + cbn [map fst snd app]. fold rest. now rewrite Ht.
    + destruct Hsp as [->|(t & pre' & c' & Hsp & Hne & Hr & Hc')];
        [now left|].
      right. exists t, (pre ++ take_while not_separator (c :: s1) ++ pre'), c'.
      repeat split; try assumption.
      assert (Hcs : c :: s1 = take_while not_separator (c :: s1) ++ rest)
        by (symmetry; apply take_drop_while).
      rewrite Hs. rewrite Hcs at 1. rewrite Hr. now rewrite <- !app_assoc.
Qed.

Lemma take_while_length (f : gunichar -> bool) (s : cstr) :
  (length (take_while f s) <= length s)%nat.
Proof.
  induction s as [|c s IH]; [reflexivity|].
  cbn [take_while]. destruct (f c); cbn [length]; lia.
Qed.

(** The runs are not empty and not longer than the string. *)
Lemma segments_words (fuel : nat) (s : cstr) :
  Forall (fun wr => fst wr <> [] /\ (length (fst wr) <= length s)%nat)
    (segments fuel s).
Proof.
  revert s. induction fuel as [|fuel IH]; intros s; [constructor|].
  cbn [segments].
  destruct (drop_while is_space_separator s) as [|c s1] eqn:Hd;
    [constructor|].
  pose proof (drop_while_length is_space_separator s) as H1.
  rewrite Hd in H1.
  assert (Hc : not_separator c = true)
    by (unfold not_separator; apply drop_while_head in Hd; now rewrite Hd).
  constructor.
  - cbn [fst]. split.
    + cbn [take_while]. rewrite Hc. discriminate.
    + pose proof (take_while_length not_separator (c :: s1)). lia.
  - eapply Forall_impl; [|apply IH].
    intros wr [Hne Hl]. split; [exact Hne|].
    pose proof (drop_while_length not_separator (c :: s1)). lia.
Qed.

Lemma ci_eqb_length (a b : cstr) :
  ci_eqb a b = true -> length a = length b.
Proof.
  revert b. induction a as [|x a IH]; intros [|y b]; cbn [ci_eqb];
    try discriminate; [reflexivity|].
  intros H. apply andb_true_iff in H. destruct H as [_ H].
  cbn [length]. f_equal. now apply IH.
Qed.

Lemma ci_eqb_no_room (w v : cstr) :
  (length v < length w)%nat -> ci_eqb w (firstn (length w) v) = false.
Proof.
  intros H. destruct (ci_eqb w (firstn (length w) v)) eqn:He; [|reflexivity].
  apply ci_eqb_length in He. rewrite length_firstn in He. lia.
Qed.

(** The innermost loop compares the query token with as many characters
    of the field. *)
Lemma compare_from_spec (w rest p : cstr) :
  (length w <= length p)%nat ->
  compare_from (w ++ rest) rest p = ci_eqb w (firstn (length w) p).
Proof.
  revert p. induction w as [|x w IH]; intros p Hlen.
  - cbn [app length firstn ci_eqb]. destruct rest; [reflexivity|].
    cbn [compare_from]. unfold ptr_lt. now rewrite Nat.ltb_irrefl.
  - destruct p as [|y p]; [cbn in Hlen; lia|].
    cbn [app compare_from]. unfold ptr_lt.
    assert (Hlt : (length rest <? length (x :: w ++ rest))%nat = true)
      by (apply Nat.ltb_lt; cbn [length]; rewrite length_app; lia).
    rewrite Hlt.
    cbn [g_utf8_get_char g_utf8_next_char tl length firstn ci_eqb].
    rewrite (Z.eqb_sym (g_unichar_tolower y)).
    destruct (g_unichar_tolower x =? g_unichar_tolower y); [|reflexivity].
    cbn [andb]. apply IH. cbn [length] in Hlen. lia.
Qed.

Lemma existsb_none {A} (f : A -> bool) (l : list A) :
  (forall x, In x l -> f x = false) -> existsb f l = false.
Proof.
  intros H. induction l as [|x l IH]; [reflexivity|].
  cbn [existsb]. rewrite (H x) by (now left). cbn [orb].
  apply IH. intros y Hy. apply H. now right.
Qed.

(** The loop over the offsets of one field token. *)
Lemma scan_from_spec (wq rq pre u ra : cstr) :
  wq <> [] ->
  Z.of_nat (length (pre ++ u)) < gsize_modulus ->
  scan_from (proper_token wq rq) (u ++ ra) ra
    (Z.of_nat (length (pre ++ u))) (Z.of_nat (length pre))
  = existsb (fun k => ci_eqb wq (firstn (length wq) (skipn k (pre ++ u))))
      (seq (length pre) (S (length u))).
Proof.
  intros Hwq. revert pre. induction u as [|y u IH]; intros pre Hsize.
  - cbn [app seq existsb]. rewrite app_nil_r, skipn_all, firstn_nil.
    destruct wq; [congruence|]. cbn [ci_eqb orb].
    destruct ra; [reflexivity|].
    cbn [scan_from]. unfold ptr_lt. now rewrite Nat.ltb_irrefl.
  - cbn [app scan_from]. unfold ptr_lt.
    assert (Hlt : (length ra <? length (y :: u ++ ra))%nat = true)
      by (apply Nat.ltb_lt; cbn [length]; rewrite length_app; lia).
    rewrite Hlt. cbn [proper_token tok_utf8_len tok_start tok_end].
    rewrite length_app in *. cbn [length] in *.
    assert (Hgs : gsize_modulus = 2 ^ 64) by reflexivity.
    replace ((Z.of_nat (length pre + S (length u)) - Z.of_nat (length pre))
             mod gsize_modulus)
      with (Z.of_nat (S (length u)))
      by (rewrite Z.mod_small; lia).
    destruct (Z.gtb_spec (Z.of_nat (length wq)) (Z.of_nat (S (length u))))
      as [Hgt|Hle].
    + symmetry. apply existsb_none.
      intros k Hk. apply in_seq in Hk. apply ci_eqb_no_room.
      rewrite length_skipn, length_app. cbn [length]. lia.
    + rewrite compare_from_spec
        by (cbn [length]; rewrite length_app; lia).
      change (y :: u ++ ra) with ((y :: u) ++ ra).
      rewrite firstn_app.
      replace (length wq - length (y :: u))%nat with 0%nat
        by (cbn [length]; lia).
      rewrite firstn_O, app_nil_r.
      cbn [seq existsb].
      rewrite skipn_app, skipn_all, Nat.sub_diag, skipn_O. cbn [app].
      destruct (ci_eqb wq (firstn (length wq) (y :: u))); [reflexivity|].
      cbn [orb].
      replace ((Z.of_nat (length pre) + 1) mod gsize_modulus)
        with (Z.of_nat (length (pre ++ [y])))
        by (rewrite length_app, Z.mod_small; cbn [length]; lia).
      replace (Z.of_nat (length pre + S (length u)))
        with (Z.of_nat (length ((pre ++ [y]) ++ u)))
        by (rewrite !length_app; cbn [length]; f_equal; lia).
      rewrite IH by (rewrite !length_app; cbn [length]; lia).
      rewrite <- app_assoc. cbn [app].
      replace (length (pre ++ [y])) with (S (length pre))
        by (rewrite length_app; cbn [length]; lia).
      reflexivity.
Qed.

Lemma token_matches_proper (wq rq wa ra : cstr) :
  wq <> [] -> Z.of_nat (length wa) < gsize_modulus ->
  token_matches (proper_token wq rq) (proper_token wa ra) = occurs_ci wq wa.
Proof.
  intros Hwq Hsize. unfold token_matches, occurs_ci.
  cbn [proper_token tok_start tok_end tok_utf8_len].
  apply (scan_from_spec wq rq [] wa ra Hwq Hsize).
Qed.

Lemma against_step_proper (accept_min_size : Z) (wq rq wa ra : cstr)
  (st : double * bool) :
  wq <> [] -> Z.of_nat (length wq) < 2 ^ 32 ->
  Z.of_nat (length wa) < gsize_modulus ->
  against_step accept_min_size (proper_token wq rq) st (proper_token wa ra)
  = if long_enough accept_min_size wa && occurs_ci wq wa
    then ((fst st + token_credit wq wa)%D, true)
    else st.
Proof.
  intros Hwq Hq Ha. unfold against_step.
  rewrite token_matches_proper by assumption.
  unfold long_enough. cbn [proper_token tok_utf8_len].
  destruct ((accept_min_size >? 0)
            && (Z.of_nat (length wa) <? accept_min_size)); cbn [negb andb];
    [reflexivity|].
  destruct (occurs_ci wq wa); [|reflexivity].
  unfold token_credit. rewrite Z.mod_small; [reflexivity|].
  unfold gsize_modulus. nia.
Qed.

Lemma against_step_spurious (accept_min_size : Z) (wq rq t : cstr)
  (st : double * bool) :
  wq <> [] -> t <> [] ->
  against_step accept_min_size (proper_token wq rq) st
    {| tok_start := t; tok_end := []; tok_utf8_len := 0 |}
  = st.
Proof.
  intros Hwq Ht. unfold against_step. cbn [tok_utf8_len].
  destruct ((accept_min_size >? 0) && (0 <? accept_min_size));
    [reflexivity|].
  unfold token_matches. cbn [tok_start tok_end tok_utf8_len].
  destruct t as [|c t]; [congruence|].
  cbn [scan_from]. unfold ptr_lt. cbn [length Nat.ltb Nat.leb].
  cbn [proper_token tok_utf8_len].
  destruct wq as [|x wq]; [congruence|].
  destruct (Z.gtb_spec (Z.of_nat (length (x :: wq)))
              ((0 - 0) mod gsize_modulus)) as [_|Hle]; [reflexivity|].
  cbn in Hle. lia.
Qed.

(** The loop over the field tokens, for one query token. *)
Lemma against_fold (accept_min_size : Z) (wq rq : cstr)
  (field_segments : list (cstr * cstr)) (spurious : list token)
  (score : double) (has_match : bool) :
  wq <> [] -> Z.of_nat (length wq) < 2 ^ 32 ->
  Forall (fun wr => Z.of_nat (length (fst wr)) < gsize_modulus)
    field_segments ->
  (spurious = []
   \/ exists t,
        spurious = [{| tok_start := t; tok_end := []; tok_utf8_len := 0 |}]
        /\ t <> []) ->
  fold_left (against_step accept_min_size (proper_token wq rq))
    (map (fun wr => proper_token (fst wr) (snd wr)) field_segments
     ++ spurious)
    (score, has_match)
  = (fold_left d_add
       (map (token_credit wq)
          (matching_tokens accept_min_size wq (map fst field_segments)))
       score,
     has_match
     || negb (is_nil (matching_tokens accept_min_size wq
                        (map fst field_segments)))).
Proof.
  intros Hwq Hq Hsizes Hsp. revert score has_match.
  induction Hsizes as [|[wa ra] field_segments Ha _ IH];
    intros score has_match.
  - cbn [map app matching_tokens filter fold_left is_nil negb].
    rewrite orb_false_r.
    destruct Hsp as [->|(t & -> & Ht)]; [reflexivity|].
    cbn [fold_left]. now rewrite against_step_spurious.
  - cbn [map app fold_left fst snd matching_tokens filter].
    cbn [fst] in Ha.
    rewrite against_step_proper by assumption. cbn [fst].
    fold (matching_tokens accept_min_size wq (map fst field_segments)).
    destruct (long_enough accept_min_size wa && occurs_ci wq wa).
    + rewrite IH. cbn [map fold_left is_nil negb].
      now rewrite !orb_true_r.
    + apply IH.
Qed.

(** The loop over the query tokens. *)
Lemma query_loop_spec (accept_min_size : Z)
  (field_segments query_segments : list (cstr * cstr))
  (spurious : list token) (score : double) :
  Forall (fun wr => fst wr <> [] /\ Z.of_nat (length (fst wr)) < 2 ^ 32)
    query_segments ->
  Forall (fun wr => Z.of_nat (length (fst wr)) < gsize_modulus)
    field_segments ->
  (spurious = []
   \/ exists t,
        spurious = [{| tok_start := t; tok_end := []; tok_utf8_len := 0 |}]
        /\ t <> []) ->
  query_loop accept_min_size
    (map (fun wr => proper_token (fst wr) (snd wr)) field_segments
     ++ spurious)
    (map (fun wr => proper_token (fst wr) (snd wr)) query_segments)
    score
  = if forallb
         (fun q =>
            negb (is_nil (matching_tokens accept_min_size q
                            (map fst field_segments))))
         (map fst query_segments)
    then
      fold_left d_add
        (flat_map
           (fun q =>
              map (token_credit q)
                (matching_tokens accept_min_size q
                   (map fst field_segments)))
           (map fst query_segments))
        score
    else d_lit 0.
Proof.
  intros Hqs Hfs Hsp. revert score.
  induction Hqs as [|[wq rq] query_segments [Hwq Hq] _ IH]; intros score;
    [reflexivity|].
  cbn [map query_loop fst snd forallb flat_map]. cbn [fst] in Hwq, Hq.
  rewrite against_fold by assumption. cbn [orb].
  destruct (is_nil (matching_tokens accept_min_size wq
                      (map fst field_segments))); cbn [negb andb];
    [reflexivity|].
  rewrite IH. now rewrite fold_left_app.
Qed.

(** C1 (as amended): for a query string that does not end in a space
    separator, the scoring function returns the sum, added up in scanning
    order, over every query token and every field token not shorter than
    the minimum accepted length (a guard applied only when the bound is
    positive), of len(query token)^2 / len(field token) whenever the query
    token occurs in the field token up to case, code point by code point,
    at some offset; both strings are cut into tokens at the characters of
    the Unicode category Zs (space separators), so a tab or a line break
    does not end a token; and the score is exactly 0 when some query token
    occurs in no such field token. *)
Theorem test_strings_sums_credits (query against : cstr)
  (accept_min_size : Z) :
  no_trailing_separator query ->
  Z.of_nat (length query) < 2 ^ 32 ->
  Z.of_nat (length against) < 2 ^ 64 ->
  test_strings query against accept_min_size
  = score_spec is_space_separator query against accept_min_size.
Proof.
  intros Htrail Hq Ha. unfold test_strings, score_spec.
  unfold UTF8_FOREACH_TOKEN_FORWARDS.
  destruct (tokens_from_segments (S (length query)) query)
    as (spq & Htq & Hspq); [lia|].
  destruct (tokens_from_segments (S (length against)) against)
    as (spa & Hta & Hspa); [lia|].
  rewrite (split_tokens_segments (S (length query)) query) by lia.
  rewrite (split_tokens_segments (S (length against)) against) by lia.
  rewrite Htq, Hta.
  destruct Hspq as [->|(t & pre & c & _ & _ & Hs & Hc)].
  2:{ rewrite (Htrail pre c Hs) in Hc. discriminate. }
  rewrite app_nil_r. apply query_loop_spec.
  - eapply Forall_impl; [|apply segments_words].
    intros wr [Hne Hl]. split; [exact Hne|lia].
  - eapply Forall_impl; [|apply segments_words].
    intros wr [_ Hl]. unfold gsize_modulus. lia.
  - destruct Hspa as [->|(t & pre & c & -> & Ht & _)]; [now left|].
    right. now exists t.
Qed.

End TokenFacts.

Lemma test_strings_sums_credits_witness :
  test_strings (utf8 "web fire") (utf8 "Firefox Web Browser ") 2
  = score_spec is_space_separator (utf8 "web fire")
      (utf8 "Firefox Web Browser ") 2.
Proof.
  apply (@test_strings_sums_credits ascii_case rational).
  - intros s' c H.
    apply (f_equal (@rev gunichar)) in H. rewrite rev_app_distr in H.
    vm_compute in H. injection H as <- _. reflexivity.
  - reflexivity.
  - reflexivity.
Defined.

(** C1, as stated, fails: a tab is white space, so the field "foo<TAB>bar"
    has the tokens "foo" and "bar" and the query "bar" should score
    9 / 3; the scoring function sees one token of 7 characters and
    returns 9 / 7. *)
Lemma tab_does_not_end_a_token :
  unicode_white_space 9 = true
  /\ Qeq (test_strings (utf8 "bar") Sample.tabbed_field 2) (9 # 7)
  /\ Qeq (score_spec unicode_white_space (utf8 "bar") Sample.tabbed_field 2)
       (9 # 3)
  /\ ~ Qeq (test_strings (utf8 "bar") Sample.tabbed_field 2)
         (score_spec unicode_white_space (utf8 "bar") Sample.tabbed_field 2).
Proof. vm_compute. repeat split; try reflexivity. discriminate. Qed.

(** A query that ends in a separator gets one more token, of length 0 and
    made of separators, which no field token matches: the query "foo "
    scores 0 on the field "foo", where "foo" scores 9 / 3. *)
Lemma trailing_separator_scores_zero :
  Qeq (test_strings (utf8 "foo ") (utf8 "foo") 2) 0
  /\ Qeq (test_strings (utf8 "foo") (utf8 "foo") 2) (9 # 3)
  /\ map tok_utf8_len (UTF8_FOREACH_TOKEN_FORWARDS (utf8 "foo ")) = [3; 0].
Proof. vm_compute. repeat split; reflexivity. Qed.

(* ------------------------------------------------------------------ *)
(** ** The coordinator, whatever the identifiers *)

Section CoordinatorFacts.
Context {U : Unicode} {DBL : Double} {RE : RegexEngine}.

Lemma sub_task_loop_scan (shallow_mirror : list BzEntryGroup)
  (query_utf8 : cstr) (active_biases : list BiasData)
  (offset count i : nat) (scores_out : list Score) :
  sub_task_loop shallow_mirror query_utf8 (d_lit 1) active_biases
    offset i count scores_out
  = option_map (app scores_out)
      (scan_candidates query_utf8 active_biases shallow_mirror
         (seq (offset + i) count)).
Proof.
  revert i scores_out. induction count as [|count IH]; intros i scores_out.
  - cbn. now rewrite app_nil_r.
  - cbn [sub_task_loop seq scan_candidates].
    destruct (nth_error shallow_mirror (offset + i)) as [group|];
      [|reflexivity].
    replace (S (offset + i)) with (offset + S i)%nat by lia.
    destruct (searchable group); cbn [negb]; [|apply IH].
    destruct (final_score query_utf8 active_biases group) as [score|];
      [|reflexivity].
    rewrite IH.
    destruct (scan_candidates query_utf8 active_biases shallow_mirror
                (seq (offset + S i) count)) as [later|]; [|reflexivity].
    cbn [option_map]. f_equal.
    destruct (d_lit 1 <? score)%D; [|reflexivity].
    now rewrite <- app_assoc.
Qed.

Lemma scan_candidates_app (query_utf8 : cstr) (active_biases : list BiasData)
  (shallow_mirror : list BzEntryGroup) (l1 l2 : list nat) :
  scan_candidates query_utf8 active_biases shallow_mirror (l1 ++ l2)
  = match scan_candidates query_utf8 active_biases shallow_mirror l1 with
    | Some a =>
        option_map (app a)
          (scan_candidates query_utf8 active_biases shallow_mirror l2)
    | None => None
    end.
Proof.
  induction l1 as [|j l1 IH].
  - cbn [app scan_candidates].
    now destruct (scan_candidates query_utf8 active_biases shallow_mirror l2).
  - cbn [app scan_candidates].
    destruct (nth_error shallow_mirror j) as [group|]; [|reflexivity].
    destruct (searchable group); [|exact IH].
    destruct (final_score query_utf8 active_biases group) as [score|];
      [|reflexivity].
    rewrite IH.
    destruct (scan_candidates query_utf8 active_biases shallow_mirror l1)
      as [a|]; [|reflexivity].
    destruct (scan_candidates query_utf8 active_biases shallow_mirror l2)
      as [b|]; [|reflexivity].
    cbn [option_map]. now rewrite app_assoc.
Qed.

Lemma gather_scan (query_utf8 : cstr) (active_biases : list BiasData)
  (shallow_mirror : list BzEntryGroup) (ranges : list (list nat))
  (scores : list Score) :
  gather
    (map (scan_candidates query_utf8 active_biases shallow_mirror) ranges)
    scores
  = option_map (app scores)
      (scan_candidates query_utf8 active_biases shallow_mirror
         (concat ranges)).
Proof.
  revert scores. induction ranges as [|r ranges IH]; intros scores.
  - cbn. now rewrite app_nil_r.
  - cbn [map gather concat]. rewrite scan_candidates_app.
    destruct (scan_candidates query_utf8 active_biases shallow_mirror r)
      as [a|]; [|reflexivity].
    rewrite IH.
    destruct (scan_candidates query_utf8 active_biases shallow_mirror
                (concat ranges)) as [b|]; [|reflexivity].
    cbn [option_map]. now rewrite app_assoc.
Qed.

(** The coordinator, in one pass: the number of processors leaves no
    trace. *)
Lemma query_task_fiber_scan (num_processors : nat) (data : QueryTaskData) :
  query_task_fiber num_processors data
  = let collected :=
      collect_biases (g_strjoinv (utf8 " ") (terms data))
        (task_biases data) in
    match scan_candidates (fst collected) (snd collected) (snapshot data)
            (seq 0 (length (snapshot data))) with
    | None => Undefined
    | Some scores => Resolved (finish (fst collected) (snapshot data) scores)
    end.
Proof.
  unfold query_task_fiber.
  destruct (collect_biases (g_strjoinv (utf8 " ") (terms data))
              (task_biases data)) as [q active].
  cbv zeta. cbn [fst snd].
  set (k := n_sub_tasks_of (length (snapshot data)) num_processors).
  set (d := sub_task_data q (snapshot data) active k
              (length (snapshot data) / k)).
  rewrite (map_ext _
             (fun i => scan_candidates q active (snapshot data)
                         (seq (work_offset (d i)) (work_length (d i))))).
  2:{ intros i. unfold query_sub_task_fiber.
      cbn [sub_task_data sub_shallow_mirror sub_query_utf8 sub_threshold
             sub_active_biases].
      rewrite sub_task_loop_scan. rewrite Nat.add_0_r.
      change (sub_query_utf8 (d i)) with q.
      change (sub_active_biases (d i)) with active.
      change (sub_shallow_mirror (d i)) with (snapshot data).
      now destruct (scan_candidates q active (snapshot data)
                      (seq (work_offset (d i)) (work_length (d i)))). }
  rewrite <- (map_map (fun i => seq (work_offset (d i)) (work_length (d i)))
                (scan_candidates q active (snapshot data))).
  rewrite gather_scan.
  pose proof (shard_ranges q (snapshot data) active k
                (n_sub_tasks_pos _ _)) as Hr.
  cbv zeta in Hr. fold d in Hr. rewrite Hr.
  now destruct (scan_candidates q active (snapshot data)
                  (seq 0 (length (snapshot data)))).
Qed.

(** X1: the answer of the coordinator does not depend on the number of
    processors, that is on the number of shards the snapshot is cut
    into; this holds whether the answer is a result list or undefined. *)
Theorem sharding_is_transparent (n1 n2 : nat) (self : BzSearchEngine)
  (query_terms : list cstr) (data : QueryTaskData) :
  query_task_fiber n1 data = query_task_fiber n2 data
  /\ bz_search_engine_query n1 self query_terms
     = bz_search_engine_query n2 self query_terms.
Proof.
  assert (H : forall d, query_task_fiber n1 d = query_task_fiber n2 d)
    by (intros d; now rewrite !query_task_fiber_scan).
  split; [apply H|].
  unfold bz_search_engine_query. destruct query_terms as [|first rest];
    [reflexivity|].
  now rewrite H.
Qed.

End CoordinatorFacts.

Section OutcomeFacts.
Context {U : Unicode} {DBL : Double} {RE : RegexEngine}.





Lemma scan_candidates_emit (query_utf8 : cstr)
  (active_biases : list BiasData) (shallow_mirror : list BzEntryGroup)
  (indices : list nat) (scores : list Score) :
  scan_candidates query_utf8 active_biases shallow_mirror indices
  = Some scores ->
  scores = flat_map (emit query_utf8 active_biases shallow_mirror) indices.
Proof.
  revert scores. induction indices as [|j indices IH]; intros scores.
  - cbn. now intros [= <-].
  - cbn [scan_candidates flat_map]. unfold emit at 1.
    destruct (nth_error shallow_mirror j) as [group|]; [|discriminate].
    destruct (searchable group).
    + destruct (final_score query_utf8 active_biases group) as [score|];
        [|discriminate].
      destruct (scan_candidates query_utf8 active_biases shallow_mirror
                  indices) as [later|]; [|discriminate].
      cbn [option_map]. intros [= <-]. now rewrite (IH later).
    + intros H. cbn [app]. now apply IH.
Qed.

(** Every result carries the candidate that stands at its original index
    in the model, and a result with a score carries a searchable one. *)
Lemma unranked_carry (groups l : list BzEntryGroup) (i : nat) :
  (forall k g, nth_error l k = Some g ->
               nth_error groups (i + k) = Some g) ->
  Forall (fun r =>
            exists group,
              nth_error groups (sr_original_index r) = Some group
              /\ sr_group r = Some group
              /\ (sr_score r <> None -> searchable group = true))
    (unranked_results l i).
Proof.
  revert i. induction l as [|g l IH]; intros i Hl; [constructor|].
  cbn [unranked_results]. constructor.
  - exists g. cbn [sr_original_index sr_group sr_score].
    split; [|split; [reflexivity|congruence]].
    rewrite <- (Nat.add_0_r i). now apply Hl.
  - apply IH. intros k g' Hk.
    replace (S i + k)%nat with (i + S k)%nat by lia. now apply Hl.
Qed.

Lemma results_carry_candidates (num_processors : nat)
  (self : BzSearchEngine) (query_terms : list cstr)
  (finished : BzFinishedSearchQuery) :
  bz_search_engine_query num_processors self query_terms
  = Resolved finished ->
  Forall (fun r =>
            exists group,
              nth_error (groups_of (model self)) (sr_original_index r)
              = Some group
              /\ sr_group r = Some group
              /\ (sr_score r <> None -> searchable group = true))
    (results finished).
Proof.
  unfold bz_search_engine_query.
  destruct query_terms as [|first rest]; [discriminate|].
  set (groups := groups_of (model self)).
  destruct (is_null (model self) || (length groups =? 0)%nat
            || (g_utf8_get_char first =? 0)).
  - intros [= <-]. cbn [results].
    apply unranked_carry. intros k g Hk. exact Hk.
  - rewrite query_task_fiber_scan. cbv zeta.
    cbn [terms snapshot task_biases].
    set (collected := collect_biases (g_strjoinv (utf8 " ") (first :: rest))
                        (biases_mirror self)).
    destruct (scan_candidates (fst collected) (snd collected) groups
                (seq 0 (length groups))) as [scores|] eqn:Hscan;
      [|discriminate].
    intros [= <-]. apply scan_candidates_emit in Hscan. subst scores.
    cbn [finish results].
    apply (wrap_results_Forall groups
             (fun score =>
                exists group,
                  nth_error groups (idx score) = Some group
                  /\ searchable group = true)).
    + intros score (group & Hn & Hs). exists group.
      cbn [sr_original_index sr_group sr_score]. now repeat split.
    + eapply Permutation_Forall; [symmetry; apply g_array_sort_perm|].
      eapply Forall_impl; [|apply emit_sound].
      intros score (_ & group & Hn & Hs & _). now exists group.
Qed.

(** X3: every finished query is well formed.  Its count is the length of
    its result list; no candidate is listed twice; every result carries
    the candidate that stands at its original index in the model; and the
    results either all carry no score (the first branch) or all carry a
    score above the threshold 1.0. *)
Theorem finished_query_is_well_formed (num_processors : nat)
  (self : BzSearchEngine) (query_terms : list cstr)
  (finished : BzFinishedSearchQuery) :
  bz_search_engine_query num_processors self query_terms
  = Resolved finished ->
  n_results finished = length (results finished)
  /\ NoDup (map sr_original_index (results finished))
  /\ Forall (fun r =>
               exists group,
                 nth_error (groups_of (model self)) (sr_original_index r)
                 = Some group
                 /\ sr_group r = Some group)
       (results finished)
  /\ (Forall (fun r => sr_score r = None) (results finished)
      \/ Forall (fun r =>
                   exists score,
                     sr_score r = Some score
                     /\ (d_lit 1 <? score)%D = true)
           (results finished)).
Proof.
  intros Hquery.
  pose proof (results_carry_candidates _ _ _ _ Hquery) as Hcarry.
  revert Hquery. unfold bz_search_engine_query.
  destruct query_terms as [|first rest]; [discriminate|].
  set (groups := groups_of (model self)).
  destruct (is_null (model self) || (length groups =? 0)%nat
            || (g_utf8_get_char first =? 0)).
  - intros [= <-]. cbn [n_results results].
    split; [|split; [|split]].
    + rewrite <- (length_map sr_original_index), unranked_indices.
      now rewrite length_seq.
    + rewrite unranked_indices. apply seq_NoDup.
    + eapply Forall_impl; [|exact Hcarry].
      intros r (group & Hn & Hg & _). now exists group.
    + left. apply unranked_scores.
  - rewrite query_task_fiber_scan. cbv zeta.
    cbn [terms snapshot task_biases].
    set (collected := collect_biases (g_strjoinv (utf8 " ") (first :: rest))
                        (biases_mirror self)).
    destruct (scan_candidates (fst collected) (snd collected) groups
                (seq 0 (length groups))) as [scores|] eqn:Hscan;
      [|discriminate].
    intros [= <-]. apply scan_candidates_emit in Hscan. subst scores.
    cbn [finish n_results results].
    split; [reflexivity|]. split; [|split].
    + eapply Permutation_NoDup;
        [symmetry; apply ranked_indices|].
      apply NoDup_filter, seq_NoDup.
    + eapply Forall_impl; [|exact Hcarry].
      intros r (group & Hn & Hg & _). now exists group.
    + right. apply (wrap_results_Forall groups
                      (fun score => (d_lit 1 <? val score)%D = true)).
      * intros score Hs. exists (val score). now split.
      * eapply Permutation_Forall; [symmetry; apply g_array_sort_perm|].
        eapply Forall_impl; [|apply emit_sound]. now intros score [Hs _].
Qed.

End OutcomeFacts.

(* ------------------------------------------------------------------ *)
(** ** The shards of a query *)

Section ShardingFacts.
Context {U : Unicode} {DBL : Double} {RE : RegexEngine}.

Lemma shard_scans_its_range (query_utf8 : cstr)
  (shallow_mirror : list BzEntryGroup) (active_biases : list BiasData)
  (n_sub_tasks scores_per_task i : nat) :
  let data :=
    sub_task_data query_utf8 shallow_mirror active_biases n_sub_tasks
      scores_per_task i in
  query_sub_task_fiber data
  = scan_candidates query_utf8 active_biases shallow_mirror
      (seq (work_offset data) (work_length data)).
Proof.
  intros data. unfold query_sub_task_fiber.
  change (sub_shallow_mirror data) with shallow_mirror.
  change (sub_query_utf8 data) with query_utf8.
  change (sub_threshold data) with (d_lit 1).
  change (sub_active_biases data) with active_biases.
  rewrite sub_task_loop_scan, Nat.add_0_r.
  now destruct (scan_candidates query_utf8 active_biases shallow_mirror
                  (seq (work_offset data) (work_length data))).
Qed.

(** C8: on a snapshot of n candidates the coordinator starts
    count = max (1, min (n / 512, processors)) sub tasks, with integer
    division, gathers what they return in the order of the shards, and
    sorts that.  Sub task [i] is handed the shard that starts at
    [i * (n / count)] and holds [n / count] candidates, the last one
    [n mod count] more; the shards, laid end to end, are exactly the
    indices [0 .. n - 1], so every candidate belongs to exactly one
    shard.  A sub task walks the candidates of its shard in order and
    scores each of them once: the indices it returns are those of the
    candidates of its shard that are searchable and score above 1.0. *)
Theorem shards_partition_snapshot (num_processors : nat)
  (data : QueryTaskData) :
  let shallow_mirror := snapshot data in
  let n := length shallow_mirror in
  let count := n_sub_tasks_of n num_processors in
  let collected :=
    collect_biases (g_strjoinv (utf8 " ") (terms data)) (task_biases data) in
  let d :=
    sub_task_data (fst collected) shallow_mirror (snd collected) count
      (n / count) in
  count = Nat.max 1 (Nat.min (n / 512) num_processors)
  /\ query_task_fiber num_processors data
     = match gather (map (fun i => query_sub_task_fiber (d i))
                       (seq 0 count)) [] with
       | None => Undefined
       | Some scores =>
           Resolved (finish (fst collected) shallow_mirror scores)
       end
  /\ Forall (fun i =>
               work_offset (d i) = (i * (n / count))%nat
               /\ work_length (d i)
                  = ((n / count) + if (i =? count - 1)%nat
                                   then n mod count else 0)%nat)
       (seq 0 count)
  /\ concat (map (fun i => seq (work_offset (d i)) (work_length (d i)))
               (seq 0 count)) = seq 0 n
  /\ Forall (fun j =>
               length (filter
                         (fun i => (work_offset (d i) <=? j)%nat
                                   && (j <? work_offset (d i)
                                            + work_length (d i))%nat)
                         (seq 0 count)) = 1%nat)
       (seq 0 n)
  /\ Forall (fun i =>
               query_sub_task_fiber (d i)
               = scan_candidates (fst collected) (snd collected)
                   shallow_mirror
                   (seq (work_offset (d i)) (work_length (d i)))
               /\ forall scores_out,
                    query_sub_task_fiber (d i) = Some scores_out ->
                    map idx scores_out
                    = filter (passes (fst collected) (snd collected)
                                shallow_mirror)
                        (seq (work_offset (d i)) (work_length (d i))))
       (seq 0 count).
Proof.
  intros shallow_mirror n count collected d.
  assert (Hpos : (1 <= count)%nat) by apply n_sub_tasks_pos.
  assert (Hcat : concat (map (fun i => seq (work_offset (d i))
                                         (work_length (d i)))
                           (seq 0 count)) = seq 0 n)
    by (apply shard_ranges; exact Hpos).
  split; [|split; [|split; [|split; [|split]]]].
  - unfold count, n_sub_tasks_of. now rewrite MAX_max, MIN_min.
  - unfold query_task_fiber. subst d. fold shallow_mirror n count collected.
    destruct collected as [query_utf8 active_biases]. reflexivity.
  - apply Forall_forall. intros i Hi. apply in_seq in Hi.
    subst d. cbn [work_offset work_length sub_task_data].
    split; [reflexivity|]. fold n.
    destruct (Nat.leb_spec (count - 1) i), (Nat.eqb_spec i (count - 1)); lia.
  - exact Hcat.
  - apply Forall_forall. intros j Hj. apply in_seq in Hj.
    rewrite <- count_occ_ranges, Hcat, count_occ_seq.
    destruct (Nat.leb_spec 0 j), (Nat.ltb_spec j (0 + n)); cbn;
      try reflexivity; lia.
  - apply Forall_forall. intros i _.
    pose proof (shard_scans_its_range (fst collected) shallow_mirror
                  (snd collected) count (n / count) i) as Hscan.
    cbv zeta in Hscan. fold (d i) in Hscan.
    split; [exact Hscan|].
    intros scores_out Hout. rewrite Hscan in Hout.
    apply scan_candidates_emit in Hout. subst scores_out.
    apply emit_indices.
Qed.

End ShardingFacts.

Lemma finished_query_is_well_formed_witness :
  exists finished,
    bz_search_engine_query 4 (Sample.engine [Sample.fire_bias])
      [utf8 "web"]
    = Resolved finished
    /\ n_results finished = length (results finished)
    /\ NoDup (map sr_original_index (results finished)).
Proof.
  eexists. split; [vm_compute; reflexivity|].
  split;
    eapply (@finished_query_is_well_formed ascii_case rational literal_engine
              4 (Sample.engine [Sample.fire_bias]) [utf8 "web"]);
    vm_compute; reflexivity.
Defined.

(* ------------------------------------------------------------------ *)
(** ** The order of ties *)

Section MergeOrderFacts.
Variable A : Type.
Variable cmp : A -> A -> Z.

(** [dom] holds of the elements that are sorted, [before x y] reads "x
    stood before y in the array", [R x y] reads "x may stand before y in
    the sorted array". *)
Variable dom : A -> Prop.
Variable before : A -> A -> Prop.
Variable R : A -> A -> Prop.
Hypothesis cmp_first : forall x y, dom x -> dom y -> cmp x y <= 0 -> R x y.
Hypothesis cmp_second :
  forall x y, dom x -> dom y -> before x y -> 0 < cmp x y -> R y x.
Hypothesis R_trans :
  forall x y z, dom x -> dom y -> dom z -> R x y -> R y z -> R x z.

Local Abbreviation all_before b1 b2 :=
  (Forall (fun x => Forall (before x) b2) b1).

Lemma all_before_perm (b1 b2 c1 c2 : list A) :
  Permutation b1 c1 -> Permutation b2 c2 ->
  all_before b1 b2 -> all_before c1 c2.
Proof.
  intros H1 H2 H.
  eapply Permutation_Forall; [exact H1|].
  eapply Forall_impl; [|exact H].
  intros x Hx. eapply Permutation_Forall; [exact H2|exact Hx].
Qed.

Lemma merge_runs_ordered (b1 b2 : list A) :
  Forall dom b1 -> Forall dom b2 -> all_before b1 b2 ->
  StronglySorted R b1 -> StronglySorted R b2 ->
  StronglySorted R (merge_runs cmp b1 b2).
Proof.
  revert b2. induction b1 as [|x b1 IH1]; intros b2 Hd1 Hd2 Hb Hs1 Hs2.
  - destruct b2; assumption.
  - induction b2 as [|y b2 IH2]; [assumption|].
    cbn [merge_runs].
    inversion Hd1 as [|? ? Hx Hd1']; subst.
    inversion Hd2 as [|? ? Hy Hd2']; subst.
    inversion Hs1 as [|? ? Hs1' Hx1]; subst.
    inversion Hs2 as [|? ? Hs2' Hy2]; subst.
    inversion Hb as [|? ? Hxb Hb']; subst.
    inversion Hxb as [|? ? Hxy Hxb']; subst.
    destruct (Z.leb_spec (cmp x y) 0) as [Hc|Hc].
    + constructor; [now apply IH1|].
      eapply Permutation_Forall; [symmetry; apply merge_runs_perm|].
      apply Forall_app. split; [assumption|].
      constructor; [now apply cmp_first|].
      rewrite Forall_forall in *. intros z Hz.
      apply (R_trans x y z); auto.
    + constructor.
      * apply IH2; auto.
        constructor; [exact Hxb'|].
        eapply Forall_impl; [|exact Hb'].
        intros z Hz. now inversion Hz.
      * change (Forall (R y) (merge_runs cmp (x :: b1) b2)).
        eapply Permutation_Forall; [symmetry; apply merge_runs_perm|].
        apply Forall_app. split; [|assumption].
        assert (Hyx : R y x) by (now apply cmp_second).
        constructor; [exact Hyx|].
        rewrite Forall_forall in *. intros z Hz.
        apply (R_trans y x z); auto.
Qed.

Lemma sorted_app_inv (P : A -> A -> Prop) (l1 l2 : list A) :
  StronglySorted P (l1 ++ l2) ->
  StronglySorted P l1 /\ StronglySorted P l2
  /\ Forall (fun x => Forall (P x) l2) l1.
Proof.
  induction l1 as [|x l1 IH]; cbn [app]; intros H.
  - repeat split; [constructor|exact H|constructor].
  - inversion H as [|? ? Hs Hall]; subst.
    destruct (IH Hs) as (H1 & H2 & H12).
    apply Forall_app in Hall. destruct Hall as [Ha1 Ha2].
    repeat split; [now constructor|exact H2|now constructor].
Qed.

Lemma msort_ordered (depth : nat) (b : list A) :
  (length b <= depth)%nat -> Forall dom b -> StronglySorted before b ->
  StronglySorted R (msort_with_tmp depth cmp b).
Proof.
  revert b. induction depth as [|depth IH]; intros b Hlen Hdom Hb.
  - destruct b; [constructor|cbn in Hlen; lia].
  - cbn [msort_with_tmp].
    destruct (Nat.leb_spec (length b) 1) as [H1|H1].
    + destruct b as [|x [|y b]]; [constructor| |cbn in H1; lia].
      constructor; constructor.
    + assert (Hhalf : (0 < length b / 2 < length b)%nat).
      { split.
        - apply Nat.div_str_pos. lia.
        - apply Nat.div_lt; lia. }
      rewrite <- (firstn_skipn (length b / 2) b) in Hdom, Hb.
      apply Forall_app in Hdom. destruct Hdom as [Hd1 Hd2].
      apply sorted_app_inv in Hb. destruct Hb as (Hb1 & Hb2 & Hb12).
      apply merge_runs_ordered.
      * eapply Permutation_Forall;
          [symmetry; apply msort_perm|assumption].
      * eapply Permutation_Forall;
          [symmetry; apply msort_perm|assumption].
      * eapply all_before_perm;
          [symmetry; apply msort_perm|symmetry; apply msort_perm|exact Hb12].
      * apply IH; [rewrite length_firstn; lia|assumption|assumption].
      * apply IH; [rewrite length_skipn; lia|assumption|assumption].
Qed.

End MergeOrderFacts.

Section TieFacts.
Context {U : Unicode} {DBL : Double} {RE : RegexEngine}.

Lemma d_lt_trans (Hord : double_order) (a b c : double) :
  (d_lit 1 <? a)%D = true -> (d_lit 1 <? b)%D = true ->
  (d_lit 1 <? c)%D = true ->
  (a <? b)%D = true -> (b <? c)%D = true -> (a <? c)%D = true.
Proof.
  intros Ha Hb Hc Hab Hbc.
  destruct (a <? c)%D eqn:Hac; [reflexivity|].
  pose proof (d_lt_asym Hord a b Hab) as Hba.
  pose proof (d_lt_negtrans Hord b a c Hb Ha Hc Hba Hac). congruence.
Qed.

Lemma score_before_trans (Hord : double_order) (x y z : Score) :
  (d_lit 1 <? val x)%D = true -> (d_lit 1 <? val y)%D = true ->
  (d_lit 1 <? val z)%D = true ->
  score_before x y -> score_before y z -> score_before x z.
Proof.
  intros Hx Hy Hz [Hxy|[Hxy Ixy]] [Hyz|[Hyz Iyz]].
  - left. now apply (d_lt_trans Hord (val z) (val y) (val x)).
  - left. destruct (val z <? val x)%D eqn:Hzx; [reflexivity|].
    pose proof (d_lt_negtrans Hord (val y) (val z) (val x) Hy Hz Hx Hyz Hzx).
    congruence.
  - left. destruct (val z <? val x)%D eqn:Hzx; [reflexivity|].
    pose proof (d_lt_negtrans Hord (val z) (val x) (val y) Hz Hx Hy Hzx Hxy).
    congruence.
  - right. split; [|lia].
    now apply (d_lt_negtrans Hord (val x) (val y) (val z)).
Qed.

(** The scores of one pass stand in the order of the snapshot. *)
Lemma emit_in_snapshot_order (query_utf8 : cstr)
  (active_biases : list BiasData) (shallow_mirror : list BzEntryGroup)
  (indices : list nat) :
  StronglySorted lt indices ->
  StronglySorted (fun a b => (idx a < idx b)%nat)
    (flat_map (emit query_utf8 active_biases shallow_mirror) indices)
  /\ Forall (fun a => In (idx a) indices)
       (flat_map (emit query_utf8 active_biases shallow_mirror) indices).
Proof.
  induction 1 as [|j indices Hs [IH1 IH2] Hj].
  - split; constructor.
  - cbn [flat_map].
    assert (Hrest : Forall (fun a => In (idx a) (j :: indices))
                      (flat_map
                         (emit query_utf8 active_biases shallow_mirror)
                         indices)).
    { eapply Forall_impl; [|exact IH2]. intros a Ha. now right. }
    assert (Hlater : Forall (fun a => (j < idx a)%nat)
                       (flat_map
                          (emit query_utf8 active_biases shallow_mirror)
                          indices)).
    { eapply Forall_impl; [|exact IH2]. intros a Ha.
      rewrite Forall_forall in Hj. now apply Hj. }
    unfold emit at 1 3.
    destruct (nth_error shallow_mirror j) as [group|]; [|now split].
    destruct (searchable group); [|now split].
    destruct (final_score query_utf8 active_biases group) as [score|];
      [|now split].
    destruct (d_lit 1 <? score)%D; [|now split].
    cbn [app]. split.
    + constructor; [exact IH1|exact Hlater].
    + constructor; [now left|exact Hrest].
Qed.

Lemma seq_sorted (start len : nat) : StronglySorted lt (seq start len).
Proof.
  revert start. induction len as [|len IH]; intros start; [constructor|].
  cbn [seq]. constructor; [apply IH|].
  apply Forall_forall. intros j Hj. apply in_seq in Hj. lia.
Qed.

Lemma wrap_results_ranks (shallow_mirror : list BzEntryGroup)
  (scores : list Score) :
  StronglySorted score_before scores ->
  StronglySorted ranks_before (wrap_results shallow_mirror scores).
Proof.
  induction 1 as [|score scores _ IH Hall]; [constructor|].
  cbn [wrap_results]. constructor; [exact IH|].
  apply (wrap_results_Forall shallow_mirror (score_before score));
    [|exact Hall].
  intros b Hb. exact Hb.
Qed.

(** X4: the result list of the coordinator is ordered by descending
    score, and results whose scores are equal (neither is smaller) stand
    in descending order of their original index: of two candidates that
    tie, the one that comes later in the snapshot is listed first. *)
Theorem ties_list_later_candidates_first (num_processors : nat)
  (data : QueryTaskData) (finished : BzFinishedSearchQuery) :
  double_order ->
  query_task_fiber num_processors data = Resolved finished ->
  StronglySorted ranks_before (results finished).
Proof.
  intros Hord. rewrite query_task_fiber_scan. cbv zeta.
  set (collected := collect_biases (g_strjoinv (utf8 " ") (terms data))
                      (task_biases data)).
  destruct (scan_candidates (fst collected) (snd collected) (snapshot data)
              (seq 0 (length (snapshot data)))) as [scores|] eqn:Hscan;
    [|discriminate].
  intros [= <-]. apply scan_candidates_emit in Hscan. subst scores.
  cbn [finish results]. apply wrap_results_ranks.
  destruct (emit_in_snapshot_order (fst collected) (snd collected)
              (snapshot data) (seq 0 (length (snapshot data)))
              (seq_sorted _ _)) as [Horder _].
  apply (msort_ordered Score cmp_scores
           (fun score => (d_lit 1 <? val score)%D = true)
           (fun a b => (idx a < idx b)%nat) score_before).
  - intros x y _ _ Hc. unfold cmp_scores in Hc.
    rewrite (d_sub_lt Hord) in Hc.
    destruct (val y <? val x)%D eqn:Hyx; [now left|lia].
  - intros x y _ _ Hxy Hc. unfold cmp_scores in Hc.
    rewrite (d_sub_lt Hord) in Hc.
    destruct (val y <? val x)%D eqn:Hyx; [lia|]. right. now split.
  - intros x y z. apply (score_before_trans Hord).
  - reflexivity.
  - eapply Forall_impl; [|apply emit_sound]. now intros score [Hs _].
  - exact Horder.
Qed.

End TieFacts.

Lemma ties_list_later_candidates_first_witness :
  exists finished,
    @query_task_fiber ascii_case rational literal_engine 4
      {| terms := [utf8 "browser"];
         snapshot := Sample.catalog;
         task_biases := [] |}
    = Resolved finished
    /\ map sr_original_index (results finished) = [1%nat; 0%nat]
    /\ StronglySorted ranks_before (results finished).
Proof.
  eexists. split; [vm_compute; reflexivity|]. split; [reflexivity|].
  eapply (@ties_list_later_candidates_first ascii_case rational
            literal_engine 4
            {| terms := [utf8 "browser"];
               snapshot := Sample.catalog;
               task_biases := [] |}).
  - exact rational_order.
  - vm_compute; reflexivity.
Defined.


(* ------------------------------------------------------------------ *)
(** ** The two channels of a bias *)

Section ChannelFacts.
Context {U : Unicode} {DBL : Double} {RE : RegexEngine}.

Lemma scan_candidates_ext (query_utf8 : cstr) (a1 a2 : list BiasData)
  (shallow_mirror : list BzEntryGroup) (indices : list nat) :
  (forall group,
      final_score query_utf8 a1 group = final_score query_utf8 a2 group) ->
  scan_candidates query_utf8 a1 shallow_mirror indices
  = scan_candidates query_utf8 a2 shallow_mirror indices.
Proof.
  intros Hext. induction indices as [|j indices IH]; [reflexivity|].
  cbn [scan_candidates].
  destruct (nth_error shallow_mirror j) as [group|]; [|reflexivity].
  rewrite IH, Hext. reflexivity.
Qed.

Lemma rewritten_without_replacement (bias : BiasData) (query_utf8 : cstr) :
  convert_to bias = None -> rewritten bias query_utf8 = query_utf8.
Proof.
  intros H. unfold rewritten. rewrite H. now destruct (regex bias).
Qed.

Lemma collect_biases_filter (query_utf8 : cstr) (table : list BiasData) :
  Forall (fun bias => convert_to bias = None) table ->
  collect_biases query_utf8 table
  = (query_utf8, filter (fun bias => activated bias query_utf8) table).
Proof.
  induction 1 as [|bias table Hb _ IH]; [reflexivity|].
  rewrite collect_biases_cons. cbn [filter].
  rewrite rewritten_without_replacement by exact Hb.
  rewrite IH. now destruct (activated bias query_utf8).
Qed.

(** X5: a bias table in which no entry has a boost set acts on a query
    only through the query string.  The coordinator answers as it would
    with an empty table on the single term that the rewrites leave. *)
Theorem boostless_table_only_rewrites (num_processors : nat)
  (query_terms : list cstr) (groups : list BzEntryGroup)
  (table : list BiasData) :
  Forall (fun bias => boost bias = None) table ->
  query_task_fiber num_processors
    {| terms := query_terms; snapshot := groups; task_biases := table |}
  = query_task_fiber num_processors
      {| terms :=
           [fst (collect_biases (g_strjoinv (utf8 " ") query_terms) table)];
         snapshot := groups;
         task_biases := [] |}.
Proof.
  intros Hnone. rewrite !query_task_fiber_scan. cbv zeta.
  cbn [terms snapshot task_biases g_strjoinv].
  change (collect_biases ?q []) with (q, @nil BiasData).
  cbn [fst snd].
  set (collected := collect_biases (g_strjoinv (utf8 " ") query_terms) table).
  rewrite (scan_candidates_ext (fst collected) (snd collected) []);
    [reflexivity|].
  intros group. unfold final_score. cbn [boost_loop].
  apply boost_loop_no_boost. apply Forall_forall. intros bias Hin.
  apply collected_are_valid in Hin. destruct Hin as [_ Hin].
  rewrite Forall_forall in Hnone. now apply Hnone.
Qed.

(** X6: a bias table in which no entry has a replacement acts on a query
    only through the scores.  The working query string stays the joined
    terms, a bias is active exactly when it is not a placeholder and its
    pattern is found in the joined terms, whatever stands before it in the
    table, and the interpreted query of a finished search is the joined
    terms. *)
Theorem rewriteless_table_only_boosts (num_processors : nat)
  (query_terms : list cstr) (groups : list BzEntryGroup)
  (table : list BiasData) :
  Forall (fun bias => convert_to bias = None) table ->
  collect_biases (g_strjoinv (utf8 " ") query_terms) table
  = (g_strjoinv (utf8 " ") query_terms,
     filter (fun bias => activated bias (g_strjoinv (utf8 " ") query_terms))
       table)
  /\ forall finished,
       query_task_fiber num_processors
         {| terms := query_terms; snapshot := groups; task_biases := table |}
       = Resolved finished ->
       interpreted_query finished = g_strjoinv (utf8 " ") query_terms.
Proof.
  intros Hnone. split; [now apply collect_biases_filter|].
  intros finished. rewrite query_task_fiber_scan. cbv zeta.
  cbn [terms snapshot task_biases].
  rewrite collect_biases_filter by exact Hnone. cbn [fst snd].
  destruct (scan_candidates _ _ _ _); [|discriminate].
  now intros [= <-].
Qed.

(** X7: the coordinator lists exactly the candidates that pass.  In a
    finished search the interpreted query is the working string left by
    the bias table, a candidate of the snapshot is listed if and only if
    it is searchable and its score after the active biases is above 1.0,
    and every result carries its candidate and that score. *)
Theorem coordinator_lists_the_passing_candidates (num_processors : nat)
  (data : QueryTaskData) (finished : BzFinishedSearchQuery) :
  query_task_fiber num_processors data = Resolved finished ->
  let collected :=
    collect_biases (g_strjoinv (utf8 " ") (terms data)) (task_biases data) in
  interpreted_query finished = fst collected
  /\ (forall j,
        In j (map sr_original_index (results finished))
        <-> (j < length (snapshot data))%nat
            /\ passes (fst collected) (snd collected) (snapshot data) j
               = true)
  /\ Forall (result_of_candidate (fst collected) (snd collected)
               (snapshot data))
       (results finished).
Proof.
  rewrite query_task_fiber_scan. cbv zeta.
  set (collected := collect_biases (g_strjoinv (utf8 " ") (terms data))
                      (task_biases data)).
  destruct (scan_candidates (fst collected) (snd collected) (snapshot data)
              (seq 0 (length (snapshot data)))) as [scores|] eqn:Hscan;
    [|discriminate].
  intros [= <-]. apply scan_candidates_emit in Hscan. subst scores.
  cbn [finish interpreted_query results].
  split; [reflexivity|]. split; [|apply ranked_sound].
  intros j. split.
  - intros Hin.
    apply (Permutation_in _ (ranked_indices _ _ _)) in Hin.
    apply filter_In in Hin. destruct Hin as [Hj Hp].
    apply in_seq in Hj. split; [lia|exact Hp].
  - intros [Hj Hp].
    apply (Permutation_in _ (Permutation_sym (ranked_indices _ _ _))).
    apply filter_In. split; [apply in_seq; lia|exact Hp].
Qed.

End ChannelFacts.

(* ------------------------------------------------------------------ *)
(** ** The bias table under change notifications *)

Section MirrorFacts.
Context {U : Unicode} {DBL : Double} {RE : RegexEngine}.

Lemma entry_at_splice (pre items post : list BzSearchBias) :
  map (entry_at (pre ++ items ++ post)) (seq (length pre) (length items))
  = map bias_entry items.
Proof.
  revert pre. induction items as [|bias items IH]; intros pre;
    [reflexivity|].
  cbn [length seq map]. f_equal.
  - unfold entry_at. rewrite nth_error_app2 by lia.
    now rewrite Nat.sub_diag.
  - specialize (IH (pre ++ [bias])).
    rewrite length_app, Nat.add_comm in IH. cbn [length Nat.add] in IH.
    rewrite <- app_assoc in IH. exact IH.
Qed.

(** X8: the table of compiled biases follows the bias list.  When the
    table mirrors the list (entry k is the entry made of specification k)
    and the list replaces [removed] specifications at [position] by new
    ones, the change notification leaves a table that mirrors the new
    list: the entries before and after the change are kept as they are
    and only the new specifications are compiled. *)
Theorem mirror_follows_the_bias_list (old items : list BzSearchBias)
  (position removed : nat) :
  (position + removed <= length old)%nat ->
  let list_model :=
    firstn position old ++ items ++ skipn (position + removed) old in
  biases_changed (map bias_entry old) position removed (length items)
    list_model
  = map bias_entry list_model.
Proof.
  intros Hrange list_model.
  rewrite biases_changed_splice by (rewrite length_map; exact Hrange).
  unfold list_model. rewrite !map_app, firstn_map, skipn_map.
  f_equal. f_equal.
  pose proof (entry_at_splice (firstn position old) items
                (skipn (position + removed) old)) as H.
  rewrite length_firstn, Nat.min_l in H by lia. exact H.
Qed.

End MirrorFacts.

Lemma boostless_table_only_rewrites_witness :
  @query_task_fiber ascii_case rational literal_engine 4
    {| terms := [utf8 "browser"];
       snapshot := Sample.catalog;
       task_biases := map bias_entry [Sample.browser_bias] |}
  = @query_task_fiber ascii_case rational literal_engine 4
      {| terms := [utf8 "web"];
         snapshot := Sample.catalog;
         task_biases := [] |}.
Proof.
  apply (@boostless_table_only_rewrites ascii_case rational literal_engine 4
           [utf8 "browser"] Sample.catalog
           (map bias_entry [Sample.browser_bias])).
  repeat constructor.
Defined.

Lemma rewriteless_table_only_boosts_witness :
  snd (@collect_biases rational literal_engine (utf8 "firefox")
         (map bias_entry [Sample.promote_bias; Sample.fire_bias]))
  = map bias_entry [Sample.promote_bias; Sample.fire_bias].
Proof.
  pose proof (@rewriteless_table_only_boosts ascii_case rational
                literal_engine 4 [utf8 "firefox"] Sample.catalog
                (map bias_entry [Sample.promote_bias; Sample.fire_bias]))
    as H.
  destruct H as [H _]; [repeat constructor|].
  cbn [g_strjoinv] in H. rewrite H. reflexivity.
Defined.

Lemma coordinator_lists_the_passing_candidates_witness :
  exists finished,
    @query_task_fiber ascii_case rational literal_engine 4
      {| terms := [utf8 "web"];
         snapshot := Sample.catalog;
         task_biases := [] |}
    = Resolved finished
    /\ (In 2%nat (map sr_original_index (results finished))
        <-> (2 < 3)%nat
            /\ passes (utf8 "web") [] Sample.catalog 2 = true).
Proof.
  eexists. split; [vm_compute; reflexivity|].
  eapply (@coordinator_lists_the_passing_candidates ascii_case rational
            literal_engine 4
            {| terms := [utf8 "web"];
               snapshot := Sample.catalog;
               task_biases := [] |}).
  vm_compute; reflexivity.
Defined.

Lemma mirror_follows_the_bias_list_witness :
  @biases_changed rational literal_engine
    (map bias_entry [Sample.fire_bias; Sample.broken_bias]) 1 1 2
    [Sample.fire_bias; Sample.browser_bias; Sample.promote_bias]
  = map bias_entry
      [Sample.fire_bias; Sample.browser_bias; Sample.promote_bias].
Proof.
  apply (@mirror_follows_the_bias_list rational literal_engine
           [Sample.fire_bias; Sample.broken_bias]
           [Sample.browser_bias; Sample.promote_bias] 1 1).
  cbn. lia.
Defined.


(* ------------------------------------------------------------------ *)
(** ** What the scoring function looks at *)

Section RecodingFacts.
Context {U : Unicode} {DBL : Double}.

Section Recoded.
Variables f g : gunichar -> gunichar.
Hypothesis f_kept : keeps_class_and_case f.
Hypothesis g_kept : keeps_class_and_case g.

Lemma skip_loop_recoded (h : gunichar -> gunichar) (p s : cstr)
  (skipped : bool) (read_utf8 : Z) :
  keeps_class_and_case h ->
  skip_loop G_UNICODE_SPACE_SEPARATOR (map h p) (map h s) skipped read_utf8
  = let '(end_, start, len) :=
      skip_loop G_UNICODE_SPACE_SEPARATOR p s skipped read_utf8 in
    (map h end_, map h start, len).
Proof.
  intros Hh. revert s skipped read_utf8.
  induction p as [|c p IH]; intros s skipped read_utf8; [reflexivity|].
  cbn [map skip_loop].
  change (h c :: map h p) with (map h (c :: p)) at 1.
  unfold utf8_char_class at 1 2. cbn [map g_utf8_get_char].
  fold (is_space_separator (h c)). fold (is_space_separator c).
  destruct (Hh c) as [-> _].
  destruct (is_space_separator c).
  - destruct skipped; [reflexivity|apply IH].
  - destruct skipped.
    + apply IH.
    + change (h c :: map h p) with (map h (c :: p)). apply IH.
Qed.

Lemma tokens_from_recoded (h : gunichar -> gunichar) (fuel : nat)
  (s : cstr) :
  keeps_class_and_case h ->
  tokens_from fuel (map h s) = map (recode_token h) (tokens_from fuel s).
Proof.
  intros Hh. revert s. induction fuel as [|fuel IH]; intros s;
    [reflexivity|].
  cbn [tokens_from]. unfold utf8_skip_to_next_of_class.
  rewrite skip_loop_recoded by exact Hh.
  destruct (skip_loop G_UNICODE_SPACE_SEPARATOR s s false 0)
    as [[end_ start] len].
  destruct start as [|c start]; [reflexivity|].
  cbn [map]. f_equal. apply IH.
Qed.

Lemma compare_from_recoded (query_ptr query_tok_end against_check_ptr : cstr) :
  compare_from (map f query_ptr) (map f query_tok_end)
    (map g against_check_ptr)
  = compare_from query_ptr query_tok_end against_check_ptr.
Proof.
  revert against_check_ptr.
  induction query_ptr as [|c query_ptr IH]; intros against_check_ptr;
    [reflexivity|].
  cbn [map compare_from].
  change (f c :: map f query_ptr) with (map f (c :: query_ptr)).
  unfold ptr_lt. rewrite !length_map.
  destruct (length query_tok_end <? length (c :: query_ptr))%nat;
    [|reflexivity].
  cbn [map g_utf8_get_char].
  destruct (f_kept c) as [_ ->].
  assert (Hread : g_unichar_tolower (g_utf8_get_char (map g against_check_ptr))
                  = g_unichar_tolower (g_utf8_get_char against_check_ptr)).
  { destruct against_check_ptr as [|x against_check_ptr]; [reflexivity|].
    cbn [map g_utf8_get_char]. now destruct (g_kept x). }
  rewrite Hread.
  destruct (g_unichar_tolower (g_utf8_get_char against_check_ptr)
            =? g_unichar_tolower c); [|reflexivity].
  unfold g_utf8_next_char.
  replace (tl (map g against_check_ptr)) with (map g (tl against_check_ptr))
    by (now destruct against_check_ptr).
  apply IH.
Qed.

Lemma scan_from_recoded (q : token) (against_ptr against_tok_end : cstr)
  (against_tok_utf8_len consumed : Z) :
  scan_from (recode_token f q) (map g against_ptr) (map g against_tok_end)
    against_tok_utf8_len consumed
  = scan_from q against_ptr against_tok_end against_tok_utf8_len consumed.
Proof.
  revert consumed.
  induction against_ptr as [|c against_ptr IH]; intros consumed;
    [reflexivity|].
  cbn [map scan_from].
  change (g c :: map g against_ptr) with (map g (c :: against_ptr)).
  unfold ptr_lt. rewrite !length_map.
  destruct (length against_tok_end <? length (c :: against_ptr))%nat;
    [|reflexivity].
  cbn [recode_token tok_utf8_len tok_start tok_end].
  destruct (tok_utf8_len q
            >? (against_tok_utf8_len - consumed) mod gsize_modulus);
    [reflexivity|].
  rewrite compare_from_recoded.
  destruct (compare_from (tok_start q) (tok_end q) (c :: against_ptr));
    [reflexivity|].
  apply IH.
Qed.

Lemma against_step_recoded (accept_min_size : Z) (q a : token)
  (st : double * bool) :
  against_step accept_min_size (recode_token f q) st (recode_token g a)
  = against_step accept_min_size q st a.
Proof.
  unfold against_step, token_matches.
  change (tok_start (recode_token g a)) with (map g (tok_start a)).
  change (tok_end (recode_token g a)) with (map g (tok_end a)).
  change (tok_utf8_len (recode_token g a)) with (tok_utf8_len a).
  change (tok_utf8_len (recode_token f q)) with (tok_utf8_len q).
  rewrite scan_from_recoded. reflexivity.
Qed.

Lemma against_fold_recoded (accept_min_size : Z) (q : token)
  (against_tokens : list token) (st : double * bool) :
  fold_left (against_step accept_min_size (recode_token f q))
    (map (recode_token g) against_tokens) st
  = fold_left (against_step accept_min_size q) against_tokens st.
Proof.
  revert st. induction against_tokens as [|a against_tokens IH]; intros st;
    [reflexivity|].
  cbn [map fold_left]. rewrite against_step_recoded. apply IH.
Qed.

Lemma query_loop_recoded (accept_min_size : Z)
  (against_tokens qs : list token) (score : double) :
  query_loop accept_min_size (map (recode_token g) against_tokens)
    (map (recode_token f) qs) score
  = query_loop accept_min_size against_tokens qs score.
Proof.
  revert score. induction qs as [|q qs IH]; intros score; [reflexivity|].
  cbn [map query_loop]. rewrite against_fold_recoded.
  destruct (fold_left (against_step accept_min_size q) against_tokens
              (score, false)) as [score' has_match].
  destruct has_match; [apply IH|reflexivity].
Qed.

End Recoded.

(** X9: the scoring function sees a character only through its being a
    space separator and through its lower-case form.  Recoding the query
    and the field, each by a map that keeps both, leaves the score as it
    is; so the match is blind to case on both sides, whatever the strings
    and the minimum length. *)
Theorem score_depends_on_class_and_case (f g : gunichar -> gunichar)
  (query against : cstr) (accept_min_size : Z) :
  keeps_class_and_case f -> keeps_class_and_case g ->
  test_strings (map f query) (map g against) accept_min_size
  = test_strings query against accept_min_size.
Proof.
  intros Hf Hg. unfold test_strings, UTF8_FOREACH_TOKEN_FORWARDS.
  rewrite !length_map.
  rewrite (tokens_from_recoded f) by exact Hf.
  rewrite (tokens_from_recoded g) by exact Hg.
  now apply query_loop_recoded.
Qed.

End RecodingFacts.

(** The space separators, one by one. *)
Lemma is_space_separator_spec (c : gunichar) :
  is_space_separator c = true
  <-> c = 32 \/ c = 160 \/ c = 5760 \/ 8192 <= c <= 8202
      \/ c = 8239 \/ c = 8287 \/ c = 12288.
Proof.
  unfold is_space_separator, g_unichar_type, in_range.
  repeat match goal with
         | |- context [?a <=? ?b] => destruct (Z.leb_spec a b)
         | |- context [?a =? ?b] => destruct (Z.eqb_spec a b)
         end;
    cbn; split; intros; try discriminate; try reflexivity; lia.
Qed.

Lemma c_tolower_cases (c : gunichar) :
  (65 <= c <= 90 /\ c_tolower c = c + 32)
  \/ (~ 65 <= c <= 90 /\ c_tolower c = c).
Proof.
  unfold c_tolower.
  destruct (Z.leb_spec 65 c); destruct (Z.leb_spec c 90); cbn [andb];
    [left|right|right|right]; (split; [lia|reflexivity]).
Qed.

Lemma ascii_case_keeps_class_and_case :
  @keeps_class_and_case ascii_case c_tolower.
Proof.
  intros c. cbn [g_unichar_tolower ascii_case].
  destruct (c_tolower_cases c) as [[Hc He]|[Hc He]]; rewrite !He;
    [|split; reflexivity].
  split.
  - destruct (is_space_separator (c + 32)) eqn:H1;
      destruct (is_space_separator c) eqn:H2; try reflexivity;
      first [apply is_space_separator_spec in H1; lia
            |apply is_space_separator_spec in H2; lia].
  - destruct (c_tolower_cases (c + 32)) as [[Hc' _]|[_ He']];
      [lia|exact He'].
Qed.

Lemma score_depends_on_class_and_case_witness :
  @test_strings ascii_case rational
    (map c_tolower (utf8 "WEB")) (map c_tolower (utf8 "Firefox Web")) 2
  = @test_strings ascii_case rational (utf8 "WEB") (utf8 "Firefox Web") 2.
Proof.
  apply (@score_depends_on_class_and_case ascii_case rational
           c_tolower c_tolower (utf8 "WEB") (utf8 "Firefox Web") 2).
  - exact ascii_case_keeps_class_and_case.
  - exact ascii_case_keeps_class_and_case.
Defined.


(* ------------------------------------------------------------------ *)
(** ** Tokens that can match nothing *)

Section GuardFacts.
Context {U : Unicode} {DBL : Double}.

Lemma drop_while_all (f : gunichar -> bool) (s : cstr) :
  drop_while f s = [] -> Forall (fun c => f c = true) s.
Proof.
  induction s as [|c s IH]; [constructor|].
  cbn [drop_while]. destruct (f c) eqn:Hc; [|discriminate].
  intros H. constructor; [exact Hc|now apply IH].
Qed.

Lemma drop_while_snoc_kept (f : gunichar -> bool) (l : cstr) (c : gunichar) :
  f c = false -> drop_while f (l ++ [c]) = drop_while f l ++ [c].
Proof.
  intros Hc. induction l as [|a l IH]; cbn [app drop_while].
  - now rewrite Hc.
  - destruct (f a); [exact IH|reflexivity].
Qed.

Lemma drop_while_snoc_dropped (f : gunichar -> bool) (l : cstr)
  (c : gunichar) :
  f c = true ->
  drop_while f (l ++ [c])
  = match drop_while f l with
    | [] => []
    | a :: r => (a :: r) ++ [c]
    end.
Proof.
  intros Hc. induction l as [|a l IH]; cbn [app drop_while].
  - now rewrite Hc.
  - destruct (f a); [exact IH|reflexivity].
Qed.

(** A string that ends in a separator gets, after its proper tokens, one
    token of length 0 that starts at the trailing separators. *)
Lemma tokens_from_trailing (fuel : nat) (s pre : cstr) (c : gunichar) :
  (length s < fuel)%nat -> s = pre ++ [c] -> is_space_separator c = true ->
  exists toks t,
    tokens_from fuel s
    = toks ++ [{| tok_start := t; tok_end := []; tok_utf8_len := 0 |}]
    /\ t <> []
    /\ Forall (fun x => is_space_separator x = true) t.
Proof.
  revert s pre. induction fuel as [|fuel IH]; intros s pre Hlen Hs Hc;
    [lia|].
  rewrite tokens_from_step.
  destruct (drop_while is_space_separator s) as [|c1 s1] eqn:Hd.
  - destruct s as [|x s]; [now destruct pre|].
    exists [], (x :: s). split; [reflexivity|]. split; [discriminate|].
    now apply drop_while_all.
  - pose proof (drop_while_head _ _ _ _ Hd) as Hc1.
    assert (Hrest : exists pre',
               drop_while not_separator (c1 :: s1) = pre' ++ [c]).
    { rewrite <- Hd, Hs, (drop_while_snoc_dropped _ _ _ Hc).
      rewrite Hs, (drop_while_snoc_dropped _ _ _ Hc) in Hd.
      destruct (drop_while is_space_separator pre) as [|a r];
        [discriminate|].
      rewrite drop_while_snoc_kept
        by (unfold not_separator; now rewrite Hc).
      now exists (drop_while not_separator (a :: r)). }
    destruct Hrest as [pre' Hrest].
    assert (Hshort : (length (drop_while not_separator (c1 :: s1))
                      < fuel)%nat).
    { cbn [drop_while]. unfold not_separator at 1. rewrite Hc1. cbn [negb].
      pose proof (drop_while_length not_separator s1).
      pose proof (drop_while_length is_space_separator s) as Hl.
      rewrite Hd in Hl. cbn [length] in Hl. lia. }
    destruct (IH _ pre' Hshort Hrest Hc) as (toks & t & Ht & Hne & Hall).
    exists (proper_token (take_while not_separator (c1 :: s1))
              (drop_while not_separator (c1 :: s1)) :: toks), t.
    rewrite Ht. now repeat split.
Qed.

Lemma segments_non_separators (fuel : nat) (s : cstr) :
  Forall (fun wr => Forall (fun c => not_separator c = true) (fst wr))
    (segments fuel s).
Proof.
  revert s. induction fuel as [|fuel IH]; intros s; [constructor|].
  cbn [segments].
  destruct (drop_while is_space_separator s) as [|c s1]; [constructor|].
  constructor; [apply take_while_all|apply IH].
Qed.

(** The token of length 0 is found in no proper token of the field: its
    first character is a separator, the character it is compared with is
    not. *)
Lemma trailing_token_scan (t against_tok_end u : cstr)
  (against_tok_utf8_len consumed : Z) :
  case_keeps_separators ->
  t <> [] -> Forall (fun x => is_space_separator x = true) t ->
  Forall (fun x => not_separator x = true) u ->
  scan_from {| tok_start := t; tok_end := []; tok_utf8_len := 0 |}
    (u ++ against_tok_end) against_tok_end against_tok_utf8_len consumed
  = false.
Proof.
  intros Hcase Hne Hsep Hu. revert consumed.
  induction Hu as [|x u Hx Hu IH]; intros consumed.
  - cbn [app]. destruct against_tok_end as [|y e]; [reflexivity|].
    cbn [scan_from]. unfold ptr_lt. now rewrite Nat.ltb_irrefl.
  - cbn [app scan_from]. unfold ptr_lt at 1.
    destruct (Nat.ltb_spec (length against_tok_end)
                (length (x :: u ++ against_tok_end))) as [_|Hl];
      [|reflexivity].
    cbn [tok_utf8_len tok_start tok_end].
    assert (Hroom : (0 >? (against_tok_utf8_len - consumed)
                           mod gsize_modulus) = false).
    { pose proof (Z.mod_pos_bound (against_tok_utf8_len - consumed)
                    gsize_modulus) as Hb.
      unfold gsize_modulus in *. rewrite Z.gtb_ltb. apply Z.ltb_ge. lia. }
    rewrite Hroom.
    destruct t as [|c0 t]; [contradiction|].
    inversion Hsep as [|? ? Hc0 _]; subst.
    cbn [compare_from]. unfold ptr_lt. cbn [length Nat.ltb Nat.leb].
    cbn [g_utf8_get_char].
    assert (Hneq : (g_unichar_tolower x =? g_unichar_tolower c0) = false).
    { apply Z.eqb_neq. apply Hcase; [exact Hc0|].
      unfold not_separator in Hx. now destruct (is_space_separator x). }
    rewrite Hneq. apply IH.
Qed.

Lemma fold_left_fixed {A B} (step : A -> B -> A) (l : list B) (st : A) :
  Forall (fun b => forall st', step st' b = st') l ->
  fold_left step l st = st.
Proof.
  induction 1 as [|b l Hb _ IH]; [reflexivity|].
  cbn [fold_left]. now rewrite Hb.
Qed.

Lemma query_loop_last_unmatched (accept_min_size : Z)
  (against_tokens qs : list token) (q : token) (score : double) :
  (forall score',
      fold_left (against_step accept_min_size q) against_tokens
        (score', false)
      = (score', false)) ->
  query_loop accept_min_size against_tokens (qs ++ [q]) score = d_lit 0.
Proof.
  intros Hq. revert score. induction qs as [|q0 qs IH]; intros score.
  - cbn [app query_loop]. now rewrite Hq.
  - cbn [app query_loop].
    destruct (fold_left (against_step accept_min_size q0) against_tokens
                (score, false)) as [score' has_match].
    destruct has_match; [apply IH|reflexivity].
Qed.

(** X10: a query string that ends in a space separator scores exactly 0
    on every field that is read with a positive minimum length (title,
    developer, description), and on every field that does not itself end
    in a separator.  The macro makes one more token of the trailing
    separators, of length 0, which no token of the field contains, so the
    query counts as unmatched whatever its other tokens are. *)
Theorem trailing_separator_voids_the_query (pre : cstr) (c : gunichar)
  (against : cstr) (accept_min_size : Z) :
  case_keeps_separators ->
  is_space_separator c = true ->
  0 < accept_min_size \/ no_trailing_separator against ->
  test_strings (pre ++ [c]) against accept_min_size = d_lit 0.
Proof.
  intros Hcase Hc Hfield. unfold test_strings, UTF8_FOREACH_TOKEN_FORWARDS.
  destruct (tokens_from_trailing (S (length (pre ++ [c]))) (pre ++ [c])
              pre c) as (toks & t & -> & Hne & Hsep);
    [lia|reflexivity|exact Hc|].
  apply query_loop_last_unmatched. intros score'.
  apply fold_left_fixed.
  destruct (tokens_from_segments (S (length against)) against)
    as (spurious & -> & Hsp); [lia|].
  apply Forall_app. split.
  - pose proof (segments_non_separators (S (length against)) against) as Hw.
    induction Hw as [|[wa ra] segs Hwa _ IH]; [constructor|].
    cbn [map fst snd]. constructor; [|exact IH].
    intros st. unfold against_step.
    destruct ((accept_min_size >? 0)
              && (tok_utf8_len (proper_token wa ra) <? accept_min_size));
      [reflexivity|].
    unfold token_matches, proper_token.
    cbn [tok_start tok_end tok_utf8_len].
    now rewrite trailing_token_scan.
  - destruct Hsp as [->|(t' & pre' & c' & -> & _ & Hs & Hc')];
      [constructor|].
    destruct Hfield as [Hmin|Htrail].
    + constructor; [|constructor]. intros st. unfold against_step.
      cbn [tok_utf8_len].
      destruct (Z.gtb_spec accept_min_size 0); [|lia].
      destruct (Z.ltb_spec 0 accept_min_size); [|lia]. reflexivity.
    + rewrite (Htrail pre' c' Hs) in Hc'. discriminate.
Qed.

(** X11: a field without a token of the minimum accepted length scores
    exactly 0 for every query that is not empty: the tokens that are too
    short are passed over before any comparison, so the first query token
    stays unmatched.  An empty field is the plainest case. *)
Theorem short_tokens_score_nothing (query against : cstr)
  (accept_min_size : Z) :
  query <> [] ->
  Forall (fun w => Z.of_nat (length w) < accept_min_size)
    (split_tokens is_space_separator against []) ->
  0 < accept_min_size ->
  test_strings query against accept_min_size = d_lit 0.
Proof.
  intros Hq Hshort Hmin. unfold test_strings, UTF8_FOREACH_TOKEN_FORWARDS.
  rewrite (split_tokens_segments (S (length against)) against) in Hshort
    by lia.
  destruct (tokens_from_segments (S (length against)) against)
    as (spurious & -> & Hsp); [lia|].
  assert (Hskip : Forall
                    (fun a => forall (q : token) (st : double * bool),
                         against_step accept_min_size q st a = st)
                    (map (fun wr => proper_token (fst wr) (snd wr))
                       (segments (S (length against)) against)
                     ++ spurious)).
  { apply Forall_app. split.
    - apply Forall_map. rewrite Forall_map in Hshort.
      eapply Forall_impl; [|exact Hshort].
      intros [wa ra] Hwa q st. cbn [fst snd] in *. unfold against_step.
      cbn [proper_token tok_utf8_len].
      destruct (Z.gtb_spec accept_min_size 0); [|lia].
      destruct (Z.ltb_spec (Z.of_nat (length wa)) accept_min_size); [|lia].
      reflexivity.
    - destruct Hsp as [->|(t' & pre' & c' & -> & _)]; [constructor|].
      constructor; [|constructor]. intros q st. unfold against_step.
      cbn [tok_utf8_len].
      destruct (Z.gtb_spec accept_min_size 0); [|lia].
      destruct (Z.ltb_spec 0 accept_min_size); [|lia]. reflexivity. }
  rewrite tokens_from_step.
  assert (Hfirst : forall q qs,
             query_loop accept_min_size
               (map (fun wr => proper_token (fst wr) (snd wr))
                  (segments (S (length against)) against)
                ++ spurious)
               (q :: qs) (d_lit 0)
             = d_lit 0).
  { intros q qs. cbn [query_loop]. rewrite fold_left_fixed; [reflexivity|].
    eapply Forall_impl; [|exact Hskip]. intros a Ha st. apply Ha. }
  destruct (drop_while is_space_separator query) as [|c1 s1].
  - destruct query as [|x query]; [contradiction|]. apply Hfirst.
  - apply Hfirst.
Qed.

End GuardFacts.

Lemma ascii_case_keeps_separators : @case_keeps_separators ascii_case.
Proof.
  intros a b Ha Hb Heq. cbn [g_unichar_tolower ascii_case] in Heq.
  apply is_space_separator_spec in Ha.
  destruct (c_tolower_cases a) as [[Hra Hea]|[Hra Hea]]; [lia|].
  rewrite Hea in Heq.
  destruct (c_tolower_cases b) as [[Hrb Heb]|[Hrb Heb]];
    rewrite Heb in Heq.
  - lia.
  - subst b. apply is_space_separator_spec in Ha. congruence.
Qed.

Lemma trailing_separator_voids_the_query_witness :
  @test_strings ascii_case rational (utf8 "web" ++ [32]) (utf8 "Web") 2
  = 0%Q.
Proof.
  apply (@trailing_separator_voids_the_query ascii_case rational
           (utf8 "web") 32 (utf8 "Web") 2).
  - exact ascii_case_keeps_separators.
  - reflexivity.
  - left. lia.
Defined.

Lemma short_tokens_score_nothing_witness :
  @test_strings ascii_case rational (utf8 "go") (utf8 "go to it") 3 = 0%Q.
Proof.
  apply (@short_tokens_score_nothing ascii_case rational
           (utf8 "go") (utf8 "go to it") 3).
  - discriminate.
  - vm_compute. repeat constructor.
  - lia.
Defined.


(* ------------------------------------------------------------------ *)
(** ** Entry groups *)

Section GroupFacts.

Lemma gtk_string_list_find_none (self : list cstr) (s : cstr) :
  gtk_string_list_find self s = None <-> ~ In s self.
Proof.
  induction self as [|x self IH]; cbn [gtk_string_list_find In].
  - split; [intros _ []|reflexivity].
  - destruct (cstr_eqb x s) eqn:Hx.
    + apply cstr_eqb_eq in Hx. split; [discriminate|]. intros H.
      exfalso. apply H. now left.
    + assert (Hne : x <> s).
      { intros ->. now rewrite cstr_eqb_refl in Hx. }
      destruct (gtk_string_list_find self s) as [i|]; cbn [option_map].
      * split; [discriminate|]. intros H. exfalso.
        destruct IH as [_ IH].
        assert (Hin : ~ In s self) by (intros Hin; apply H; now right).
        specialize (IH Hin). discriminate.
      * split; [|reflexivity]. intros _ [Heq|Hin]; [now apply Hne|].
        destruct IH as [IH _]. now apply IH.
Qed.

Lemma gtk_string_list_find_some (self : list cstr) (s : cstr) (i : nat) :
  gtk_string_list_find self s = Some i ->
  exists before after,
    self = before ++ s :: after /\ length before = i /\ ~ In s before.
Proof.
  revert i. induction self as [|x self IH]; intros i;
    cbn [gtk_string_list_find]; [discriminate|].
  destruct (cstr_eqb x s) eqn:Hx.
  - apply cstr_eqb_eq in Hx. subst x. intros [= <-].
    exists [], self. repeat split. intros [].
  - destruct (gtk_string_list_find self s) as [k|]; [|discriminate].
    cbn [option_map]. intros [= <-].
    destruct (IH k eq_refl) as (before & after & -> & Hk & Hnot).
    exists (x :: before), after. cbn [app length]. repeat split.
    + now rewrite Hk.
    + intros [Heq|Hin]; [|now apply Hnot].
      subst x. now rewrite cstr_eqb_refl in Hx.
Qed.

Lemma gtk_string_list_splice_front (self : list cstr) (s : cstr) :
  gtk_string_list_splice self 0 0 [s] = s :: self.
Proof. reflexivity. Qed.

Lemma gtk_string_list_remove_at (before after : list cstr) (s : cstr) :
  gtk_string_list_remove (before ++ s :: after) (length before)
  = before ++ after.
Proof.
  unfold gtk_string_list_remove, gtk_string_list_splice.
  destruct (Nat.leb_spec (length before + 1)
              (length (before ++ s :: after))) as [_|H].
  - rewrite firstn_app, Nat.sub_diag, firstn_all, firstn_O, app_nil_r.
    cbn [app]. f_equal.
    rewrite skipn_app.
    rewrite skipn_all2 by lia.
    replace (length before + 1 - length before)%nat with 1%nat by lia.
    reflexivity.
  - rewrite length_app in H. cbn [length] in H. lia.
Qed.

Lemma gtk_string_list_splice_length (self : list cstr)
  (position n_removals : nat) (additions : list cstr) :
  (position + n_removals <= length self)%nat ->
  length (gtk_string_list_splice self position n_removals additions)
  = (length self - n_removals + length additions)%nat.
Proof.
  intros H. unfold gtk_string_list_splice.
  destruct (Nat.leb_spec (position + n_removals) (length self)); [|lia].
  rewrite !length_app, length_firstn, length_skipn. lia.
Qed.

(** X12: adding an entry keeps a group well formed.  The two string
    lists stay of one length and no unique id is listed twice, the
    counters stay between 0 and the number of unique ids with the
    available counts below the plain ones, and the unique ids of the
    group are those it had and the one of the entry. *)
Theorem add_keeps_group_well_formed (application_id : option cstr)
  (self : _BzEntryGroup) (entry : BzEntry) (runtime : option BzEntry)
  (ignore_eol : bool) (self' : _BzEntryGroup) :
  group_well_formed self ->
  bz_entry_group_add application_id self entry runtime ignore_eol
  = Some self' ->
  group_well_formed self'
  /\ exists unique_id,
       bz_entry_get_unique_id entry = Some unique_id
       /\ forall u,
            In u (unique_ids self')
            <-> u = unique_id \/ In u (unique_ids self).
Proof.
  intros [Hpar Hnodup Hinst Hrem Hcount]. unfold bz_entry_group_add.
  destruct (bz_entry_get_unique_id entry) as [unique_id|]; [|discriminate].
  intros [= <-].
  destruct (gtk_string_list_find (unique_ids self) unique_id) as [i|] eqn:Hf.
  - (* the entry is in the group already *)
    destruct (gtk_string_list_find_some _ _ _ Hf)
      as (before & after & Hl & Hi & Hnot).
    assert (Hin : In unique_id (unique_ids self)).
    { rewrite Hl. apply in_or_app. right. now left. }
    assert (Hlen : (i < length (installed_versions self))%nat).
    { rewrite <- Hpar, Hl, length_app. cbn [length]. lia. }
    destruct (bz_entry_calc_usefulness entry >=? max_usefulness self).
    + split; [|exists unique_id; split; [reflexivity|]].
      * constructor; cbn [unique_ids installed_versions installable
                            removable installable_available
                            removable_available is_null andb];
          rewrite ?gtk_string_list_splice_front.
        -- cbn [length]. unfold gtk_string_list_remove.
           rewrite !gtk_string_list_splice_length by lia.
           cbn [length]. lia.
        -- rewrite Hl, <- Hi, gtk_string_list_remove_at.
           rewrite Hl in Hnodup. apply NoDup_remove in Hnodup.
           now constructor.
        -- exact Hinst.
        -- exact Hrem.
        -- cbn [length]. unfold gtk_string_list_remove.
           rewrite gtk_string_list_splice_length by lia.
           cbn [length]. lia.
      * intros u. cbn [unique_ids]. rewrite gtk_string_list_splice_front.
        rewrite Hl at 1. rewrite <- Hi, gtk_string_list_remove_at.
        rewrite Hl. cbn [In]. rewrite !in_app_iff. cbn [In].
        intuition congruence.
    + split; [|exists unique_id; split; [reflexivity|]].
      * now constructor.
      * intros u. cbn [unique_ids]. split; [now right|].
        intros [->|H]; assumption.
  - (* the entry is new to the group *)
    apply gtk_string_list_find_none in Hf.
    assert (Hone :
              forall (b1 b2 b3 : bool),
                let i' := if true && negb b1 && negb b2
                          then installable self + 1 else installable self in
                let r' := if true && b1
                          then removable self + 1 else removable self in
                let ia' := if true && negb b1 && negb b2 && b3
                           then installable_available self + 1
                           else installable_available self in
                let ra' := if true && b1 && b3
                           then removable_available self + 1
                           else removable_available self in
                0 <= ia' <= i' /\ 0 <= ra' <= r'
                /\ i' + r' <= Z.of_nat (length (unique_ids self)) + 1).
    { intros [] [] []; cbn; lia. }
    specialize (Hone (bz_entry_is_installed entry)
                  (bz_flatpak_entry_is_installed_ref entry)
                  (negb (bz_entry_is_holding entry))).
    cbv zeta in Hone. destruct Hone as (Hi' & Hr' & Hc').
    destruct (bz_entry_calc_usefulness entry >=? max_usefulness self).
    + split; [|exists unique_id; split; [reflexivity|]].
      * constructor; cbn [unique_ids installed_versions installable
                            removable installable_available
                            removable_available is_null];
          rewrite ?gtk_string_list_splice_front.
        -- cbn [length]. now rewrite Hpar.
        -- now constructor.
        -- exact Hi'.
        -- exact Hr'.
        -- cbn [length]. lia.
      * intros u. cbn [unique_ids]. rewrite gtk_string_list_splice_front.
        cbn [In]. intuition congruence.
    + split; [|exists unique_id; split; [reflexivity|]].
      * constructor; cbn [unique_ids installed_versions installable
                            removable installable_available
                            removable_available is_null];
          unfold gtk_string_list_append.
        -- rewrite !length_app. cbn [length]. now rewrite Hpar.
        -- eapply Permutation_NoDup; [apply Permutation_cons_append|].
           now constructor.
        -- exact Hi'.
        -- exact Hr'.
        -- rewrite length_app. cbn [length]. lia.
      * intros u. cbn [unique_ids]. unfold gtk_string_list_append.
        rewrite in_app_iff. cbn [In]. intuition congruence.
Qed.

(** X13: the notifications of an entry undo one another only in part.
    After the entry is reported installed and then removed again, with its
    holding flag unchanged, the four counters of the group are what they
    were if the entry is not an installed ref; for an installed ref the
    installable count ends one lower, and so does the available
    installable count unless the entry is held.  A hold followed by its
    release always restores the counters.  Neither handler changes the
    unique ids, and the two lists stay of one length. *)
Theorem notifications_round_trip (self : _BzEntryGroup)
  (installed_entry removed_entry : BzEntry) (s1 s2 : _BzEntryGroup) :
  bz_entry_is_installed installed_entry = true ->
  bz_entry_is_installed removed_entry = false ->
  bz_entry_is_holding installed_entry = bz_entry_is_holding removed_entry ->
  length (unique_ids self) = length (installed_versions self) ->
  installed_changed self installed_entry = Some s1 ->
  installed_changed s1 removed_entry = Some s2 ->
  counters s2
  = (if bz_flatpak_entry_is_installed_ref removed_entry
     then (installable self - 1, removable self,
           if bz_entry_is_holding removed_entry
           then installable_available self
           else installable_available self - 1,
           removable_available self)
     else counters self)
  /\ unique_ids s2 = unique_ids self
  /\ length (installed_versions s2) = length (unique_ids s2)
  /\ forall held released,
       bz_entry_is_holding held = true ->
       bz_entry_is_holding released = false ->
       bz_entry_is_installed held = bz_entry_is_installed released ->
       counters (holding_changed (holding_changed self held) released)
       = counters self.
Proof.
  intros Hi1 Hi2 Hhold Hpar. unfold installed_changed.
  destruct (bz_entry_get_unique_id installed_entry) as [u1|]; [|discriminate].
  intros [= <-]. cbn [unique_ids installed_versions].
  destruct (bz_entry_get_unique_id removed_entry) as [u2|]; [|discriminate].
  intros [= <-]. unfold counters.
  cbn [installable removable installable_available removable_available
       unique_ids installed_versions].
  rewrite Hi1, Hi2, Hhold.
  split; [|split; [reflexivity|split]].
  - destruct (bz_flatpak_entry_is_installed_ref removed_entry);
      destruct (bz_entry_is_holding removed_entry); cbn [negb];
      repeat f_equal; lia.
  - assert (Hsplice : forall l k v,
               length (match gtk_string_list_find (unique_ids self) k with
                       | Some index => gtk_string_list_splice l index 1 [v]
                       | None => l
                       end)
               = length l).
    { intros l k v.
      destruct (gtk_string_list_find (unique_ids self) k) as [i|];
        [|reflexivity].
      unfold gtk_string_list_splice.
      destruct (Nat.leb_spec (i + 1) (length l)); [|reflexivity].
      rewrite !length_app, length_firstn, length_skipn. cbn [length]. lia. }
    now rewrite !Hsplice.
  - intros held released Hh Hr Hsame. unfold holding_changed.
    cbn [installable removable installable_available removable_available].
    rewrite Hh, Hr, Hsame.
    destruct (bz_entry_is_installed released); repeat f_equal; lia.
Qed.

End GroupFacts.


Lemma add_keeps_group_well_formed_witness :
  exists self',
    bz_entry_group_add None bz_entry_group_init Store.stable None false
    = Some self'
    /\ group_well_formed self'
    /\ unique_ids self' = [utf8 "flathub stable firefox"].
Proof.
  eexists. split; [reflexivity|].
  split; [|reflexivity].
  eapply (add_keeps_group_well_formed None bz_entry_group_init Store.stable
            None false).
  - constructor; cbn; try lia; try reflexivity. constructor.
  - reflexivity.
Defined.

Lemma notifications_round_trip_witness :
  exists s0 s1 s2,
    bz_entry_group_add None bz_entry_group_init Store.stable None false
    = Some s0
    /\ installed_changed s0 Store.stable_installed = Some s1
    /\ installed_changed s1 Store.stable = Some s2
    /\ counters s1 = (0, 1, 0, 1)
    /\ counters s2 = counters s0.
Proof.
  eexists. eexists. eexists.
  split; [reflexivity|]. split; [reflexivity|]. split; [reflexivity|].
  split; [reflexivity|].
  eapply (notifications_round_trip _ Store.stable_installed Store.stable);
    reflexivity.
Defined.

(* ------------------------------------------------------------------ *)
(** ** The group filter *)

Section FilterFacts.
Context {RE : RegexEngine}.

Lemma lowest_priority_spec (hit : BlocklistRegexData -> bool)
  (datas : list BlocklistRegexData) (start : Z) :
  lowest_priority hit datas start <= start
  /\ (forall data,
        In data datas -> hit data = true ->
        lowest_priority hit datas start <= priority data)
  /\ (lowest_priority hit datas start = start
      \/ exists data,
           In data datas /\ hit data = true
           /\ priority data = lowest_priority hit datas start).
Proof.
  unfold lowest_priority. revert start.
  induction datas as [|d datas IH]; intros start; cbn [fold_left].
  - split; [lia|]. split; [intros data []|now left].
  - set (next := if (priority d <? start) && hit d then priority d
                 else start).
    destruct (IH next) as (Hle & Hall & Hex).
    assert (Hnext : next <= start
                    /\ (hit d = true -> next <= priority d)
                    /\ (next = start
                        \/ (hit d = true /\ priority d = next))).
    { unfold next. destruct (Z.ltb_spec (priority d) start);
        destruct (hit d); cbn [andb]; repeat split; try lia;
        try discriminate; auto. }
    destruct Hnext as (Hn1 & Hn2 & Hn3).
    split; [lia|]. split.
    + intros data [<-|Hin] Hhit; [specialize (Hn2 Hhit); lia|].
      now apply Hall.
    + destruct Hex as [Heq|(data & Hin & Hhit & Hp)].
      * destruct Hn3 as [Hs|[Hhit Hp]]; [left; lia|].
        right. exists d. split; [now left|]. split; [exact Hhit|lia].
      * right. exists data. split; [now right|]. now split.
Qed.

Lemma blocklist_fold_pair (key : cstr) (datas : list BlocklistRegexData)
  (allowed_priority blocked_priority : Z) :
  fold_left (blocklist_step (Some key)) datas
    (allowed_priority, blocked_priority)
  = (lowest_priority (fun data => allows data key) datas allowed_priority,
     lowest_priority (fun data => blocks data key) datas blocked_priority).
Proof.
  unfold lowest_priority.
  revert allowed_priority blocked_priority.
  induction datas as [|d datas IH]; intros a b; [reflexivity|].
  cbn [fold_left]. unfold blocklist_step at 2, allows at 2, blocks at 2.
  cbn [g_regex_match_id].
  replace (match allow d with
           | Some compiled =>
               if (priority d <? a) && g_regex_match compiled key
               then priority d else a
           | None => a
           end)
    with (if (priority d <? a)
             && match allow d with
                | Some compiled => g_regex_match compiled key
                | None => false
                end
          then priority d else a)
    by (destruct (allow d); [reflexivity|now rewrite andb_false_r]).
  replace (match block d with
           | Some compiled =>
               if (priority d <? b) && g_regex_match compiled key
               then priority d else b
           | None => b
           end)
    with (if (priority d <? b)
             && match block d with
                | Some compiled => g_regex_match compiled key
                | None => false
                end
          then priority d else b)
    by (destruct (block d); [reflexivity|now rewrite andb_false_r]).
  apply IH.
Qed.

Lemma blocklist_fold_without_id (datas : list BlocklistRegexData)
  (st : Z * Z) :
  fold_left (blocklist_step None) datas st = st.
Proof.
  revert st. induction datas as [|d datas IH]; intros [a b]; [reflexivity|].
  cbn [fold_left]. unfold blocklist_step at 2. cbn [g_regex_match_id].
  rewrite !andb_false_r.
  destruct (allow d); destruct (block d); apply IH.
Qed.

Lemma fold_left_concat {A B} (f : A -> B -> A) (ll : list (list B))
  (st : A) :
  fold_left (fun st' l => fold_left f l st') ll st
  = fold_left f (concat ll) st.
Proof.
  revert st. induction ll as [|l ll IH]; intros st; [reflexivity|].
  cbn [fold_left concat]. now rewrite fold_left_app, IH.
Qed.

Lemma txt_blocked_with_id (sets : list (list cstr)) (key : cstr) :
  txt_blocked sets (Some key)
  = Some (existsb (fun set => g_hash_table_contains set key) sets).
Proof.
  induction sets as [|set sets IH]; [reflexivity|].
  cbn [txt_blocked existsb].
  destruct (g_hash_table_contains set key); [reflexivity|exact IH].
Qed.

(** The comparison that ends the filter, on the least priorities. *)
Lemma verdict_spec (datas : list BlocklistRegexData) (key : cstr) :
  (lowest_priority (fun data => allows data key) datas G_MAXINT
   <=? lowest_priority (fun data => blocks data key) datas G_MAXINT) = true
  <-> blocks_answered datas key.
Proof.
  destruct (lowest_priority_spec (fun data => allows data key) datas
              G_MAXINT) as (Ha1 & Ha2 & Ha3).
  destruct (lowest_priority_spec (fun data => blocks data key) datas
              G_MAXINT) as (Hb1 & Hb2 & Hb3).
  rewrite Z.leb_le. split.
  - intros Hle d Hin Hblocks Hp.
    specialize (Hb2 d Hin Hblocks).
    destruct Ha3 as [Heq|(d' & Hin' & Hallows & Hp')]; [lia|].
    exists d'. split; [exact Hin'|]. split; [exact Hallows|lia].
  - intros Hans.
    destruct Hb3 as [Heq|(d & Hin & Hblocks & Hp)]; [lia|].
    destruct (Z.eq_dec (priority d) G_MAXINT) as [Hmax|Hmax]; [lia|].
    destruct (Hans d Hin Hblocks) as (d' & Hin' & Hallows & Hp'); [lia|].
    specialize (Ha2 d' Hin' Hallows). lia.
Qed.

(** The filter on a group that has an identifier. *)
Lemma validate_with_id (self : BzApplication) (group : _BzEntryGroup)
  (key : cstr) :
  id (engine_fields group) = Some key ->
  validate_group_for_ui self group
  = Some
      (negb (hidden_by_settings self group)
       && (bz_state_info_get_disable_blocklists (state self)
           || (negb (existsb (fun set => g_hash_table_contains set key)
                       (txt_blocked_id_sets self))
               && (lowest_priority (fun data => allows data key)
                     (concat (blocklist_regexes self)) G_MAXINT
                   <=? lowest_priority (fun data => blocks data key)
                         (concat (blocklist_regexes self)) G_MAXINT)))).
Proof.
  intros Hid. unfold validate_group_for_ui, hidden_by_settings.
  destruct (bz_state_info_get_hide_eol (state self)
            && negb (is_null (eol group))); [reflexivity|].
  destruct (bz_state_info_get_show_only_foss (state self)
            && negb (is_floss group)); [reflexivity|].
  destruct (bz_state_info_get_show_only_flathub (state self)
            && negb (is_flathub group)); [reflexivity|].
  destruct (bz_state_info_get_show_only_verified (state self)
            && negb (is_verified group)); [reflexivity|].
  cbn [orb negb andb].
  destruct (bz_state_info_get_disable_blocklists (state self));
    [reflexivity|].
  cbn [orb]. rewrite Hid, txt_blocked_with_id.
  destruct (existsb (fun set => g_hash_table_contains set key)
              (txt_blocked_id_sets self)); [reflexivity|].
  rewrite fold_left_concat, blocklist_fold_pair. reflexivity.
Qed.

(** X14: which groups the application shows.  A group with an identifier
    passes the filter if and only if none of the four settings hides it
    and either the blocklists are disabled, or the identifier is in no
    text blocklist and every expression that blocks it with a priority
    number below G_MAXINT is answered by an expression of any blocklist
    that allows it with the same or a smaller priority number.  A block
    of priority G_MAXINT never takes effect, and an allow wins a tie. *)
Theorem group_is_shown_iff (self : BzApplication) (group : _BzEntryGroup)
  (key : cstr) :
  id (engine_fields group) = Some key ->
  validate_group_for_ui self group <> None
  /\ (validate_group_for_ui self group = Some true
      <-> hidden_by_settings self group = false
          /\ (bz_state_info_get_disable_blocklists (state self) = true
              \/ (Forall (fun set => ~ In key set)
                    (txt_blocked_id_sets self)
                  /\ blocks_answered (concat (blocklist_regexes self))
                       key))).
Proof.
  intros Hid. rewrite (validate_with_id self group key Hid).
  split; [discriminate|].
  assert (Htxt : existsb (fun set => g_hash_table_contains set key)
                   (txt_blocked_id_sets self) = false
                 <-> Forall (fun set => ~ In key set)
                       (txt_blocked_id_sets self)).
  { rewrite <- Bool.not_true_iff_false, existsb_exists, Forall_forall.
    split.
    - intros Hno set Hin Hkey. apply Hno. exists set.
      split; [exact Hin|]. now apply g_hash_table_contains_In.
    - intros Hall (set & Hin & Hkey).
      apply g_hash_table_contains_In in Hkey. now apply (Hall set). }
  rewrite <- verdict_spec, <- Htxt.
  destruct (hidden_by_settings self group);
    destruct (bz_state_info_get_disable_blocklists (state self));
    destruct (existsb _ (txt_blocked_id_sets self));
    destruct (_ <=? _); cbn; split; intuition congruence.
Qed.

(** X15: the order of the blocklists does not matter.  Two applications
    with the same settings, the same text blocklists in any order and
    the same blocking and allowing expressions in any order and grouping
    give every group the same verdict. *)
Theorem blocklist_order_is_irrelevant (a1 a2 : BzApplication)
  (group : _BzEntryGroup) :
  state a1 = state a2 ->
  Permutation (txt_blocked_id_sets a1) (txt_blocked_id_sets a2) ->
  Permutation (concat (blocklist_regexes a1))
    (concat (blocklist_regexes a2)) ->
  validate_group_for_ui a1 group = validate_group_for_ui a2 group.
Proof.
  intros Hstate Htxt Hre.
  destruct (id (engine_fields group)) as [key|] eqn:Hid.
  - rewrite !(validate_with_id _ group key Hid).
    unfold hidden_by_settings. rewrite Hstate. f_equal. f_equal. f_equal.
    f_equal.
    + f_equal. apply Bool.eq_true_iff_eq. rewrite !existsb_exists.
      split; intros (set & Hin & Hkey); exists set; split; try exact Hkey.
      * now apply (Permutation_in _ Htxt).
      * now apply (Permutation_in _ (Permutation_sym Htxt)).
    + apply Bool.eq_true_iff_eq. rewrite !verdict_spec.
      unfold blocks_answered.
      split; intros Hans d Hin Hb Hp.
      * apply (Permutation_in _ (Permutation_sym Hre)) in Hin.
        destruct (Hans d Hin Hb Hp) as (d' & Hin' & Ha & Hle).
        exists d'. split; [now apply (Permutation_in _ Hre)|now split].
      * apply (Permutation_in _ Hre) in Hin.
        destruct (Hans d Hin Hb Hp) as (d' & Hin' & Ha & Hle).
        exists d'.
        split; [now apply (Permutation_in _ (Permutation_sym Hre))|].
        now split.
  - unfold validate_group_for_ui. rewrite Hstate, Hid.
    assert (Hnil : txt_blocked (txt_blocked_id_sets a1) None
                   = txt_blocked (txt_blocked_id_sets a2) None).
    { destruct (txt_blocked_id_sets a1) as [|s1 l1];
        destruct (txt_blocked_id_sets a2) as [|s2 l2]; try reflexivity.
      - now apply Permutation_nil_cons in Htxt.
      - apply Permutation_sym in Htxt.
        now apply Permutation_nil_cons in Htxt. }
    rewrite Hnil, !fold_left_concat, !blocklist_fold_without_id.
    reflexivity.
Qed.


End FilterFacts.


(* ------------------------------------------------------------------ *)
(** ** The engine on the groups of the application *)

Section StoreFacts.
Context {U : Unicode} {DBL : Double} {RE : RegexEngine}.

Lemma gtk_filter_changed_different {A} (match_ : A -> option bool)
  (items : list A) (matches : list bool) :
  length matches = length items ->
  option_map (gtk_filter_list_model_items items)
    (gtk_filter_changed GTK_FILTER_CHANGE_DIFFERENT match_ items matches)
  = gtk_filter_list_model match_ items.
Proof.
  revert matches. induction items as [|item items IH]; intros matches Hlen.
  - now destruct matches.
  - destruct matches as [|shown matches]; [discriminate|].
    cbn [gtk_filter_changed gtk_filter_list_model].
    destruct (match_ item) as [verdict|]; [|reflexivity].
    rewrite <- (IH matches) by (cbn in Hlen; lia).
    destruct (gtk_filter_changed GTK_FILTER_CHANGE_DIFFERENT match_ items
                matches) as [matches'|]; [|reflexivity].
    cbn [option_map gtk_filter_list_model_items]. now destruct verdict.
Qed.

Lemma gtk_filter_changed_keeps_shown {A} (match_ : A -> option bool)
  (items : list A) (matches matches' : list bool) (k : nat) :
  gtk_filter_changed GTK_FILTER_CHANGE_LESS_STRICT match_ items matches
  = Some matches' ->
  (k < length items)%nat ->
  nth_error matches k = Some true ->
  nth_error matches' k = Some true.
Proof.
  revert matches matches' k.
  induction items as [|item items IH]; intros matches matches' k;
    [cbn [length]; lia|].
  destruct matches as [|shown matches]; [now destruct k|].
  cbn [gtk_filter_changed].
  destruct (if negb shown then match_ item else Some shown) as [verdict|]
    eqn:Hverdict; [|discriminate].
  destruct (gtk_filter_changed GTK_FILTER_CHANGE_LESS_STRICT match_ items
              matches) as [rest|] eqn:Hrest; [|discriminate].
  cbn [option_map]. intros [= <-] Hk Hshown.
  destruct k as [|k]; cbn [nth_error] in *.
  - injection Hshown as ->. cbn [negb] in Hverdict. now symmetry.
  - apply (IH matches rest k Hrest); [cbn [length] in Hk; lia|exact Hshown].
Qed.

Lemma gtk_filter_list_model_items_In {A} (items : list A)
  (matches : list bool) (k : nat) (item : A) :
  nth_error items k = Some item -> nth_error matches k = Some true ->
  In item (gtk_filter_list_model_items items matches).
Proof.
  revert matches k. induction items as [|x items IH]; intros matches k;
    [now destruct k|].
  destruct matches as [|shown matches]; [now destruct k|].
  destruct k as [|k]; cbn [nth_error gtk_filter_list_model_items].
  - intros [= ->] [= ->]. now left.
  - intros Hitem Hshown. specialize (IH matches k Hitem Hshown).
    destruct shown; [now right|exact IH].
Qed.

(** X16: a group can stay listed after the filter has come to reject it.
    The filter list model keeps the verdicts of the last run of the
    filter.  When an entry that has reached its end of life is added to a
    shown group while end-of-life applications are to be hidden, the
    filter rejects the group from then on; but the change that the
    application reports after adding entries,
    [GTK_FILTER_CHANGE_LESS_STRICT], runs the filter only on the groups
    that are not shown, so the group stays in the model that the engine
    searches, and a query with an empty first term lists it. *)
Theorem stale_verdict_keeps_a_group_listed (application : BzApplication)
  (groups : list _BzEntryGroup) (matches matches' : list bool) (k : nat)
  (group group' : _BzEntryGroup) (application_id : option cstr)
  (entry : BzEntry) (runtime : option BzEntry) (num_processors : nat)
  (self : BzSearchEngine) :
  bz_state_info_get_hide_eol (state application) = true ->
  length matches = length groups ->
  nth_error groups k = Some group ->
  nth_error matches k = Some true ->
  bz_entry_get_eol entry <> None ->
  bz_entry_group_add application_id group entry runtime false
  = Some group' ->
  let groups' := firstn k groups ++ group' :: skipn (S k) groups in
  gtk_filter_changed GTK_FILTER_CHANGE_LESS_STRICT
    (fun item => filter_entry_groups item application) groups' matches
  = Some matches' ->
  model self
  = Some (map engine_fields (gtk_filter_list_model_items groups' matches')) ->
  validate_group_for_ui application group' = Some false
  /\ In group' (gtk_filter_list_model_items groups' matches')
  /\ exists finished,
       bz_search_engine_query num_processors self [[]] = Resolved finished
       /\ In (Some (engine_fields group')) (map sr_group (results finished)).
Proof.
  intros Hhide Hlen Hgroup Hshown Heol Hadd groups' Hchanged Hmodel.
  assert (Hk : (k < length groups)%nat)
    by (apply nth_error_Some; congruence).
  assert (Hlen' : length groups' = length groups).
  { unfold groups'. rewrite length_app, length_firstn. cbn [length].
    rewrite length_skipn. lia. }
  assert (Hnth : nth_error groups' k = Some group').
  { unfold groups'. rewrite nth_error_app2 by (rewrite length_firstn; lia).
    rewrite length_firstn, Nat.min_l by lia.
    now rewrite Nat.sub_diag. }
  assert (Hlisted : In group' (gtk_filter_list_model_items groups' matches')).
  { apply (gtk_filter_list_model_items_In _ _ k); [exact Hnth|].
    apply (gtk_filter_changed_keeps_shown _ _ _ _ _ Hchanged); [lia|].
    exact Hshown. }
  split; [|split; [exact Hlisted|]].
  - unfold bz_entry_group_add in Hadd.
    destruct (bz_entry_get_unique_id entry); [|discriminate].
    injection Hadd as <-. unfold validate_group_for_ui. cbn [eol].
    rewrite Hhide.
    destruct (bz_entry_get_eol entry) as [text|]; [|contradiction].
    reflexivity.
  - unfold bz_search_engine_query. cbn [g_utf8_get_char].
    rewrite Z.eqb_refl, orb_true_r. eexists. split; [reflexivity|].
    cbn [results]. rewrite unranked_groups, Hmodel. cbn [groups_of].
    apply in_map, in_map. exact Hlisted.
Qed.

(** X17: a group made for a single entry is never ranked.  Such a group
    is never marked searchable, whatever its entry says, so a finished
    query lists it only without a score, that is on the branch that
    returns every candidate. *)
Theorem single_entry_groups_are_never_ranked (num_processors : nat)
  (self : BzSearchEngine) (query_terms : list cstr)
  (finished : BzFinishedSearchQuery) (entry : BzEntry) :
  bz_search_engine_query num_processors self query_terms
  = Resolved finished ->
  Forall (fun r =>
            sr_group r
            = Some (engine_fields (bz_entry_group_new_for_single_entry entry))
            -> sr_score r = None)
    (results finished).
Proof.
  intros Hquery.
  eapply Forall_impl; [|exact (results_carry_candidates _ _ _ _ Hquery)].
  intros r (fields & _ & Hgroup & Hscored) Hsingle.
  rewrite Hgroup in Hsingle. injection Hsingle as ->.
  destruct (sr_score r) as [score|]; [|reflexivity].
  assert (Hs : Some score <> None) by discriminate.
  specialize (Hscored Hs). discriminate.
Qed.

End StoreFacts.

Lemma group_is_shown_iff_witness :
  @validate_group_for_ui literal_engine Store.application
    (Store.group_of Sample.firefox)
  = Some true
  /\ @validate_group_for_ui literal_engine Store.application
       (Store.group_of Sample.nautilus)
     = Some false.
Proof.
  split; [|reflexivity].
  apply (@group_is_shown_iff literal_engine Store.application
           (Store.group_of Sample.firefox) (utf8 "org.mozilla.firefox")).
  - reflexivity.
  - split; [reflexivity|]. right. split.
    + repeat constructor. intros [H|[]]. discriminate.
    + intros data Hin Hblocks _.
      exists (@Build_BlocklistRegexData literal_engine 0 None
                (Some (utf8 "org.mozilla.firefox"))).
      split; [cbn; auto|]. split; [reflexivity|].
      cbn in Hin. destruct Hin as [<-|[<-|[<-|[]]]];
        cbn [priority]; lia.
Defined.

Lemma blocklist_order_is_irrelevant_witness :
  @validate_group_for_ui literal_engine Store.application
    (Store.group_of Sample.firefox)
  = @validate_group_for_ui literal_engine Store.reordered
      (Store.group_of Sample.firefox).
Proof.
  apply (@blocklist_order_is_irrelevant literal_engine Store.application
           Store.reordered (Store.group_of Sample.firefox)).
  - reflexivity.
  - apply Permutation_refl.
  - cbn [Store.reordered Store.application blocklist_regexes rev app concat].
    apply Permutation_cons_append.
Defined.

Lemma stale_verdict_keeps_a_group_listed_witness :
  exists group',
    bz_entry_group_add None (Store.group_of Sample.firefox) Store.retired
      None false
    = Some group'
    /\ @validate_group_for_ui literal_engine Store.application
         (Store.group_of Sample.firefox)
       = Some true
    /\ @validate_group_for_ui literal_engine Store.application group'
       = Some false
    /\ exists finished,
         @bz_search_engine_query ascii_case rational literal_engine 4
           {| model := Some [engine_fields group'];
              biases := None;
              biases_mirror := [] |}
           [[]]
         = Resolved finished
         /\ In (Some (engine_fields group'))
              (map sr_group (results finished)).
Proof.
  set (added := match bz_entry_group_add None
                        (Store.group_of Sample.firefox) Store.retired None
                        false with
                | Some group' => group'
                | None => bz_entry_group_init
                end).
  exists added. split; [reflexivity|]. split; [reflexivity|].
  destruct (@stale_verdict_keeps_a_group_listed ascii_case rational
              literal_engine Store.application
              [Store.group_of Sample.firefox] [true] [true] 0
              (Store.group_of Sample.firefox) added None Store.retired
              None 4
              {| model := Some [engine_fields added];
                 biases := None;
                 biases_mirror := [] |})
    as (Hrejected & _ & Hquery).
  - reflexivity.
  - reflexivity.
  - reflexivity.
  - reflexivity.
  - discriminate.
  - reflexivity.
  - reflexivity.
  - reflexivity.
  - split; [exact Hrejected|exact Hquery].
Defined.

Lemma single_entry_groups_are_never_ranked_witness :
  searchable (engine_fields (bz_entry_group_new_for_single_entry
                               Store.stable))
  = false
  /\ exists finished,
       @bz_search_engine_query ascii_case rational literal_engine 4
         {| model :=
              Some [engine_fields
                      (bz_entry_group_new_for_single_entry Store.stable)];
            biases := None;
            biases_mirror := [] |}
         [utf8 "firefox"]
       = Resolved finished
       /\ results finished = []
       /\ Forall (fun r =>
                    sr_group r
                    = Some (engine_fields
                              (bz_entry_group_new_for_single_entry
                                 Store.stable))
                    -> sr_score r = None)
            (results finished).
Proof.
  split; [reflexivity|].
  eexists. split; [vm_compute; reflexivity|]. split; [reflexivity|].
  eapply (@single_entry_groups_are_never_ranked ascii_case rational
            literal_engine 4
            {| model :=
                 Some [engine_fields
                         (bz_entry_group_new_for_single_entry
                            Store.stable)];
               biases := None;
               biases_mirror := [] |}
            [utf8 "firefox"]).
  vm_compute; reflexivity.
Defined.


(* ------------------------------------------------------------------ *)
(** ** Groups with identifiers *)

Section IdentifiedFacts.
Context {U : Unicode} {DBL : Double} {RE : RegexEngine}.





End IdentifiedFacts.



(* ------------------------------------------------------------------ *)
(** ** The entry that stands for a group *)

Section RepresentativeFacts.

Lemma ui_entry_id_head (self : _BzEntryGroup) :
  bz_entry_group_dup_ui_entry_id self = hd_error (unique_ids self).
Proof.
  unfold bz_entry_group_dup_ui_entry_id.
  now destruct (unique_ids self).
Qed.

Lemma add_step_stands_for (application_id : option cstr)
  (self : _BzEntryGroup) (best : option BzEntry) (entry : BzEntry)
  (runtime : option BzEntry) (ignore_eol : bool) (self' : _BzEntryGroup) :
  -1 <= bz_entry_calc_usefulness entry ->
  stands_for self best ->
  bz_entry_group_add application_id self entry runtime ignore_eol
  = Some self' ->
  stands_for self'
    (match best with
     | None => Some entry
     | Some best' =>
         if bz_entry_calc_usefulness entry
            >=? bz_entry_calc_usefulness best'
         then Some entry
         else best
     end).
Proof.
  intros Huse Hbest. unfold bz_entry_group_add.
  destruct (bz_entry_get_unique_id entry) as [unique_id|] eqn:Hu;
    [|discriminate].
  intros [= <-].
  assert (Hfront : forall strings,
             hd_error (gtk_string_list_splice strings 0 0 [unique_id])
             = Some unique_id) by reflexivity.
  destruct best as [best'|]; unfold stands_for in *.
  - destruct Hbest as (Hhead & Hsome & Hmax). rewrite Hmax.
    destruct (bz_entry_calc_usefulness entry
              >=? bz_entry_calc_usefulness best').
    + rewrite ui_entry_id_head. cbn [unique_ids max_usefulness].
      rewrite Hfront, Hu. repeat split. discriminate.
    + rewrite ui_entry_id_head in *. cbn [unique_ids max_usefulness].
      split; [|split; [exact Hsome|reflexivity]].
      destruct (gtk_string_list_find (unique_ids self) unique_id);
        [exact Hhead|].
      unfold gtk_string_list_append.
      destruct (unique_ids self) as [|u l]; [|exact Hhead].
      cbn in Hhead. now rewrite <- Hhead in Hsome.
  - destruct Hbest as [Hnil Hmax]. rewrite Hmax.
    destruct (Z.geb_spec (bz_entry_calc_usefulness entry) (-1)); [|lia].
    rewrite ui_entry_id_head. cbn [unique_ids max_usefulness].
    rewrite Hfront, Hu. repeat split. discriminate.
Qed.

Lemma add_entries_stands_for (application_id : option cstr)
  (calls : list (BzEntry * option BzEntry * bool))
  (self : _BzEntryGroup) (best : option BzEntry) (self' : _BzEntryGroup) :
  Forall (fun call => -1 <= bz_entry_calc_usefulness (fst (fst call)))
    calls ->
  stands_for self best ->
  add_entries application_id self calls = Some self' ->
  stands_for self'
    (fold_left
       (fun best entry =>
          match best with
          | None => Some entry
          | Some best' =>
              if bz_entry_calc_usefulness entry
                 >=? bz_entry_calc_usefulness best'
              then Some entry
              else best
          end)
       (map (fun call => fst (fst call)) calls) best).
Proof.
  intros Huse. revert self best.
  induction Huse as [|[[entry runtime] ignore_eol] calls Hentry _ IH];
    intros self best Hbest; cbn [add_entries map fold_left fst].
  - now intros [= <-].
  - destruct (bz_entry_group_add application_id self entry runtime
                ignore_eol) as [next|] eqn:Hadd; [|discriminate].
    apply IH.
    exact (add_step_stands_for _ _ _ _ _ _ _ Hentry Hbest Hadd).
Qed.

(** X19: the entry that stands for a group.  After any run of additions
    to a fresh group, with usefulness values that are not below -1, the
    id that [bz_entry_group_dup_ui_entry_id] returns is the unique id of
    the most useful entry added, the latest one among equally useful
    ones, and [max_usefulness] is its usefulness. *)
Theorem most_useful_entry_stands_for_the_group
  (application_id : option cstr)
  (calls : list (BzEntry * option BzEntry * bool))
  (self : _BzEntryGroup) :
  Forall (fun call => -1 <= bz_entry_calc_usefulness (fst (fst call)))
    calls ->
  calls <> [] ->
  add_entries application_id bz_entry_group_init calls = Some self ->
  exists best,
    most_useful (map (fun call => fst (fst call)) calls) = Some best
    /\ bz_entry_group_dup_ui_entry_id self = bz_entry_get_unique_id best
    /\ bz_entry_get_unique_id best <> None
    /\ max_usefulness self = bz_entry_calc_usefulness best.
Proof.
  intros Huse Hne Hadd.
  pose proof (add_entries_stands_for application_id calls
                bz_entry_group_init None self Huse
                (conj eq_refl eq_refl) Hadd) as Hfinal.
  fold (most_useful (map (fun call => fst (fst call)) calls)) in Hfinal.
  destruct (most_useful (map (fun call => fst (fst call)) calls))
    as [best|] eqn:Hbest.
  - exists best. split; [reflexivity|exact Hfinal].
  - exfalso. destruct calls as [|[[entry runtime] ignore_eol] calls];
      [now apply Hne|].
    unfold most_useful in Hbest. cbn [map fold_left fst] in Hbest.
    clear -Hbest.
    assert (Hkeep : forall entries start,
               fold_left
                 (fun best entry =>
                    match best with
                    | None => Some entry
                    | Some best' =>
                        if bz_entry_calc_usefulness entry
                           >=? bz_entry_calc_usefulness best'
                        then Some entry
                        else best
                    end)
                 entries (Some start)
               <> None).
    { induction entries as [|e entries IH]; intros start; cbn [fold_left];
        [discriminate|].
      destruct (bz_entry_calc_usefulness e
                >=? bz_entry_calc_usefulness start); apply IH. }
    now apply Hkeep in Hbest.
Qed.

End RepresentativeFacts.

Lemma most_useful_entry_stands_for_the_group_witness :
  exists self best,
    add_entries None bz_entry_group_init
      [(Store.beta, None, false); (Store.stable, None, false);
       (Store.beta, None, false)]
    = Some self
    /\ most_useful [Store.beta; Store.stable; Store.beta] = Some best
    /\ bz_entry_group_dup_ui_entry_id self
       = Some (utf8 "flathub stable firefox")
    /\ bz_entry_group_dup_ui_entry_id self = bz_entry_get_unique_id best.
Proof.
  destruct (most_useful_entry_stands_for_the_group None
              [(Store.beta, None, false); (Store.stable, None, false);
               (Store.beta, None, false)]
              (match add_entries None bz_entry_group_init
                       [(Store.beta, None, false);
                        (Store.stable, None, false);
                        (Store.beta, None, false)] with
               | Some self => self
               | None => bz_entry_group_init
               end))
    as (best & Hbest & Hid & _).
  - repeat constructor; cbn; lia.
  - discriminate.
  - reflexivity.
  - eexists. exists best. split; [reflexivity|].
    split; [exact Hbest|]. split; [reflexivity|exact Hid].
Defined.


(* ------------------------------------------------------------------ *)
(** ** The order of delivery *)

Section DeliveryFacts.

Lemma cmp_rref_first (hash : list (cstr * AsComponentKind))
  (a b : FlatpakRemoteRef) :
  cmp_rref a b hash <= 0 ->
  (delivery_rank hash a <= delivery_rank hash b)%nat.
Proof.
  unfold cmp_rref, delivery_rank.
  destruct (g_hash_table_lookup hash (flatpak_ref_get_name a)) as [[]|];
    destruct (g_hash_table_lookup hash (flatpak_ref_get_name b)) as [[]|];
    destruct (flatpak_ref_get_kind a); destruct (flatpak_ref_get_kind b);
    cbn; lia.
Qed.

Lemma cmp_rref_second (hash : list (cstr * AsComponentKind))
  (a b : FlatpakRemoteRef) :
  0 < cmp_rref a b hash ->
  (delivery_rank hash b <= delivery_rank hash a)%nat.
Proof.
  unfold cmp_rref, delivery_rank.
  destruct (g_hash_table_lookup hash (flatpak_ref_get_name a)) as [[]|];
    destruct (g_hash_table_lookup hash (flatpak_ref_get_name b)) as [[]|];
    destruct (flatpak_ref_get_kind a); destruct (flatpak_ref_get_kind b);
    cbn; lia.
Qed.

(** X20: the remote refs are sent in the order of their kinds.  Sorting
    with [cmp_rref] rearranges the refs so that runtimes without a
    component come first, then runtime components, add-ons, other
    components and applications, and last the refs that are no runtimes
    and have no component.  [cmp_rref] itself is no consistent
    comparison: it compares a ref as equal to itself only when the ref is
    one of the other components. *)
Theorem refs_are_sent_by_kind (hash : list (cstr * AsComponentKind))
  (refs : list FlatpakRemoteRef) :
  Permutation
    (g_ptr_array_sort_values_with_data refs (fun a b => cmp_rref a b hash))
    refs
  /\ StronglySorted
       (fun a b => (delivery_rank hash a <= delivery_rank hash b)%nat)
       (g_ptr_array_sort_values_with_data refs
          (fun a b => cmp_rref a b hash))
  /\ forall ref,
       cmp_rref ref ref hash = 0 <-> delivery_rank hash ref = 3%nat.
Proof.
  split; [apply msort_perm|]. split.
  - apply (g_array_sort_sorted FlatpakRemoteRef
             (fun a b => cmp_rref a b hash) (fun _ => True)
             (fun a b => (delivery_rank hash a <= delivery_rank hash b)%nat)).
    + intros x y _ _. apply cmp_rref_first.
    + intros x y _ _. apply cmp_rref_second.
    + intros x y z _ _ _. apply Nat.le_trans.
    + apply Forall_forall. now intros.
  - intros ref. unfold cmp_rref, delivery_rank.
    destruct (g_hash_table_lookup hash (flatpak_ref_get_name ref)) as [[]|];
      destruct (flatpak_ref_get_kind ref); cbn; split; intros H;
      try discriminate; try reflexivity; lia.
Qed.

Lemma cmp_entry_cases (a b : BzEntry) :
  (cmp_entry a b = -1 /\ (entry_rank a < entry_rank b)%nat)
  \/ (cmp_entry a b = 0 /\ entry_rank a = entry_rank b)
  \/ (cmp_entry a b = 1 /\ (entry_rank b < entry_rank a)%nat).
Proof.
  unfold cmp_entry, entry_rank.
  destruct (bz_entry_is_of_kinds a BZ_ENTRY_KIND_RUNTIME);
    destruct (bz_entry_is_of_kinds b BZ_ENTRY_KIND_RUNTIME);
    destruct (bz_entry_is_of_kinds a BZ_ENTRY_KIND_ADDON);
    destruct (bz_entry_is_of_kinds b BZ_ENTRY_KIND_ADDON);
    cbn; intuition lia.
Qed.

(** X21: the cached entries are replaced in the order of their kinds.
    [cmp_entry] compares two entries as their ranks compare (runtimes
    before the rest, add-ons first within each half), so it is a
    consistent comparison, and sorting with it rearranges the entries by
    ascending rank: every add-on is replaced before the applications
    that it extends. *)
Theorem entries_are_replaced_by_kind (entries : list BzEntry) :
  (forall a b,
      cmp_entry a b
      = match Nat.compare (entry_rank a) (entry_rank b) with
        | Lt => -1
        | Eq => 0
        | Gt => 1
        end)
  /\ Permutation (g_ptr_array_sort_values_with_data entries cmp_entry)
       entries
  /\ StronglySorted (fun a b => (entry_rank a <= entry_rank b)%nat)
       (g_ptr_array_sort_values_with_data entries cmp_entry).
Proof.
  split; [|split; [apply msort_perm|]].
  - intros a b.
    destruct (cmp_entry_cases a b) as [[-> H]|[[-> H]|[-> H]]].
    + apply Nat.compare_lt_iff in H. now rewrite H.
    + apply Nat.compare_eq_iff in H. now rewrite H.
    + apply Nat.compare_gt_iff in H. now rewrite H.
  - apply (g_array_sort_sorted BzEntry cmp_entry (fun _ => True)
             (fun a b => (entry_rank a <= entry_rank b)%nat)).
    + intros x y _ _ H.
      destruct (cmp_entry_cases x y) as [[_ Hr]|[[_ Hr]|[Hc _]]]; lia.
    + intros x y _ _ H.
      destruct (cmp_entry_cases x y) as [[Hc _]|[[Hc _]|[_ Hr]]]; lia.
    + intros x y z _ _ _. apply Nat.le_trans.
    + apply Forall_forall. now intros.
Qed.

End DeliveryFacts.
